(** * kaleidoscope-ts: lexer, parser and driver of [src/main.ts]

    A shallow embedding of the Kaleidoscope front end (chapter 2 of the LLVM
    tutorial, in TypeScript).  The program keeps its whole state in
    module-level variables; here they are the fields of one record [state],
    and every function of the source is a computation in a state monad whose
    failure case is "out of fuel" (the source's loops and recursion are
    bounded by a [fuel] argument; totality is proved separately).

    Source files: [src/cctype.ts], [src/cstdio.ts], [src/main.ts].
    [src/lib.ts] is imported by all three but is not part of the sources. *)

From Stdlib Require Import ZArith NArith List String Ascii Lia.
From Stdlib Require Import Floats.SpecFloat.
From stdpp Require Import base option list gmap.

Set Warnings "-register-all".
Local Open Scope Z_scope.

(** ** JavaScript values used by the program *)

(** A UTF-16 code unit, and a string as the list of its code units. *)
Definition jschar := N.
Definition jsstring := list jschar.

(** A character literal of the source, as its code unit. *)
Definition chr (a : ascii) : jschar := N_of_ascii a.

(** A string literal of the source. *)
Fixpoint js (s : string) : jsstring :=
  match s with
  | EmptyString => []
  | String a s' => chr a :: js s'
  end.

(** [number]: an IEEE 754 binary64 value. *)
Definition number := spec_float.
Definition NaN : number := S754_nan.

(** The binary64 value nearest to [m / 10^k] (ties to even): the Number value
    of the decimal literal whose digits spell [m] and which has [k] digits
    after the point. *)
Definition round_decimal (m : N) (k : nat) : number :=
  match m with
  | N0 => S754_zero false
  | Npos p =>
      SFdiv 53 1024 (S754_finite false p 0)
                    (S754_finite false (Z.to_pos (10 ^ Z.of_nat k)) 0)
  end.

Definition is_decimal_digit (c : jschar) : bool :=
  (N.leb 48 c && N.leb c 57)%bool.

(** The longest prefix of [s] whose elements satisfy [p], and the rest. *)
Fixpoint span (p : jschar -> bool) (s : jsstring) : jsstring * jsstring :=
  match s with
  | [] => ([], [])
  | c :: s' =>
      if p c then let '(a, b) := span p s' in (c :: a, b) else ([], s)
  end.

Definition digits_value (ds : jsstring) : N :=
  fold_left (fun acc d => (10 * acc + (d - 48))%N) ds 0%N.

(** The built-in [parseFloat] on a text made of decimal digits and dots, which
    is all [gettok] passes to it (lemma [gettok_number_loop_text]): the
    longest prefix of the form [digits], [digits . digits*] or [. digits+] is
    converted, and [NaN] is returned when there is no such prefix.  Signs,
    exponents, leading blanks and [Infinity] cannot occur in such a text and
    are left out. *)
Definition parseFloat (s : jsstring) : number :=
  let '(ip, r) := span is_decimal_digit s in
  let fp := match r with
            | c :: r' => if N.eqb c (chr ".") then fst (span is_decimal_digit r') else []
            | [] => []
            end in
  match ip, fp with
  | [], [] => NaN
  | _, _ => round_decimal (digits_value (ip ++ fp)) (length fp)
  end.

(** ** lib.ts *)

(** Modelled from the spec: [src/lib.ts] is missing; its two exports are used
    as the character/code conversions of the platform.  [fromCharCode c] is
    the one-unit string [String.fromCharCode(c)] (the code taken modulo
    2^16), given by its code unit; [toCharCode s] is the code of the
    one-character string [s]. *)
Definition fromCharCode (c : Z) : jschar := Z.to_N (c mod 65536).
Definition toCharCode (c : jschar) : Z := Z.of_N c.

(** ** cctype.ts *)

Definition in_range (lo hi : ascii) (c : jschar) : bool :=
  (N.leb (chr lo) c && N.leb c (chr hi))%bool.

(** [/[a-zA-Z0-9]/.test(fromCharCode(c))] *)
Definition isalnum (c : Z) : bool :=
  let s := fromCharCode c in
  (in_range "a" "z" s || in_range "A" "Z" s || in_range "0" "9" s)%bool.

Definition isalpha (c : Z) : bool :=
  let s := fromCharCode c in
  (in_range "a" "z" s || in_range "A" "Z" s)%bool.

Definition isdigit (c : Z) : bool :=
  in_range "0" "9" (fromCharCode c).

Definition isspace (c : Z) : bool :=
  let str := fromCharCode c in
  (N.eqb str (chr " ") ||
   N.eqb str 9 (* \t *) ||
   N.eqb str 10 (* \n *) ||
   N.eqb str 11 (* \v *) ||
   N.eqb str 12 (* \f *) ||
   N.eqb str 13 (* \r *))%bool.

(** ** Abstract syntax tree (main.ts) *)

Inductive ExprAST : Type :=
| NumberExprAST (Val : number)
| VariableExprAST (Name : jsstring)
| BinaryExprAST (Op : Z) (LHS RHS : ExprAST)
| CallExprAST (Callee : jsstring) (Args : list ExprAST).

Inductive PrototypeAST : Type :=
| MkPrototypeAST (Name : jsstring) (Args : list jsstring).

Inductive FunctionAST : Type :=
| MkFunctionAST (Proto : PrototypeAST) (Body : ExprAST).

(** ** Program state *)

(** The module-level variables of [cstdio.ts] and [main.ts], and the lines
    written with [console.error]. *)
Record state : Type := mkState {
  stream : list jschar;            (* cstdio.ts: the characters not yet read *)
  LastChar : Z;
  IdentifierStr : jsstring;
  NumVal : number;
  CurTok : Z;
  BinopPrecedence : gmap Z Z;
  console : list string;
}.

Definition set_stream (v : list jschar) (st : state) : state :=
  mkState v (LastChar st) (IdentifierStr st) (NumVal st) (CurTok st)
          (BinopPrecedence st) (console st).
Definition set_LastChar (v : Z) (st : state) : state :=
  mkState (stream st) v (IdentifierStr st) (NumVal st) (CurTok st)
          (BinopPrecedence st) (console st).
Definition set_IdentifierStr (v : jsstring) (st : state) : state :=
  mkState (stream st) (LastChar st) v (NumVal st) (CurTok st)
          (BinopPrecedence st) (console st).
Definition set_NumVal (v : number) (st : state) : state :=
  mkState (stream st) (LastChar st) (IdentifierStr st) v (CurTok st)
          (BinopPrecedence st) (console st).
Definition set_CurTok (v : Z) (st : state) : state :=
  mkState (stream st) (LastChar st) (IdentifierStr st) (NumVal st) v
          (BinopPrecedence st) (console st).
Definition set_BinopPrecedence (v : gmap Z Z) (st : state) : state :=
  mkState (stream st) (LastChar st) (IdentifierStr st) (NumVal st) (CurTok st)
          v (console st).
Definition set_console (v : list string) (st : state) : state :=
  mkState (stream st) (LastChar st) (IdentifierStr st) (NumVal st) (CurTok st)
          (BinopPrecedence st) v.

(** ** The monad of the embedding

    A computation reads and updates the state and returns a value, or runs
    out of fuel ([None]). *)
Definition M (A : Type) : Type := state -> option (A * state).

Definition ret {A} (a : A) : M A := fun st => Some (a, st).
Definition bind {A B} (m : M A) (k : A -> M B) : M B :=
  fun st => match m st with
            | Some (a, st') => k a st'
            | None => None
            end.
Definition out_of_fuel {A} : M A := fun _ => None.
Definition read {A} (proj : state -> A) : M A := fun st => Some (proj st, st).
Definition write (upd : state -> state) : M unit := fun st => Some (tt, upd st).

Notation "x <- m ;; k" := (bind m (fun x => k))
  (at level 100, m at next level, right associativity).
Notation "m ;; k" := (bind m (fun _ => k))
  (at level 100, right associativity).

(** ** cstdio.ts *)

Definition EOF : Z := -1.

(** [stream.shift()] removes and returns the first character; a character
    (a non-empty string) is truthy, [undefined] (empty stream) is not. *)
Definition getchar : M Z := fun st =>
  match stream st with
  | c :: rest => Some (toCharCode c, set_stream rest st)
  | [] => Some (EOF, st)
  end.

(** ** Lexer (main.ts) *)

Definition tok_eof : Z := -1.
Definition tok_def : Z := -2.
Definition tok_extern : Z := -3.
Definition tok_identifier : Z := -4.
Definition tok_number : Z := -5.

Definition jsstring_eqb (a b : jsstring) : bool := bool_decide (a = b).

(** [while (isspace(LastChar)) LastChar = await getchar();] *)
Fixpoint gettok_skip_whitespace (fuel : nat) : M unit :=
  match fuel with
  | O => out_of_fuel
  | S f =>
      c <- read LastChar ;;
      if isspace c then
        c' <- getchar ;;
        write (set_LastChar c') ;;
        gettok_skip_whitespace f
      else ret tt
  end.

(** [while (isalnum((LastChar = await getchar()))) IdentifierStr += ...] *)
Fixpoint gettok_identifier_loop (fuel : nat) : M unit :=
  match fuel with
  | O => out_of_fuel
  | S f =>
      c <- getchar ;;
      write (set_LastChar c) ;;
      if isalnum c then
        s <- read IdentifierStr ;;
        write (set_IdentifierStr (s ++ [fromCharCode c])) ;;
        gettok_identifier_loop f
      else ret tt
  end.

(** [do { NumStr += fromCharCode(LastChar); LastChar = await getchar(); }
     while (isdigit(LastChar) || LastChar === toCharCode('.'))] *)
Fixpoint gettok_number_loop (fuel : nat) (NumStr : jsstring) : M jsstring :=
  match fuel with
  | O => out_of_fuel
  | S f =>
      c <- read LastChar ;;
      let NumStr := NumStr ++ [fromCharCode c] in
      c' <- getchar ;;
      write (set_LastChar c') ;;
      if (isdigit c' || (c' =? toCharCode (chr ".")))%bool then
        gettok_number_loop f NumStr
      else ret NumStr
  end.

(** [do { LastChar = await getchar(); }
     while (LastChar !== EOF && LastChar !== '\n' && LastChar !== '\r')] *)
Fixpoint gettok_comment_loop (fuel : nat) : M unit :=
  match fuel with
  | O => out_of_fuel
  | S f =>
      c <- getchar ;;
      write (set_LastChar c) ;;
      if (negb (c =? EOF) && negb (c =? 10) && negb (c =? 13))%bool then
        gettok_comment_loop f
      else ret tt
  end.

(** The last lines of [gettok]: the end-of-file check and the
    single-character token. *)
Definition gettok_tail : M Z :=
  c <- read LastChar ;;
  if c =? EOF then ret tok_eof
  else
    let ThisChar := c in
    c' <- getchar ;;
    write (set_LastChar c') ;;
    ret ThisChar.

(** gettok - Return the next token from standard input. *)
Fixpoint gettok (fuel : nat) : M Z :=
  match fuel with
  | O => out_of_fuel
  | S f =>
      gettok_skip_whitespace f ;;
      c <- read LastChar ;;
      if isalpha c then
        write (set_IdentifierStr [fromCharCode c]) ;;
        gettok_identifier_loop f ;;
        s <- read IdentifierStr ;;
        if jsstring_eqb s (js "def") then ret tok_def
        else if jsstring_eqb s (js "extern") then ret tok_extern
        else ret tok_identifier
      else if (isdigit c || (c =? toCharCode (chr ".")))%bool then
        NumStr <- gettok_number_loop f [] ;;
        write (set_NumVal (parseFloat NumStr)) ;;
        ret tok_number
      else if c =? toCharCode (chr "#") then
        gettok_comment_loop f ;;
        c' <- read LastChar ;;
        if negb (c' =? EOF) then gettok f else gettok_tail
      else gettok_tail
  end.

(** ** Parser (main.ts) *)

Definition getNextToken (fuel : nat) : M Z :=
  tok <- gettok fuel ;;
  write (set_CurTok tok) ;;
  ret tok.

(** [BinopPrecedence.get(CurTok)]; an absent entry is [undefined]. *)
Definition GetTokPrecedence : M Z :=
  tok <- read CurTok ;;
  table <- read BinopPrecedence ;;
  match table !! tok with
  | None => ret (-1)
  | Some TokPrec => if TokPrec <=? 0 then ret (-1) else ret TokPrec
  end.

Definition console_error (line : string) : M unit :=
  write (fun st => set_console (console st ++ [line]) st).

Definition LogError (Str : string) : M (option ExprAST) :=
  console_error ("LogError: " ++ Str)%string ;;
  ret None.

Definition LogErrorP (Str : string) : M (option PrototypeAST) :=
  LogError Str ;;
  ret None.

Definition ParseNumberExpr (fuel : nat) : M (option ExprAST) :=
  v <- read NumVal ;;
  let Result := NumberExprAST v in
  getNextToken fuel ;;
  ret (Some Result).

(** The expression parser.  [ParseIdentifierExpr_args] is the [while (true)]
    loop of [ParseIdentifierExpr]: it returns the argument list when the loop
    is left by [break] and [None] when the function returns [null] from
    inside it.  The [while (true)] loop of [ParseBinOpRHS] is the recursive
    call at the end of its body. *)
Fixpoint ParseParenExpr (fuel : nat) : M (option ExprAST) :=
  match fuel with
  | O => out_of_fuel
  | S f =>
      getNextToken f ;;
      V <- ParseExpression f ;;
      match V with
      | None => ret None
      | Some V =>
          tok <- read CurTok ;;
          if negb (tok =? toCharCode (chr ")")) then LogError "expected ')'"
          else
            getNextToken f ;;
            ret (Some V)
      end
  end

with ParseIdentifierExpr_args (fuel : nat) (Args : list ExprAST)
  : M (option (list ExprAST)) :=
  match fuel with
  | O => out_of_fuel
  | S f =>
      Arg <- ParseExpression f ;;
      match Arg with
      | None => ret None
      | Some Arg =>
          let Args := Args ++ [Arg] in
          tok <- read CurTok ;;
          if tok =? toCharCode (chr ")") then ret (Some Args)
          else if negb (tok =? toCharCode (chr ",")) then
            LogError "Expected ')' or ',' in argument list" ;;
            ret None
          else
            getNextToken f ;;
            ParseIdentifierExpr_args f Args
      end
  end

with ParseIdentifierExpr (fuel : nat) : M (option ExprAST) :=
  match fuel with
  | O => out_of_fuel
  | S f =>
      IdName <- read IdentifierStr ;;
      getNextToken f ;;
      tok <- read CurTok ;;
      if negb (tok =? toCharCode (chr "(")) then
        ret (Some (VariableExprAST IdName))
      else
        getNextToken f ;;
        tok <- read CurTok ;;
        Args <- (if negb (tok =? toCharCode (chr ")"))
                 then ParseIdentifierExpr_args f []
                 else ret (Some [])) ;;
        match Args with
        | None => ret None
        | Some Args =>
            getNextToken f ;;
            ret (Some (CallExprAST IdName Args))
        end
  end

with ParsePrimary (fuel : nat) : M (option ExprAST) :=
  match fuel with
  | O => out_of_fuel
  | S f =>
      tok <- read CurTok ;;
      if tok =? tok_identifier then ParseIdentifierExpr f
      else if tok =? tok_number then ParseNumberExpr f
      else if tok =? toCharCode (chr "(") then ParseParenExpr f
      else LogError "unknown token when expecting an expression"
  end

with ParseBinOpRHS (fuel : nat) (ExprPrec : Z) (LHS : ExprAST)
  : M (option ExprAST) :=
  match fuel with
  | O => out_of_fuel
  | S f =>
      TokPrec <- GetTokPrecedence ;;
      if TokPrec <? ExprPrec then ret (Some LHS)
      else
        BinOp <- read CurTok ;;
        getNextToken f ;;
        RHS <- ParsePrimary f ;;
        match RHS with
        | None => ret None
        | Some RHS =>
            NextPrec <- GetTokPrecedence ;;
            RHS <- (if TokPrec <? NextPrec
                    then ParseBinOpRHS f (TokPrec + 1) RHS
                    else ret (Some RHS)) ;;
            match RHS with
            | None => ret None
            | Some RHS => ParseBinOpRHS f ExprPrec (BinaryExprAST BinOp LHS RHS)
            end
        end
  end

with ParseExpression (fuel : nat) : M (option ExprAST) :=
  match fuel with
  | O => out_of_fuel
  | S f =>
      LHS <- ParsePrimary f ;;
      match LHS with
      | None => ret None
      | Some LHS => ParseBinOpRHS f 0 LHS
      end
  end.

(** [while (await getNextToken() === Token.tok_identifier)
       ArgsNames.push(IdentifierStr);] *)
Fixpoint ParsePrototype_args (fuel : nat) (ArgsNames : list jsstring)
  : M (list jsstring) :=
  match fuel with
  | O => out_of_fuel
  | S f =>
      tok <- getNextToken f ;;
      if tok =? tok_identifier then
        s <- read IdentifierStr ;;
        ParsePrototype_args f (ArgsNames ++ [s])
      else ret ArgsNames
  end.

Definition ParsePrototype (fuel : nat) : M (option PrototypeAST) :=
  tok <- read CurTok ;;
  if negb (tok =? tok_identifier) then
    LogErrorP "Expected function name in prototype"
  else
    FnName <- read IdentifierStr ;;
    getNextToken fuel ;;
    tok <- read CurTok ;;
    if negb (tok =? toCharCode (chr "(")) then
      LogErrorP "Expected '(' in prototype"
    else
      ArgsNames <- ParsePrototype_args fuel [] ;;
      tok <- read CurTok ;;
      if negb (tok =? toCharCode (chr ")")) then
        LogErrorP "Expected ')' in prototype"
      else
        getNextToken fuel ;;
        ret (Some (MkPrototypeAST FnName ArgsNames)).

Definition ParseDefinition (fuel : nat) : M (option FunctionAST) :=
  getNextToken fuel ;;
  Proto <- ParsePrototype fuel ;;
  match Proto with
  | None => ret None
  | Some Proto =>
      E <- ParseExpression fuel ;;
      match E with
      | Some E => ret (Some (MkFunctionAST Proto E))
      | None => ret None
      end
  end.

Definition ParseTopLevelExpr (fuel : nat) : M (option FunctionAST) :=
  E <- ParseExpression fuel ;;
  match E with
  | Some E =>
      let Proto := MkPrototypeAST (js "") [] in
      ret (Some (MkFunctionAST Proto E))
  | None => ret None
  end.

Definition ParseExtern (fuel : nat) : M (option PrototypeAST) :=
  getNextToken fuel ;;
  ParsePrototype fuel.

(** ** Top-level parsing *)

Definition HandleDefinition (fuel : nat) : M unit :=
  r <- ParseDefinition fuel ;;
  match r with
  | Some _ => console_error "Parsed a function definition."
  | None => getNextToken fuel ;; ret tt
  end.

Definition HandleExtern (fuel : nat) : M unit :=
  r <- ParseExtern fuel ;;
  match r with
  | Some _ => console_error "Parsed an extern"
  | None => getNextToken fuel ;; ret tt
  end.

Definition HandleTopLevelExpression (fuel : nat) : M unit :=
  r <- ParseTopLevelExpr fuel ;;
  match r with
  | Some _ => console_error "Parsed a top-level expr"
  | None => getNextToken fuel ;; ret tt
  end.

Fixpoint MainLoop (fuel : nat) : M unit :=
  match fuel with
  | O => out_of_fuel
  | S f =>
      tok <- read CurTok ;;
      if tok =? tok_eof then ret tt
      else if tok =? toCharCode (chr ";") then
        getNextToken f ;; MainLoop f
      else if tok =? tok_def then
        HandleDefinition f ;; MainLoop f
      else if tok =? tok_extern then
        HandleExtern f ;; MainLoop f
      else
        HandleTopLevelExpression f ;; MainLoop f
  end.

(** ** Main driver code *)

(** The first statements of [main]: install the standard binary operators
    and prime the first token. *)
Definition main_install_binops : M unit :=
  write (fun st => set_BinopPrecedence (<[toCharCode (chr "<") := 10]> (BinopPrecedence st)) st) ;;
  write (fun st => set_BinopPrecedence (<[toCharCode (chr "+") := 20]> (BinopPrecedence st)) st) ;;
  write (fun st => set_BinopPrecedence (<[toCharCode (chr "-") := 30]> (BinopPrecedence st)) st) ;;
  write (fun st => set_BinopPrecedence (<[toCharCode (chr "*") := 40]> (BinopPrecedence st)) st).

Definition main_prologue (fuel : nat) : M unit :=
  main_install_binops ;;
  getNextToken fuel ;;
  ret tt.

(** [main]; its result is the exit status handed to [process.exit]. *)
Definition main (fuel : nat) : M Z :=
  main_prologue fuel ;;
  MainLoop fuel ;;
  ret 0.

(** [parts.join(sep)] *)
Fixpoint join (sep : jsstring) (parts : list jsstring) : jsstring :=
  match parts with
  | [] => []
  | [p] => p
  | p :: rest => p ++ sep ++ join sep rest
  end.

(** The state when the modules have been loaded.  [stream] holds the
    command-line arguments joined with one space
    ([process.argv.slice(2).join(' ').split('')]) and [LastChar] a space;
    [IdentifierStr], [NumVal] and [CurTok] are declared without an
    initialiser, so their first contents are left open (given by [unset]). *)
Definition loaded (unset : jsstring * number * Z) (argv : list jsstring) : state :=
  let '(id0, num0, tok0) := unset in
  {| stream := join (js " ") argv;
     LastChar := toCharCode (chr " ");
     IdentifierStr := id0;
     NumVal := num0;
     CurTok := tok0;
     BinopPrecedence := ∅;
     console := [] |}.

(** ** Vocabulary of the statements *)

(** [m2] returns whatever [m1] returns. *)
Definition le_M {A} (m1 m2 : M A) : Prop :=
  forall st r, m1 st = Some r -> m2 st = Some r.

(** [m] started in [st] returns (does not run out of fuel), and its result
    and final state satisfy [Q]. *)
Definition returns {A} (m : M A) (st : state) (Q : A -> state -> Prop) : Prop :=
  exists a st', m st = Some (a, st') /\ Q a st'.

(** The number of [getchar] calls the lexer can still make before it stops
    at [EOF]: the characters not yet read, and the lookahead unless it is
    already [EOF]. *)
Definition chars_left (st : state) : nat :=
  (length (stream st) + (if (LastChar st =? EOF)%Z then 0 else 1))%nat.

(** The same, counting the current token unless it is [tok_eof]. *)
Definition tokens_left (st : state) : nat :=
  (chars_left st + (if (CurTok st =? tok_eof)%Z then 0 else 1))%nat.

(** Once the current token is [tok_eof], the lookahead character is [EOF]
    (and the lexer will return [tok_eof] again). *)
Definition eof_sticky (st : state) : Prop :=
  CurTok st = tok_eof -> LastChar st = EOF.

(** Going from [st] to [st'] only consumed input. *)
Definition consumed (st st' : state) : Prop :=
  (chars_left st' <= chars_left st)%nat /\
  (tokens_left st' <= tokens_left st)%nat /\
  (eof_sticky st -> eof_sticky st').

(** What a call of the lexer does to the input that is left: nothing is
    put back, a token other than [tok_eof] costs at least one character,
    and [tok_eof] is returned only with the lookahead at [EOF]. *)
Definition lexed (st : state) (tok : Z) (st' : state) : Prop :=
  (chars_left st' <= chars_left st)%nat /\
  (tok <> tok_eof -> (chars_left st' < chars_left st)%nat) /\
  (tok = tok_eof -> LastChar st' = EOF).

(** What a parse function does to the input that is left: it only consumes,
    and a result other than [null] costs at least one token. *)
Definition parsed {A} (st : state) (r : option A) (st' : state) : Prop :=
  consumed st st' /\ (r <> None -> (tokens_left st' < tokens_left st)%nat).

(** What handling a top-level construct started on a token other than
    [tok_eof] does: at least one token is consumed. *)
Definition handled (st st' : state) : Prop :=
  consumed st st' /\ (tokens_left st' < tokens_left st)%nat.

(** The table [main] installs in an empty [BinopPrecedence]. *)
Definition standard_binops : gmap Z Z :=
  <[toCharCode (chr "*") := 40]>
    (<[toCharCode (chr "-") := 30]>
       (<[toCharCode (chr "+") := 20]>
          (<[toCharCode (chr "<") := 10]> ∅))).

(** A parse function called where [MainLoop] calls it for the first
    construct of the input: after the first statements of [main]. *)
Definition at_top_level {A} (parse : nat -> M A) (fuel : nat) : M A :=
  main_prologue fuel ;;
  parse fuel.

(** [n] calls of [gettok] in a row, and the tokens they return. *)
Fixpoint gettok_times (n : nat) (fuel : nat) : M (list Z) :=
  match n with
  | O => ret []
  | S n' =>
      tok <- gettok fuel ;;
      toks <- gettok_times n' fuel ;;
      ret (tok :: toks)
  end.

(** [x] is a positive normal binary64 number [mx * 2^ex] (53-bit mantissa,
    negative exponent) at most half a unit in the last place away from
    [m / 10^k]. *)
Definition nearest_to_decimal (x : number) (m : N) (k : nat) : Prop :=
  match x with
  | S754_finite false mx ex =>
      2 ^ 52 <= Z.pos mx < 2 ^ 53 /\ ex < 0 /\
      2 * Z.abs (Z.pos mx * 10 ^ Z.of_nat k - Z.of_N m * 2 ^ (- ex))
        <= 10 ^ Z.of_nat k
  | _ => False
  end.

(** A character code that continues a number: [isdigit(c) || c === '.']. *)
Definition digit_or_dot (c : Z) : bool :=
  (isdigit c || (c =? toCharCode (chr ".")))%bool.

(** The lookahead left when the characters [rest] follow the scanned text:
    the first of them, or [EOF]. *)
Definition lookahead_of (rest : list jschar) : Z :=
  match rest with
  | c :: _ => toCharCode c
  | [] => EOF
  end.

(** A character of a comment's body: neither newline nor carriage return. *)
Definition not_line_end (c : jschar) : Prop := c <> 10%N /\ c <> 13%N.

(** A character of a number's text: a decimal digit or a dot. *)
Definition text_char (c : jschar) : bool :=
  (is_decimal_digit c || N.eqb c (chr "."))%bool.

(** As [at_top_level], with [BinopPrecedence.set(op, prec)] added to the
    statements that install the operators. *)
Definition at_top_level_with {A} (op prec : Z) (parse : nat -> M A) (fuel : nat) : M A :=
  main_install_binops ;;
  write (fun st => set_BinopPrecedence (<[op := prec]> (BinopPrecedence st)) st) ;;
  getNextToken fuel ;;
  parse fuel.

(** ** Vocabulary of the further properties *)

(** If [m] started in [st] returns, its result and final state satisfy [Q]
    (nothing is said of a run that is out of fuel). *)
Definition partially {A} (m : M A) (st : state) (Q : A -> state -> Prop) : Prop :=
  match m st with
  | Some (a, st') => Q a st'
  | None => True
  end.

(** The lookahead is [EOF] or a character code, and it is [EOF] only when
    the stream is exhausted. *)
Definition lookahead_ok (st : state) : Prop :=
  -1 <= LastChar st /\ (LastChar st = EOF -> stream st = []).

(** What the lexer may do to the state: it reads a prefix of the stream and
    updates its own variables; the parser's variables and the console are
    not touched. *)
Definition lexer_frame (st st' : state) : Prop :=
  CurTok st' = CurTok st /\
  BinopPrecedence st' = BinopPrecedence st /\
  console st' = console st /\
  (exists read, stream st = read ++ stream st') /\
  (lookahead_ok st -> lookahead_ok st').

(** [/[a-zA-Z]/] and [/[a-zA-Z0-9]/] on a code unit. *)
Definition alpha_char (u : jschar) : bool :=
  (in_range "a" "z" u || in_range "A" "Z" u)%bool.
Definition alnum_char (u : jschar) : bool :=
  (in_range "a" "z" u || in_range "A" "Z" u || in_range "0" "9" u)%bool.

(** A letter followed by letters and digits. *)
Definition word (s : jsstring) : Prop :=
  exists c rest, s = c :: rest /\ alpha_char c = true /\
                 Forall (fun u => alnum_char u = true) rest.

(** A name the lexer hands over with [tok_identifier]: a word that is not
    a keyword. *)
Definition identifier (s : jsstring) : Prop :=
  word s /\ s <> js "def" /\ s <> js "extern".

(** A value the lexer hands over with [tok_number]: what [parseFloat] makes
    of a non-empty text of digits and dots. *)
Definition number_literal (v : number) : Prop :=
  exists text, text <> [] /\ Forall (fun u => text_char u = true) text /\
               v = parseFloat text.

(** What a token returned by [gettok] can be, with the variable it comes
    with. *)
Definition token_ok (tok : Z) (st' : state) : Prop :=
  (tok = tok_eof /\ LastChar st' = EOF) \/
  (tok = tok_def /\ IdentifierStr st' = js "def") \/
  (tok = tok_extern /\ IdentifierStr st' = js "extern") \/
  (tok = tok_identifier /\ identifier (IdentifierStr st')) \/
  (tok = tok_number /\ number_literal (NumVal st')) \/
  (0 <= tok /\ isspace tok = false /\ isalpha tok = false /\
   digit_or_dot tok = false /\ tok <> toCharCode (chr "#")).

(** The messages of the six [LogError]/[LogErrorP] calls. *)
Definition syntax_errors : list string :=
  ["unknown token when expecting an expression";
   "expected ')'";
   "Expected ')' or ',' in argument list";
   "Expected function name in prototype";
   "Expected '(' in prototype";
   "Expected ')' in prototype"]%string.

(** From [st] to [st'] a prefix of the stream was read. *)
Definition reads (st st' : state) : Prop :=
  exists read, stream st = read ++ stream st'.

(** A step that writes nothing to the console and leaves the precedence
    table alone. *)
Definition quiet (st st' : state) : Prop :=
  BinopPrecedence st' = BinopPrecedence st /\ reads st st' /\
  console st' = console st.

(** A step that writes exactly one line, a syntax error. *)
Definition failed (st st' : state) : Prop :=
  BinopPrecedence st' = BinopPrecedence st /\ reads st st' /\
  exists msg, In msg syntax_errors /\
              console st' = console st ++ [("LogError: " ++ msg)%string].

(** The console after a parse function: untouched with a result, one syntax
    error with [null]. *)
Definition logged {A} (st : state) (r : option A) (st' : state) : Prop :=
  match r with
  | Some _ => quiet st st'
  | None => failed st st'
  end.

(** A line of the console: a success report or a syntax error. *)
Definition diagnostic (line : string) : Prop :=
  In line ["Parsed a function definition."; "Parsed an extern";
           "Parsed a top-level expr"]%string \/
  exists msg, In msg syntax_errors /\ line = ("LogError: " ++ msg)%string.

(** A handler's step: exactly one line is written, the report [success] or
    a syntax error. *)
Definition reported (success : string) (st st' : state) : Prop :=
  BinopPrecedence st' = BinopPrecedence st /\ reads st st' /\
  exists line, console st' = console st ++ [line] /\
               (line = success \/
                exists msg, In msg syntax_errors /\
                            line = ("LogError: " ++ msg)%string).

(** A well-formed expression: numbers and names are those of the lexer,
    and every operator has a positive precedence in [table]. *)
Fixpoint ast_ok (table : gmap Z Z) (e : ExprAST) : Prop :=
  match e with
  | NumberExprAST v => number_literal v
  | VariableExprAST name => identifier name
  | BinaryExprAST op l r =>
      (exists p, table !! op = Some p /\ 0 < p) /\
      ast_ok table l /\ ast_ok table r
  | CallExprAST callee args =>
      identifier callee /\
      fold_right (fun a acc => ast_ok table a /\ acc) True args
  end.

Definition proto_ok (p : PrototypeAST) : Prop :=
  match p with
  | MkPrototypeAST name args => identifier name /\ Forall identifier args
  end.

(** The state between two steps of the parser: the table is [table], the
    lookahead is as it should be and the current token is one [gettok]
    returned, its variable still in place. *)
Definition parser_inv (table : gmap Z Z) (st : state) : Prop :=
  BinopPrecedence st = table /\ lookahead_ok st /\ token_ok (CurTok st) st.

Definition function_ok (table : gmap Z Z) (F : FunctionAST) : Prop :=
  match F with
  | MkFunctionAST Proto Body => proto_ok Proto /\ ast_ok table Body
  end.

(** The lines the console gained from [st] to [st'] are all diagnostics. *)
Definition run_log (st st' : state) : Prop :=
  BinopPrecedence st' = BinopPrecedence st /\ reads st st' /\
  exists lines, console st' = console st ++ lines /\ Forall diagnostic lines.

(** [n] calls of [getchar] in a row, and the codes they return. *)
Fixpoint getchar_times (n : nat) : M (list Z) :=
  match n with
  | O => ret []
  | S n' =>
      c <- getchar ;;
      cs <- getchar_times n' ;;
      ret (c :: cs)
  end.

(** The token of a scanned word: a keyword or [tok_identifier]. *)
Definition word_token (text : jsstring) : Z :=
  if jsstring_eqb text (js "def") then tok_def
  else if jsstring_eqb text (js "extern") then tok_extern
  else tok_identifier.

(** A state between two steps of the parser, for the examples: the current
    token is the identifier [x], the lookahead is ['+'] and [y] is left in
    the stream. *)
Definition example_state : state :=
  {| stream := js "y";
     LastChar := toCharCode (chr "+");
     IdentifierStr := js "x";
     NumVal := NaN;
     CurTok := tok_identifier;
     BinopPrecedence := standard_binops;
     console := [] |}.

(** The result of a parse function, if any, satisfies [ok], and the state
    is again one between two steps. *)
Definition sound {A} (table : gmap Z Z) (ok : A -> Prop)
  (r : option A) (st' : state) : Prop :=
  parser_inv table st' /\ forall a, r = Some a -> ok a.

(** A character that is a token by itself: no space, letter, digit, dot or
    ['#'], and not [EOF]. *)
Definition punctuation (c : Z) : Prop :=
  isspace c = false /\ isalpha c = false /\ digit_or_dot c = false /\
  c <> toCharCode (chr "#") /\ c <> EOF.

(** The text [op 1 op 1 ... op 1] of [n] operators, each followed by the
    operand [1]. *)
Fixpoint chain_text (op : jschar) (n : nat) : jsstring :=
  match n with
  | O => []
  | S n' => op :: chr "1" :: chain_text op n'
  end.

(** The tree of [n] applications of [op] to the right operand [1], grouped
    to the left around [lhs]. *)
Fixpoint chain_ast (op : Z) (n : nat) (lhs : ExprAST) : ExprAST :=
  match n with
  | O => lhs
  | S n' =>
      chain_ast op n' (BinaryExprAST op lhs (NumberExprAST (round_decimal 1 0)))
  end.

(** The state of the parser when an operand [1] has been parsed and [k]
    operators are still to come: the current token is the next operator, the
    lookahead is its operand ([tok_eof] and [EOF] when [k] is 0). *)
Definition chain_state (op : jschar) (k : nat) (id : jsstring)
  (con : list string) : state :=
  match k with
  | O =>
      {| stream := []; LastChar := EOF; IdentifierStr := id;
         NumVal := round_decimal 1 0; CurTok := tok_eof;
         BinopPrecedence := standard_binops; console := con |}
  | S k' =>
      {| stream := chain_text op k'; LastChar := toCharCode (chr "1");
         IdentifierStr := id; NumVal := round_decimal 1 0;
         CurTok := toCharCode op;
         BinopPrecedence := standard_binops; console := con |}
  end.

(** A character of a program without constructs: white space or [';']. *)
Definition blank (c : jschar) : Prop :=
  isspace (toCharCode c) = true \/ c = chr ";".

(** The lexer's state on such a program. *)
Definition blank_state (st : state) : Prop :=
  Forall blank (stream st) /\
  (isspace (LastChar st) = true \/ LastChar st = toCharCode (chr ";") \/
   LastChar st = EOF).

(** [st] with the error of [ParsePrimary]'s default case logged. *)
Definition unknown_token_logged (st : state) : state :=
  set_console
    (console st ++ ["LogError: unknown token when expecting an expression"%string])
    st.

(** The state of the parser when the current token is [tok] and the text
    [rem] is still to be lexed: its first character is the lookahead, or
    [EOF] when nothing is left.  The table is the one [main] installs. *)
Definition parser_state (rem : list jschar) (tok : Z) (id : jsstring)
  (nv : number) (con : list string) : state :=
  {| stream := tl rem; LastChar := lookahead_of rem; IdentifierStr := id;
     NumVal := nv; CurTok := tok; BinopPrecedence := standard_binops;
     console := con |}.

(** The operand [1] inside [n] pairs of parentheses. *)
Definition nested_text (n : nat) : jsstring :=
  repeat (chr "(") n ++ js "1" ++ repeat (chr ")") n.

(** The token that starts a text of closing parentheses. *)
Definition closing_token (m : nat) : Z :=
  match m with
  | O => tok_eof
  | S _ => toCharCode (chr ")")
  end.

(** The state when the first token of [nested_text n] followed by [m] more
    closing parentheses has been lexed. *)
Definition nested_state (n m : nat) (id : jsstring) (nv : number)
  (con : list string) : state :=
  match n with
  | O => parser_state (repeat (chr ")") m) tok_number id (round_decimal 1 0) con
  | S n' =>
      parser_state (repeat (chr "(") n' ++ js "1" ++ repeat (chr ")") (S n' + m))
                   (toCharCode (chr "(")) id nv con
  end.

(** The parameters after the first, each behind one space. *)
Definition more_params (args : list jsstring) : jsstring :=
  concat (map (fun a => chr " " :: a) args).

(** The text [name(a1 a2 ... ak)]: the parameters are separated by spaces,
    as [ParsePrototype] reads them. *)
Definition prototype_text (name : jsstring) (args : list jsstring) : jsstring :=
  name ++ js "(" ++ join (js " ") args ++ js ")".

Arguments chr : simpl never.
Arguments toCharCode : simpl never.
Arguments fromCharCode : simpl never.
Arguments parseFloat : simpl never.
Arguments jsstring_eqb : simpl never.

(** * Properties *)

(** ** More fuel never changes a result *)

Section FuelMonotone.

Lemma le_M_refl {A} (m : M A) : le_M m m.
Proof. intros st r H; exact H. Qed.

Lemma le_M_bot {A} (m : M A) : le_M out_of_fuel m.
Proof. intros st r H; discriminate H. Qed.

Lemma le_M_bind {A B} (m1 m2 : M A) (k1 k2 : A -> M B) :
  le_M m1 m2 -> (forall a, le_M (k1 a) (k2 a)) ->
  le_M (bind m1 k1) (bind m2 k2).
Proof.
  intros Hm Hk st r. unfold bind.
  destruct (m1 st) as [[a st1]|] eqn:E; [|discriminate].
  rewrite (Hm _ _ E). apply Hk.
Qed.

End FuelMonotone.

Ltac mono_step :=
  lazymatch goal with
  | |- le_M out_of_fuel _ => apply le_M_bot
  | |- le_M (bind _ _) (bind _ _) => apply le_M_bind; [ | intros ? ]
  | |- le_M (match ?x with _ => _ end) (match ?x with _ => _ end) => destruct x
  | |- le_M _ _ => first [ apply le_M_refl | solve [ auto ] ]
  end.

(** Opens a monotonicity proof for a loop or function defined by recursion
    on its fuel: the case of no fuel is closed, the other is unfolded once. *)
Ltac mono_open f IH :=
  induction f as [|f IH]; intros f' Hle; [intros; apply le_M_bot|];
  destruct f' as [|f']; [lia|];
  assert (Hle' : (f <= f')%nat) by lia.

Lemma gettok_skip_whitespace_mono f : forall f', (f <= f')%nat ->
  le_M (gettok_skip_whitespace f) (gettok_skip_whitespace f').
Proof.
  mono_open f IH. specialize (IH f' Hle'). simpl. repeat mono_step.
Qed.

Lemma gettok_identifier_loop_mono f : forall f', (f <= f')%nat ->
  le_M (gettok_identifier_loop f) (gettok_identifier_loop f').
Proof.
  mono_open f IH. specialize (IH f' Hle'). simpl. repeat mono_step.
Qed.

Lemma gettok_number_loop_mono f : forall f', (f <= f')%nat ->
  forall s, le_M (gettok_number_loop f s) (gettok_number_loop f' s).
Proof.
  mono_open f IH. specialize (IH f' Hle'). intros s. simpl. repeat mono_step.
Qed.

Lemma gettok_comment_loop_mono f : forall f', (f <= f')%nat ->
  le_M (gettok_comment_loop f) (gettok_comment_loop f').
Proof.
  mono_open f IH. specialize (IH f' Hle'). simpl. repeat mono_step.
Qed.

Lemma gettok_mono f : forall f', (f <= f')%nat ->
  le_M (gettok f) (gettok f').
Proof.
  mono_open f IH. specialize (IH f' Hle').
  pose proof (gettok_skip_whitespace_mono f f' Hle').
  pose proof (gettok_identifier_loop_mono f f' Hle').
  pose proof (gettok_number_loop_mono f f' Hle').
  pose proof (gettok_comment_loop_mono f f' Hle').
  simpl. repeat mono_step.
Qed.

Lemma getNextToken_mono f f' : (f <= f')%nat ->
  le_M (getNextToken f) (getNextToken f').
Proof.
  intros Hle. pose proof (gettok_mono f f' Hle).
  unfold getNextToken. repeat mono_step.
Qed.

Lemma ParseNumberExpr_mono f f' : (f <= f')%nat ->
  le_M (ParseNumberExpr f) (ParseNumberExpr f').
Proof.
  intros Hle. pose proof (getNextToken_mono f f' Hle).
  unfold ParseNumberExpr. repeat mono_step.
Qed.

Lemma parser_mono f : forall f', (f <= f')%nat ->
  le_M (ParseParenExpr f) (ParseParenExpr f') /\
  (forall a, le_M (ParseIdentifierExpr_args f a) (ParseIdentifierExpr_args f' a)) /\
  le_M (ParseIdentifierExpr f) (ParseIdentifierExpr f') /\
  le_M (ParsePrimary f) (ParsePrimary f') /\
  (forall p l, le_M (ParseBinOpRHS f p l) (ParseBinOpRHS f' p l)) /\
  le_M (ParseExpression f) (ParseExpression f').
Proof.
  induction f as [|f IH]; intros f' Hle.
  - repeat split; intros; apply le_M_bot.
  - destruct f' as [|f']; [lia|].
    assert (Hle' : (f <= f')%nat) by lia.
    destruct (IH f' Hle') as (IH1 & IH2 & IH3 & IH4 & IH5 & IH6).
    pose proof (getNextToken_mono f f' Hle').
    pose proof (ParseNumberExpr_mono f f' Hle').
    repeat split; intros; simpl; repeat mono_step.
Qed.

Lemma ParseExpression_mono f f' : (f <= f')%nat ->
  le_M (ParseExpression f) (ParseExpression f').
Proof. intros Hle. apply (parser_mono f f' Hle). Qed.

Lemma ParsePrototype_args_mono f : forall f', (f <= f')%nat ->
  forall a, le_M (ParsePrototype_args f a) (ParsePrototype_args f' a).
Proof.
  mono_open f IH. specialize (IH f' Hle').
  pose proof (getNextToken_mono f f' Hle').
  intros a. simpl. repeat mono_step.
Qed.

Lemma ParsePrototype_mono f f' : (f <= f')%nat ->
  le_M (ParsePrototype f) (ParsePrototype f').
Proof.
  intros Hle. pose proof (getNextToken_mono f f' Hle).
  pose proof (ParsePrototype_args_mono f f' Hle).
  unfold ParsePrototype. repeat mono_step.
Qed.

Lemma ParseDefinition_mono f f' : (f <= f')%nat ->
  le_M (ParseDefinition f) (ParseDefinition f').
Proof.
  intros Hle. pose proof (getNextToken_mono f f' Hle).
  pose proof (ParsePrototype_mono f f' Hle).
  pose proof (ParseExpression_mono f f' Hle).
  unfold ParseDefinition. repeat mono_step.
Qed.

Lemma ParseTopLevelExpr_mono f f' : (f <= f')%nat ->
  le_M (ParseTopLevelExpr f) (ParseTopLevelExpr f').
Proof.
  intros Hle. pose proof (ParseExpression_mono f f' Hle).
  unfold ParseTopLevelExpr. repeat mono_step.
Qed.

Lemma ParseExtern_mono f f' : (f <= f')%nat ->
  le_M (ParseExtern f) (ParseExtern f').
Proof.
  intros Hle. pose proof (getNextToken_mono f f' Hle).
  pose proof (ParsePrototype_mono f f' Hle).
  unfold ParseExtern. repeat mono_step.
Qed.

Lemma HandleDefinition_mono f f' : (f <= f')%nat ->
  le_M (HandleDefinition f) (HandleDefinition f').
Proof.
  intros Hle. pose proof (getNextToken_mono f f' Hle).
  pose proof (ParseDefinition_mono f f' Hle).
  unfold HandleDefinition. repeat mono_step.
Qed.

Lemma HandleExtern_mono f f' : (f <= f')%nat ->
  le_M (HandleExtern f) (HandleExtern f').
Proof.
  intros Hle. pose proof (getNextToken_mono f f' Hle).
  pose proof (ParseExtern_mono f f' Hle).
  unfold HandleExtern. repeat mono_step.
Qed.

Lemma HandleTopLevelExpression_mono f f' : (f <= f')%nat ->
  le_M (HandleTopLevelExpression f) (HandleTopLevelExpression f').
Proof.
  intros Hle. pose proof (getNextToken_mono f f' Hle).
  pose proof (ParseTopLevelExpr_mono f f' Hle).
  unfold HandleTopLevelExpression. repeat mono_step.
Qed.

Lemma MainLoop_mono f : forall f', (f <= f')%nat ->
  le_M (MainLoop f) (MainLoop f').
Proof.
  mono_open f IH. specialize (IH f' Hle').
  pose proof (getNextToken_mono f f' Hle').
  pose proof (HandleDefinition_mono f f' Hle').
  pose proof (HandleExtern_mono f f' Hle').
  pose proof (HandleTopLevelExpression_mono f f' Hle').
  simpl. repeat mono_step.
Qed.

Lemma main_prologue_mono f f' : (f <= f')%nat ->
  le_M (main_prologue f) (main_prologue f').
Proof.
  intros Hle. pose proof (getNextToken_mono f f' Hle).
  unfold main_prologue. repeat mono_step.
Qed.

Lemma main_mono f f' : (f <= f')%nat -> le_M (main f) (main f').
Proof.
  intros Hle. pose proof (main_prologue_mono f f' Hle).
  pose proof (MainLoop_mono f f' Hle).
  unfold main. repeat mono_step.
Qed.

(** ** Every call returns, given fuel in proportion to the input left *)

Section Returns.
Context {A B : Type}.

Lemma returns_ret (a : A) st (Q : A -> state -> Prop) :
  Q a st -> returns (ret a) st Q.
Proof. intros H. exists a, st. split; [reflexivity | exact H]. Qed.

Lemma returns_read (proj : state -> A) st (Q : A -> state -> Prop) :
  Q (proj st) st -> returns (read proj) st Q.
Proof. intros H. exists (proj st), st. split; [reflexivity | exact H]. Qed.

Lemma returns_bind (m : M A) (k : A -> M B) st (Q : B -> state -> Prop) :
  returns m st (fun a st1 => returns (k a) st1 Q) -> returns (bind m k) st Q.
Proof.
  intros (a & st1 & Hm & b & st2 & Hk & HQ).
  exists b, st2. unfold bind. rewrite Hm. split; assumption.
Qed.

Lemma returns_conseq (m : M A) st (P Q : A -> state -> Prop) :
  returns m st P -> (forall a st', P a st' -> Q a st') -> returns m st Q.
Proof. intros (a & st1 & Hm & HP) H. exists a, st1. split; auto. Qed.
End Returns.

Lemma returns_write upd st (Q : unit -> state -> Prop) :
  Q tt (upd st) -> returns (write upd) st Q.
Proof. intros H. exists tt, (upd st). split; [reflexivity | exact H]. Qed.

(** One step of a proof that a computation returns: the leading primitive
    is executed. *)
Ltac ret_step :=
  lazymatch goal with
  | |- returns (ret _) _ _ => apply returns_ret
  | |- returns (read _) _ _ => apply returns_read
  | |- returns (write _) _ _ => apply returns_write
  | |- returns (bind (read _) _) _ _ => apply returns_bind, returns_read
  | |- returns (bind (write _) _) _ _ => apply returns_bind, returns_write
  | |- returns (bind (ret _) _) _ _ => apply returns_bind, returns_ret
  end.

(** The leading call is replaced by its specification [H]. *)
Ltac ret_call H :=
  apply returns_bind; eapply returns_conseq; [ eapply H | cbv beta ].

Lemma getchar_returns st :
  returns getchar st (fun c st1 =>
    (length (stream st1) + (if Z.eqb c EOF then 0 else 1))%nat = length (stream st)
    /\ CurTok st1 = CurTok st).
Proof.
  unfold returns, getchar. destruct st as [s lc id nv ct bp co]; simpl.
  destruct s as [|x s]; simpl.
  - eexists _, _. split; [reflexivity|]. simpl. auto.
  - eexists _, _. split; [reflexivity|]. simpl. split; [|reflexivity].
    unfold toCharCode, EOF. destruct (Z.eqb_spec (Z.of_N x) (-1)); lia.
Qed.

Lemma chars_left_set_LastChar c st :
  chars_left (set_LastChar c st) = (length (stream st) + (if Z.eqb c EOF then 0 else 1))%nat.
Proof. reflexivity. Qed.

Lemma isspace_EOF c : isspace c = true -> (c =? EOF) = false.
Proof. destruct (Z.eqb_spec c EOF) as [->|]; [discriminate | reflexivity]. Qed.
Lemma isalpha_EOF c : isalpha c = true -> (c =? EOF) = false.
Proof. destruct (Z.eqb_spec c EOF) as [->|]; [discriminate | reflexivity]. Qed.

(** Reading the next character into [LastChar]. *)
Lemma advance_returns {B} (k : Z -> M B) st Q :
  (forall c st1,
     chars_left (set_LastChar c st1) = length (stream st) ->
     returns (k c) (set_LastChar c st1) Q) ->
  returns (c <- getchar ;; write (set_LastChar c) ;; k c) st Q.
Proof.
  intros H. ret_call getchar_returns. intros c st1 [H1 _]. ret_step.
  apply H. rewrite chars_left_set_LastChar. exact H1.
Qed.

Lemma gettok_skip_whitespace_returns fuel : forall st,
  (chars_left st + 1 <= fuel)%nat ->
  returns (gettok_skip_whitespace fuel) st
          (fun _ st' => (chars_left st' <= chars_left st)%nat).
Proof.
  induction fuel as [|f IH]; intros st Hf; [lia|].
  simpl. ret_step. destruct (isspace (LastChar st)) eqn:E.
  - apply isspace_EOF in E.
    assert (chars_left st = S (length (stream st))) as Hc
      by (unfold chars_left; rewrite E; lia).
    apply advance_returns. intros c st1 H1.
    eapply returns_conseq; [apply IH; lia|]. cbv beta. intros _ st' H. lia.
  - ret_step. lia.
Qed.

Lemma isalnum_EOF c : isalnum c = true -> (c =? EOF) = false.
Proof. destruct (Z.eqb_spec c EOF) as [->|]; [discriminate | reflexivity]. Qed.
Lemma digit_or_dot_EOF c :
  (isdigit c || (c =? toCharCode (chr ".")))%bool = true -> (c =? EOF) = false.
Proof. destruct (Z.eqb_spec c EOF) as [->|]; [discriminate | reflexivity]. Qed.

Lemma chars_left_not_EOF st :
  (LastChar st =? EOF) = false -> chars_left st = S (length (stream st)).
Proof. intros E. unfold chars_left. rewrite E. lia. Qed.

Lemma chars_left_ge st : (length (stream st) <= chars_left st)%nat.
Proof. unfold chars_left. lia. Qed.

Lemma gettok_identifier_loop_returns fuel : forall st,
  (length (stream st) + 1 <= fuel)%nat ->
  returns (gettok_identifier_loop fuel) st
          (fun _ st' => (chars_left st' <= length (stream st))%nat).
Proof.
  induction fuel as [|f IH]; intros st Hf; [lia|].
  simpl. apply advance_returns. intros c st1 H1.
  destruct (isalnum c) eqn:E.
  - apply isalnum_EOF in E.
    rewrite chars_left_not_EOF in H1 by exact E. simpl in H1.
    do 2 ret_step.
    eapply returns_conseq; [apply IH; simpl; lia|]. cbv beta. simpl.
    intros _ st' H. lia.
  - ret_step. lia.
Qed.

Lemma gettok_number_loop_returns fuel : forall st NumStr,
  (length (stream st) + 1 <= fuel)%nat ->
  returns (gettok_number_loop fuel NumStr) st
          (fun _ st' => (chars_left st' <= length (stream st))%nat).
Proof.
  induction fuel as [|f IH]; intros st NumStr Hf; [lia|].
  simpl. ret_step. apply advance_returns. intros c st1 H1.
  destruct (isdigit c || (c =? toCharCode (chr ".")))%bool eqn:E.
  - apply digit_or_dot_EOF in E.
    rewrite chars_left_not_EOF in H1 by exact E. simpl in H1.
    eapply returns_conseq; [apply IH; simpl; lia|]. cbv beta. simpl.
    intros _ st' H. lia.
  - ret_step. lia.
Qed.

Lemma gettok_comment_loop_returns fuel : forall st,
  (length (stream st) + 1 <= fuel)%nat ->
  returns (gettok_comment_loop fuel) st
          (fun _ st' => (chars_left st' <= length (stream st))%nat).
Proof.
  induction fuel as [|f IH]; intros st Hf; [lia|].
  simpl. apply advance_returns. intros c st1 H1.
  destruct (c =? EOF) eqn:E; simpl.
  - ret_step. lia.
  - rewrite chars_left_not_EOF in H1 by exact E. simpl in H1.
    destruct (negb (c =? 10) && negb (c =? 13))%bool.
    + eapply returns_conseq; [apply IH; simpl; lia|]. cbv beta. simpl.
      intros _ st' H. lia.
    + ret_step. rewrite chars_left_not_EOF by exact E. simpl. lia.
Qed.

Lemma gettok_tail_returns st : returns gettok_tail st (lexed st).
Proof.
  unfold gettok_tail. ret_step.
  destruct (LastChar st =? EOF) eqn:E.
  - ret_step. apply Z.eqb_eq in E.
    repeat split; [lia | intros H; exfalso; apply H; reflexivity | intros _; exact E].
  - apply advance_returns. intros c st1 H1. ret_step.
    unfold lexed. rewrite (chars_left_not_EOF st E).
    repeat split; [lia | intros _; lia |].
    intros Heq. rewrite Heq in E. discriminate E.
Qed.

Lemma lexed_trans st st1 tok st' :
  (chars_left st1 <= chars_left st)%nat -> lexed st1 tok st' -> lexed st tok st'.
Proof.
  intros H (H1 & H2 & H3).
  repeat split; [lia | intros Ht; specialize (H2 Ht); lia | exact H3].
Qed.

Lemma lexed_lt st tok st' :
  tok <> tok_eof -> (chars_left st' < chars_left st)%nat -> lexed st tok st'.
Proof.
  intros Hne H. repeat split; [lia | intros _; exact H | intros E; contradiction].
Qed.

Lemma gettok_returns fuel : forall st,
  (chars_left st + 2 <= fuel)%nat ->
  returns (gettok fuel) st (lexed st).
Proof.
  induction fuel as [|f IH]; intros st Hf; [lia|].
  simpl. ret_call gettok_skip_whitespace_returns; [lia|].
  intros _ st1 H1. ret_step.
  pose proof (chars_left_ge st1) as Hge.
  destruct (isalpha (LastChar st1)) eqn:Ealpha.
  { apply isalpha_EOF, chars_left_not_EOF in Ealpha.
    ret_step. ret_call gettok_identifier_loop_returns; [simpl; lia|].
    simpl. intros _ st2 H2. ret_step.
    assert (forall tok, tok <> tok_eof -> lexed st tok st2)
      by (intros; apply lexed_lt; [assumption | lia]).
    repeat match goal with |- context [if ?b then _ else _] => destruct b end;
      ret_step; auto; discriminate. }
  destruct (isdigit (LastChar st1) || (LastChar st1 =? toCharCode (chr ".")))%bool
    eqn:Enum.
  { apply digit_or_dot_EOF, chars_left_not_EOF in Enum.
    ret_call gettok_number_loop_returns; [lia|].
    intros NumStr st2 H2. do 2 ret_step. apply lexed_lt; [discriminate|]. simpl.
    change (chars_left (set_NumVal (parseFloat NumStr) st2)) with (chars_left st2).
    lia. }
  destruct (LastChar st1 =? toCharCode (chr "#")) eqn:Ehash.
  { assert ((LastChar st1 =? EOF) = false) as E1.
    { apply Z.eqb_eq in Ehash. rewrite Ehash. reflexivity. }
    apply chars_left_not_EOF in E1.
    ret_call gettok_comment_loop_returns; [lia|].
    intros _ st2 H2. ret_step.
    destruct (negb (LastChar st2 =? EOF)).
    - eapply returns_conseq; [apply IH; lia|]. cbv beta.
      intros tok st3 H3. eapply lexed_trans; [|exact H3]. lia.
    - eapply returns_conseq; [apply gettok_tail_returns|]. cbv beta.
      intros tok st3 H3. eapply lexed_trans; [|exact H3]. lia. }
  eapply returns_conseq; [apply gettok_tail_returns|]. cbv beta.
  intros tok st3 H3. eapply lexed_trans; [|exact H3]. lia.
Qed.

Lemma getNextToken_returns_sticky fuel st :
  (tokens_left st + 2 <= fuel)%nat ->
  returns (getNextToken fuel) st (fun tok st' =>
    eof_sticky st' /\ CurTok st' = tok /\ consumed st st' /\
    ((CurTok st =? tok_eof) = false -> (tokens_left st' < tokens_left st)%nat)).
Proof.
  intros Hf. unfold getNextToken.
  assert (chars_left st <= tokens_left st)%nat by (unfold tokens_left; lia).
  ret_call gettok_returns; [lia|]. intros tok st1 (H1 & H2 & H3).
  do 2 ret_step.
  assert (eof_sticky (set_CurTok tok st1)) as Hsticky by exact H3.
  split; [exact Hsticky|]. split; [reflexivity|].
  unfold consumed, tokens_left.
  change (chars_left (set_CurTok tok st1)) with (chars_left st1).
  change (CurTok (set_CurTok tok st1)) with tok.
  destruct (Z.eqb_spec tok tok_eof) as [->|Hne].
  - destruct (CurTok st =? tok_eof); repeat split; try lia; auto; discriminate.
  - specialize (H2 Hne).
    destruct (CurTok st =? tok_eof); repeat split; try lia; auto; discriminate.
Qed.

Lemma getNextToken_returns fuel st :
  (tokens_left st + 2 <= fuel)%nat ->
  returns (getNextToken fuel) st (fun tok st' =>
    CurTok st' = tok /\ consumed st st' /\
    ((CurTok st =? tok_eof) = false -> (tokens_left st' < tokens_left st)%nat)).
Proof.
  intros Hf. eapply returns_conseq; [apply getNextToken_returns_sticky, Hf|].
  cbv beta. intros tok st' (_ & H). exact H.
Qed.

Lemma consumed_refl st : consumed st st.
Proof. repeat split; auto. Qed.

Lemma tokens_left_set_console l st :
  tokens_left (set_console l st) = tokens_left st.
Proof. reflexivity. Qed.
Lemma chars_left_set_console l st :
  chars_left (set_console l st) = chars_left st.
Proof. reflexivity. Qed.

Lemma console_error_returns line st :
  returns (console_error line) st (fun _ st' => consumed st st').
Proof.
  unfold console_error. ret_step.
  repeat split; unfold tokens_left, chars_left; simpl; auto; lia.
Qed.

Lemma LogError_returns Str st :
  returns (LogError Str) st (fun r st' => r = None /\ consumed st st').
Proof.
  unfold LogError. ret_call console_error_returns. intros _ st1 H.
  ret_step. split; [reflexivity | exact H].
Qed.

Lemma LogErrorP_returns Str st :
  returns (LogErrorP Str) st (fun r st' => r = None /\ consumed st st').
Proof.
  unfold LogErrorP. ret_call LogError_returns. intros _ st1 [_ H].
  ret_step. split; [reflexivity | exact H].
Qed.

Lemma GetTokPrecedence_returns st (Q : Z -> state -> Prop) :
  (forall p, Q p st) -> returns GetTokPrecedence st Q.
Proof.
  intros H. unfold GetTokPrecedence. do 2 ret_step.
  destruct (BinopPrecedence st !! CurTok st) as [p|]; [|ret_step; apply H].
  destruct (p <=? 0); ret_step; apply H.
Qed.

(** Closes the arithmetic left by a step. *)
Ltac fin :=
  unfold parsed, consumed in *;
  repeat match goal with
         | H : _ /\ _ |- _ => destruct H
         | H : Some _ <> None -> _ |- _ => specialize (H ltac:(discriminate))
         end;
  subst;
  repeat split; try lia; try (intros; lia); try congruence; auto.

Lemma ParseNumberExpr_returns fuel st :
  (CurTok st =? tok_eof) = false ->
  (tokens_left st + 2 <= fuel)%nat ->
  returns (ParseNumberExpr fuel) st (parsed st).
Proof.
  intros Hcur Hf. unfold ParseNumberExpr. ret_step.
  ret_call getNextToken_returns; [lia|]. intros tok st1 (_ & H1 & H2).
  specialize (H2 Hcur). ret_step. fin.
Qed.

Lemma parser_returns fuel :
  (forall st, (CurTok st =? tok_eof) = false ->
     (5 * tokens_left st + 3 <= fuel)%nat ->
     returns (ParseParenExpr fuel) st (parsed st)) /\
  (forall st Args, (5 * tokens_left st + 6 <= fuel)%nat ->
     returns (ParseIdentifierExpr_args fuel Args) st (fun _ st' => consumed st st')) /\
  (forall st, (CurTok st =? tok_eof) = false ->
     (5 * tokens_left st + 3 <= fuel)%nat ->
     returns (ParseIdentifierExpr fuel) st (parsed st)) /\
  (forall st, (5 * tokens_left st + 4 <= fuel)%nat ->
     returns (ParsePrimary fuel) st (parsed st)) /\
  (forall st ExprPrec LHS, (5 * tokens_left st + 5 <= fuel)%nat ->
     returns (ParseBinOpRHS fuel ExprPrec LHS) st (fun _ st' => consumed st st')) /\
  (forall st, (5 * tokens_left st + 5 <= fuel)%nat ->
     returns (ParseExpression fuel) st (parsed st)).
Proof.
  induction fuel as [|f (IHparen & IHargs & IHident & IHprim & IHbin & IHexpr)].
  { repeat split; intros; lia. }
  repeat split.
  - (* ParseParenExpr *)
    intros st Hcur Hf. simpl.
    ret_call getNextToken_returns; [lia|]. intros tok st1 (_ & H1 & H2).
    specialize (H2 Hcur).
    ret_call IHexpr; [fin|]. intros [V|] st2 H3.
    + ret_step. destruct (negb _).
      * eapply returns_conseq; [apply LogError_returns|]. cbv beta.
        intros r st3 H4. fin.
      * ret_call getNextToken_returns; [fin|]. intros tok' st3 (_ & H4 & _).
        ret_step. fin.
    + ret_step. fin.
  - (* ParseIdentifierExpr_args *)
    intros st Args Hf. simpl.
    ret_call IHexpr; [lia|]. intros [Arg|] st1 H1; [|ret_step; fin].
    ret_step. destruct (CurTok st1 =? _); [ret_step; fin|].
    destruct (negb _).
    + ret_call LogError_returns. intros r st2 H2. ret_step. fin.
    + assert (tokens_left st1 < tokens_left st)%nat by (apply H1; discriminate).
      ret_call getNextToken_returns; [fin|]. intros tok st2 (_ & H2 & _).
      eapply returns_conseq; [apply IHargs; fin|]. cbv beta.
      intros r st3 H3. fin.
  - (* ParseIdentifierExpr *)
    intros st Hcur Hf. simpl. ret_step.
    ret_call getNextToken_returns; [lia|]. intros tok st1 (_ & H1 & H2).
    specialize (H2 Hcur). ret_step.
    destruct (negb _); [ret_step; fin|].
    ret_call getNextToken_returns; [fin|]. intros tok' st2 (_ & H3 & _).
    ret_step.
    assert (returns (if negb (CurTok st2 =? toCharCode (chr ")"))
                     then ParseIdentifierExpr_args f []
                     else ret (Some [])) st2 (fun _ st' => consumed st2 st')) as Hargs.
    { destruct (negb _); [apply IHargs; fin | ret_step; apply consumed_refl]. }
    apply returns_bind. eapply returns_conseq; [exact Hargs|]. cbv beta.
    intros [Args|] st3 H4; [|ret_step; fin].
    ret_call getNextToken_returns; [fin|]. intros tok'' st4 (_ & H5 & _).
    ret_step. fin.
  - (* ParsePrimary *)
    intros st Hf. simpl. ret_step.
    destruct (Z.eqb_spec (CurTok st) tok_identifier) as [E|_].
    { apply IHident; [rewrite E; reflexivity | lia]. }
    destruct (Z.eqb_spec (CurTok st) tok_number) as [E|_].
    { apply ParseNumberExpr_returns; [rewrite E; reflexivity | lia]. }
    destruct (Z.eqb_spec (CurTok st) (toCharCode (chr "("))) as [E|_].
    { apply IHparen; [rewrite E; reflexivity | lia]. }
    eapply returns_conseq; [apply LogError_returns|]. cbv beta.
    intros r st1 H1. fin.
  - (* ParseBinOpRHS *)
    intros st ExprPrec LHS Hf. simpl.
    apply returns_bind, GetTokPrecedence_returns. intros TokPrec.
    destruct (TokPrec <? ExprPrec); [ret_step; apply consumed_refl|].
    ret_step.
    ret_call getNextToken_returns; [lia|]. intros tok st1 (_ & H1 & _).
    ret_call IHprim; [fin|]. intros [RHS|] st2 H2; [|ret_step; fin].
    assert (tokens_left st2 < tokens_left st1)%nat by (apply H2; discriminate).
    apply returns_bind, GetTokPrecedence_returns. intros NextPrec.
    assert (returns (if TokPrec <? NextPrec
                     then ParseBinOpRHS f (TokPrec + 1) RHS
                     else ret (Some RHS)) st2 (fun _ st' => consumed st2 st')) as Hrhs.
    { destruct (TokPrec <? NextPrec); [apply IHbin; fin | ret_step; apply consumed_refl]. }
    apply returns_bind. eapply returns_conseq; [exact Hrhs|]. cbv beta.
    intros [RHS'|] st3 H3; [|ret_step; fin].
    eapply returns_conseq; [apply IHbin; fin|]. cbv beta.
    intros r st4 H4. fin.
  - (* ParseExpression *)
    intros st Hf. simpl.
    ret_call IHprim; [lia|]. intros [LHS|] st1 H1; [|ret_step; fin].
    assert (tokens_left st1 < tokens_left st)%nat by (apply H1; discriminate).
    eapply returns_conseq; [apply IHbin; fin|]. cbv beta.
    intros r st2 H2. fin.
Qed.

Lemma ParseExpression_returns fuel st :
  (5 * tokens_left st + 5 <= fuel)%nat ->
  returns (ParseExpression fuel) st (parsed st).
Proof. apply (parser_returns fuel). Qed.

Lemma ParsePrototype_args_returns fuel : forall st ArgsNames,
  (CurTok st =? tok_eof) = false ->
  (tokens_left st + 3 <= fuel)%nat ->
  returns (ParsePrototype_args fuel ArgsNames) st
          (fun _ st' => consumed st st' /\ (tokens_left st' < tokens_left st)%nat).
Proof.
  induction fuel as [|f IH]; intros st ArgsNames Hcur Hf; [lia|].
  simpl. ret_call getNextToken_returns; [lia|]. intros tok st1 (Htok & H1 & H2).
  specialize (H2 Hcur).
  destruct (Z.eqb_spec tok tok_identifier) as [E|_].
  - ret_step. eapply returns_conseq.
    + apply IH; [rewrite Htok, E; reflexivity | lia].
    + cbv beta. intros r st2 H3. fin.
  - ret_step. fin.
Qed.

Lemma ParsePrototype_returns fuel st :
  (tokens_left st + 3 <= fuel)%nat ->
  returns (ParsePrototype fuel) st (parsed st).
Proof.
  intros Hf. unfold ParsePrototype. ret_step.
  destruct (Z.eqb_spec (CurTok st) tok_identifier) as [E|_]; simpl.
  2:{ eapply returns_conseq; [apply LogErrorP_returns|]. cbv beta.
      intros r st1 H1. fin. }
  ret_step. ret_call getNextToken_returns; [lia|]. intros tok st1 (Htok & H1 & H2).
  assert (tokens_left st1 < tokens_left st)%nat
    by (apply H2; rewrite E; reflexivity).
  ret_step.
  destruct (Z.eqb_spec (CurTok st1) (toCharCode (chr "("))) as [E1|_]; simpl.
  2:{ eapply returns_conseq; [apply LogErrorP_returns|]. cbv beta.
      intros r st2 H3. fin. }
  ret_call ParsePrototype_args_returns; [rewrite E1; reflexivity | fin |].
  intros ArgsNames st2 [H3 _]. ret_step.
  destruct (negb _).
  { eapply returns_conseq; [apply LogErrorP_returns|]. cbv beta.
    intros r st3 H4. fin. }
  ret_call getNextToken_returns; [fin|]. intros tok' st3 (_ & H4 & _).
  ret_step. fin.
Qed.

Lemma ParseDefinition_returns fuel st :
  (CurTok st =? tok_eof) = false ->
  (5 * tokens_left st + 5 <= fuel)%nat ->
  returns (ParseDefinition fuel) st (fun _ st' => handled st st').
Proof.
  intros Hcur Hf. unfold ParseDefinition, handled.
  ret_call getNextToken_returns; [lia|]. intros tok st1 (_ & H1 & H2).
  specialize (H2 Hcur).
  ret_call ParsePrototype_returns; [fin|]. intros [Proto|] st2 H3; [|ret_step; fin].
  ret_call ParseExpression_returns; [fin|]. intros [E|] st3 H4; ret_step; fin.
Qed.

Lemma ParseExtern_returns fuel st :
  (CurTok st =? tok_eof) = false ->
  (5 * tokens_left st + 5 <= fuel)%nat ->
  returns (ParseExtern fuel) st (fun _ st' => handled st st').
Proof.
  intros Hcur Hf. unfold ParseExtern, handled.
  ret_call getNextToken_returns; [lia|]. intros tok st1 (_ & H1 & H2).
  specialize (H2 Hcur).
  eapply returns_conseq; [apply ParsePrototype_returns; fin|]. cbv beta.
  intros r st2 H3. fin.
Qed.

Lemma ParseTopLevelExpr_returns fuel st :
  (5 * tokens_left st + 5 <= fuel)%nat ->
  returns (ParseTopLevelExpr fuel) st (parsed st).
Proof.
  intros Hf. unfold ParseTopLevelExpr.
  ret_call ParseExpression_returns; [lia|]. intros [E|] st1 H1; ret_step; fin.
Qed.

Lemma HandleDefinition_returns fuel st :
  (CurTok st =? tok_eof) = false ->
  (5 * tokens_left st + 5 <= fuel)%nat ->
  returns (HandleDefinition fuel) st (fun _ st' => handled st st').
Proof.
  intros Hcur Hf. unfold HandleDefinition.
  ret_call ParseDefinition_returns; [exact Hcur | lia |].
  unfold handled. intros [F|] st1 H1.
  - eapply returns_conseq; [apply console_error_returns|]. cbv beta.
    intros _ st2 H2. fin.
  - ret_call getNextToken_returns; [fin|]. intros tok st2 (_ & H2 & _).
    ret_step. fin.
Qed.

Lemma HandleExtern_returns fuel st :
  (CurTok st =? tok_eof) = false ->
  (5 * tokens_left st + 5 <= fuel)%nat ->
  returns (HandleExtern fuel) st (fun _ st' => handled st st').
Proof.
  intros Hcur Hf. unfold HandleExtern.
  ret_call ParseExtern_returns; [exact Hcur | lia |].
  unfold handled. intros [F|] st1 H1.
  - eapply returns_conseq; [apply console_error_returns|]. cbv beta.
    intros _ st2 H2. fin.
  - ret_call getNextToken_returns; [fin|]. intros tok st2 (_ & H2 & _).
    ret_step. fin.
Qed.

Lemma HandleTopLevelExpression_returns fuel st :
  (CurTok st =? tok_eof) = false ->
  (5 * tokens_left st + 5 <= fuel)%nat ->
  returns (HandleTopLevelExpression fuel) st (fun _ st' => handled st st').
Proof.
  intros Hcur Hf. unfold HandleTopLevelExpression.
  ret_call ParseTopLevelExpr_returns; [lia|].
  unfold handled. intros [F|] st1 H1.
  - eapply returns_conseq; [apply console_error_returns|]. cbv beta.
    intros _ st2 H2. fin.
  - ret_call getNextToken_returns; [fin|]. intros tok st2 (_ & H2 & H3).
    ret_step.
    assert (tokens_left st2 < tokens_left st)%nat; [|fin].
    destruct (CurTok st1 =? tok_eof) eqn:E1.
    + destruct H1 as [(Hc & _ & _) _]. destruct H2 as (_ & Ht & _).
      unfold tokens_left in *. rewrite Hcur. rewrite E1 in Ht. lia.
    + specialize (H3 eq_refl). fin.
Qed.

Lemma MainLoop_returns fuel : forall st,
  eof_sticky st ->
  (5 * tokens_left st + 6 <= fuel)%nat ->
  returns (MainLoop fuel) st (fun _ st' =>
    CurTok st' = tok_eof /\ LastChar st' = EOF).
Proof.
  induction fuel as [|f IH]; intros st Hst Hf; [lia|].
  simpl. ret_step.
  destruct (Z.eqb_spec (CurTok st) tok_eof) as [E|E].
  { ret_step. split; [exact E | exact (Hst E)]. }
  apply Z.eqb_neq in E.
  assert (forall st1, handled st st1 ->
            returns (MainLoop f) st1 (fun _ st' =>
              CurTok st' = tok_eof /\ LastChar st' = EOF)) as Hnext.
  { intros st1 H1. unfold handled in H1. apply IH; fin. }
  destruct (CurTok st =? toCharCode (chr ";")).
  { ret_call getNextToken_returns; [lia|]. intros tok st1 (_ & H1 & H2).
    apply Hnext. split; [exact H1 | exact (H2 E)]. }
  destruct (CurTok st =? tok_def).
  { ret_call HandleDefinition_returns; [exact E | lia |]. intros _ st1 H1.
    apply Hnext, H1. }
  destruct (CurTok st =? tok_extern).
  { ret_call HandleExtern_returns; [exact E | lia |]. intros _ st1 H1.
    apply Hnext, H1. }
  ret_call HandleTopLevelExpression_returns; [exact E | lia |]. intros _ st1 H1.
  apply Hnext, H1.
Qed.

Lemma main_install_binops_eq st :
  main_install_binops st =
  Some (tt, set_BinopPrecedence
              (<[toCharCode (chr "*") := 40]>
                 (<[toCharCode (chr "-") := 30]>
                    (<[toCharCode (chr "+") := 20]>
                       (<[toCharCode (chr "<") := 10]> (BinopPrecedence st))))) st).
Proof. reflexivity. Qed.

Lemma main_install_binops_returns st :
  returns main_install_binops st (fun _ st' =>
    chars_left st' = chars_left st /\ tokens_left st' = tokens_left st).
Proof.
  eexists _, _. split; [apply main_install_binops_eq|]. split; reflexivity.
Qed.

Lemma main_prologue_returns fuel st :
  (tokens_left st + 2 <= fuel)%nat ->
  returns (main_prologue fuel) st (fun _ st' =>
    eof_sticky st' /\ (tokens_left st' <= tokens_left st)%nat).
Proof.
  intros Hf. unfold main_prologue.
  ret_call main_install_binops_returns. intros _ st1 [H0 H1].
  ret_call getNextToken_returns_sticky; [lia|].
  intros tok st2 (Hs & _ & (_ & H2 & _) & _).
  ret_step. split; [exact Hs | lia].
Qed.

Lemma main_returns fuel st :
  (5 * tokens_left st + 6 <= fuel)%nat ->
  returns (main fuel) st (fun status st' =>
    status = 0 /\ CurTok st' = tok_eof /\ LastChar st' = EOF).
Proof.
  intros Hf. unfold main.
  ret_call main_prologue_returns; [lia|]. intros _ st1 [Hs H1].
  ret_call MainLoop_returns; [exact Hs | lia |]. intros _ st2 H2.
  ret_step. split; [reflexivity | exact H2].
Qed.

Lemma tokens_left_loaded unset argv :
  (tokens_left (loaded unset argv) <= length (join (js " ") argv) + 2)%nat.
Proof.
  destruct unset as [[id0 num0] tok0]. unfold tokens_left, chars_left. simpl.
  destruct (tok0 =? tok_eof); lia.
Qed.

(** ** Runs on given inputs *)

Lemma at_top_level_mono {A} (parse : nat -> M A) :
  (forall f f', (f <= f')%nat -> le_M (parse f) (parse f')) ->
  forall f f', (f <= f')%nat -> le_M (at_top_level parse f) (at_top_level parse f').
Proof.
  intros Hparse f f' Hle. unfold at_top_level.
  apply le_M_bind; [apply main_prologue_mono, Hle | intros _; apply Hparse, Hle].
Qed.

Lemma gettok_times_mono n f f' : (f <= f')%nat ->
  le_M (gettok_times n f) (gettok_times n f').
Proof.
  intros Hle. pose proof (gettok_mono f f' Hle).
  induction n as [|n IH]; simpl; repeat mono_step.
Qed.

(** Settles [returns (m fuel) st Q] for a given input: [m] is run with the
    fuel [N], and the result holds with any larger fuel by [Hmono]. *)
Ltac by_running N Hf Hmono :=
  lazymatch goal with
  | |- returns (?m ?fuel) ?st _ =>
      let r := fresh "r" in
      let s := fresh "s" in
      let E := fresh "E" in
      let E' := fresh "E" in
      destruct (m N st) as [[r s]|] eqn:E;
      pose proof E as E'; vm_compute in E'; [|discriminate E'];
      injection E' as E' E''; subst r s;
      eexists _, _; split; [exact (Hmono N fuel Hf _ _ E)|]
  end.

Lemma standard_binops_lookup (tok p : Z) :
  standard_binops !! tok = Some p ->
  (tok = toCharCode (chr "<") /\ p = 10) \/
  (tok = toCharCode (chr "+") /\ p = 20) \/
  (tok = toCharCode (chr "-") /\ p = 30) \/
  (tok = toCharCode (chr "*") /\ p = 40).
Proof.
  unfold standard_binops. rewrite !lookup_insert_Some, lookup_empty.
  intuition (try discriminate; auto).
Qed.

Lemma main_install_binops_loaded unset argv :
  returns main_install_binops (loaded unset argv)
          (fun _ st' => BinopPrecedence st' = standard_binops).
Proof.
  destruct unset as [[id0 num0] tok0].
  eexists _, _. split; [apply main_install_binops_eq | reflexivity].
Qed.

Lemma getchar_cons c rest st :
  stream st = c :: rest -> getchar st = Some (toCharCode c, set_stream rest st).
Proof. intros H. unfold getchar. rewrite H. reflexivity. Qed.

Lemma getchar_nil st : stream st = [] -> getchar st = Some (EOF, st).
Proof. intros H. unfold getchar. rewrite H. reflexivity. Qed.

(** Reading the next character into [LastChar], when the characters left
    are known. *)
Lemma advance_to {B} (k : Z -> M B) rest st Q :
  stream st = rest ->
  returns (k (lookahead_of rest))
          (set_LastChar (lookahead_of rest) (set_stream (tl rest) st)) Q ->
  returns (c <- getchar ;; write (set_LastChar c) ;; k c) st Q.
Proof.
  intros Hs H. apply returns_bind. destruct rest as [|c rest].
  - exists EOF, st. split; [apply getchar_nil, Hs|]. ret_step.
    replace st with (set_stream [] st) at 1; [exact H|].
    destruct st; simpl in *; subst; reflexivity.
  - exists (toCharCode c), (set_stream rest st).
    split; [apply getchar_cons, Hs|]. ret_step. exact H.
Qed.

Lemma returns_eq {A} (m : M A) st a st' :
  returns m st (fun r s => r = a /\ s = st') <-> m st = Some (a, st').
Proof.
  split.
  - intros (r & s & H & -> & ->). exact H.
  - intros H. exists a, st'. auto.
Qed.

(** The number loop takes the whole run of digits and dots that follows the
    lookahead, and stops with the next character as lookahead. *)
Lemma gettok_number_loop_run (run : list jschar) :
  forall fuel st NumStr rest,
    stream st = run ++ rest ->
    Forall (fun c => digit_or_dot (toCharCode c) = true) run ->
    digit_or_dot (lookahead_of rest) = false ->
    (length run + 1 <= fuel)%nat ->
    gettok_number_loop fuel NumStr st =
    Some (NumStr ++ fromCharCode (LastChar st)
                 :: map (fun c => fromCharCode (toCharCode c)) run,
          set_LastChar (lookahead_of rest) (set_stream (tl rest) st)).
Proof.
  induction run as [|c run IH]; intros fuel st NumStr rest Hs Hrun Hrest Hf;
    (destruct fuel as [|f]; [simpl in Hf; lia|]); apply returns_eq; simpl;
    simpl in Hs.
  - ret_step. eapply advance_to; [exact Hs|].
    fold (digit_or_dot (lookahead_of rest)). rewrite Hrest.
    ret_step. split; reflexivity.
  - ret_step. eapply advance_to; [exact Hs|].
    inversion Hrun as [|? ? Hc Hrun']; subst.
    change (lookahead_of (c :: run ++ rest)) with (toCharCode c).
    fold (digit_or_dot (toCharCode c)). rewrite Hc.
    apply returns_eq. rewrite (IH f _ _ rest); [| reflexivity | assumption.. | simpl in Hf; lia].
    rewrite <- app_assoc. reflexivity.
Qed.

(** The comment loop discards everything up to the first newline or
    carriage return, which becomes the lookahead. *)
Lemma gettok_comment_loop_line (body : list jschar) :
  forall fuel st nl rest,
    stream st = body ++ nl :: rest ->
    Forall not_line_end body ->
    nl = 10%N \/ nl = 13%N ->
    (length body + 1 <= fuel)%nat ->
    gettok_comment_loop fuel st =
    Some (tt, set_LastChar (toCharCode nl) (set_stream rest st)).
Proof.
  induction body as [|c body IH]; intros fuel st nl rest Hs Hbody Hnl Hf;
    (destruct fuel as [|f]; [simpl in Hf; lia|]); apply returns_eq; simpl;
    simpl in Hs.
  - eapply advance_to; [exact Hs|]. simpl.
    assert ((negb (toCharCode nl =? EOF) && negb (toCharCode nl =? 10)
             && negb (toCharCode nl =? 13))%bool = false) as ->
      by (destruct Hnl; subst nl; reflexivity).
    ret_step. split; reflexivity.
  - eapply advance_to; [exact Hs|].
    inversion Hbody as [|? ? [Hc1 Hc2] Hbody']; subst.
    change (lookahead_of (c :: body ++ nl :: rest)) with (toCharCode c).
    assert ((negb (toCharCode c =? EOF) && negb (toCharCode c =? 10)
             && negb (toCharCode c =? 13))%bool = true) as ->.
    { unfold toCharCode, EOF.
      destruct (Z.eqb_spec (Z.of_N c) (-1)); [lia|].
      destruct (Z.eqb_spec (Z.of_N c) 10); [lia|].
      destruct (Z.eqb_spec (Z.of_N c) 13); [lia|]. reflexivity. }
    apply returns_eq. rewrite (IH f _ nl rest); [| reflexivity | assumption.. | simpl in Hf; lia].
    reflexivity.
Qed.

(** A comment without a line end runs to the end of the stream. *)
Lemma gettok_comment_loop_eof (body : list jschar) :
  forall fuel st,
    stream st = body ->
    Forall not_line_end body ->
    (length body + 1 <= fuel)%nat ->
    gettok_comment_loop fuel st =
    Some (tt, set_LastChar EOF (set_stream [] st)).
Proof.
  induction body as [|c body IH]; intros fuel st Hs Hbody Hf;
    (destruct fuel as [|f]; [simpl in Hf; lia|]); apply returns_eq; simpl;
    simpl in Hs.
  - eapply advance_to; [exact Hs|]. simpl. ret_step. split; reflexivity.
  - eapply advance_to; [exact Hs|].
    inversion Hbody as [|? ? [Hc1 Hc2] Hbody']; subst.
    change (lookahead_of (c :: body)) with (toCharCode c).
    assert ((negb (toCharCode c =? EOF) && negb (toCharCode c =? 10)
             && negb (toCharCode c =? 13))%bool = true) as ->.
    { unfold toCharCode, EOF.
      destruct (Z.eqb_spec (Z.of_N c) (-1)); [lia|].
      destruct (Z.eqb_spec (Z.of_N c) 10); [lia|].
      destruct (Z.eqb_spec (Z.of_N c) 13); [lia|]. reflexivity. }
    apply returns_eq. rewrite (IH f _); [| reflexivity | assumption | simpl in Hf; lia].
    reflexivity.
Qed.

Lemma at_top_level_with_mono {A} op prec (parse : nat -> M A) :
  (forall f f', (f <= f')%nat -> le_M (parse f) (parse f')) ->
  forall f f', (f <= f')%nat ->
    le_M (at_top_level_with op prec parse f) (at_top_level_with op prec parse f').
Proof.
  intros Hparse f f' Hle. unfold at_top_level_with.
  pose proof (getNextToken_mono f f' Hle). pose proof (Hparse f f' Hle).
  repeat mono_step.
Qed.

Lemma toCharCode_inj (a b : jschar) : toCharCode a = toCharCode b -> a = b.
Proof. unfold toCharCode. lia. Qed.

Lemma digit_or_dot_text_char c :
  digit_or_dot c = true -> text_char (fromCharCode c) = true.
Proof.
  unfold digit_or_dot, text_char. intros H.
  apply orb_true_iff in H. destruct H as [H|H].
  - change (isdigit c) with (is_decimal_digit (fromCharCode c)) in H.
    rewrite H. reflexivity.
  - apply Z.eqb_eq in H. subst c. reflexivity.
Qed.

(** The text handed to [parseFloat] is made of digits and dots. *)
Lemma gettok_number_loop_text fuel : forall st NumStr r st',
  Forall (fun c => text_char c = true) NumStr ->
  digit_or_dot (LastChar st) = true ->
  gettok_number_loop fuel NumStr st = Some (r, st') ->
  Forall (fun c => text_char c = true) r.
Proof.
  induction fuel as [|f IH]; intros st NumStr r st' Hacc Hc H; [discriminate H|].
  assert (Forall (fun c => text_char c = true)
                 (NumStr ++ [fromCharCode (LastChar st)])) as Hacc'.
  { apply Forall_app. split; [exact Hacc|].
    constructor; [apply digit_or_dot_text_char, Hc | constructor]. }
  simpl in H. unfold bind, read, write in H.
  destruct (getchar st) as [[c' st1]|]; [|discriminate H].
  fold (digit_or_dot c') in H.
  destruct (digit_or_dot c') eqn:Ec'.
  - apply (IH (set_LastChar c' st1) _ _ _ Hacc' Ec' H).
  - injection H as <- _. exact Hacc'.
Qed.

Lemma gettok_skip_whitespace_done f st :
  isspace (LastChar st) = false ->
  gettok_skip_whitespace (S f) st = Some (tt, st).
Proof.
  intros H. apply returns_eq. simpl. ret_step. rewrite H. ret_step.
  split; reflexivity.
Qed.

(** At [EOF] the lexer returns [tok_eof] and changes nothing. *)
Lemma gettok_at_EOF fuel st :
  LastChar st = EOF -> (2 <= fuel)%nat -> gettok fuel st = Some (tok_eof, st).
Proof.
  intros H Hf. destruct fuel as [|[|f]]; [lia | lia |].
  apply returns_eq. cbn [gettok].
  apply returns_bind. exists tt, st. split.
  { apply gettok_skip_whitespace_done. rewrite H. reflexivity. }
  ret_step. rewrite H.
  change (isalpha EOF) with false.
  change (isdigit EOF || (EOF =? toCharCode (chr ".")))%bool with false.
  change (EOF =? toCharCode (chr "#")) with false.
  cbv iota. unfold gettok_tail. ret_step. rewrite H.
  change (EOF =? EOF) with true. cbv iota. ret_step. split; reflexivity.
Qed.

(** The dispatch of [gettok] on a lookahead ['#']. *)
Lemma gettok_on_hash f st :
  LastChar st = toCharCode (chr "#") ->
  gettok (S (S f)) st =
  (gettok_comment_loop (S f) ;;
   c' <- read LastChar ;;
   if negb (c' =? EOF) then gettok (S f) else gettok_tail) st.
Proof.
  intros H. cbn [gettok]. unfold bind at 1.
  rewrite gettok_skip_whitespace_done by (rewrite H; reflexivity).
  unfold bind at 1, read at 1. rewrite H. reflexivity.
Qed.

(** What holds of the result with enough fuel holds of the result with
    whatever fuel the computation returns. *)
Lemma returns_with_any_fuel {A} (m : nat -> M A) (pre : state -> Prop) (bound : state -> nat)
  (P : state -> A -> state -> Prop) :
  (forall f f', (f <= f')%nat -> le_M (m f) (m f')) ->
  (forall fuel st, pre st -> (bound st <= fuel)%nat ->
     returns (m fuel) st (P st)) ->
  forall fuel st r st1,
    pre st -> m fuel st = Some (r, st1) -> P st r st1.
Proof.
  intros Hmono Hret fuel st r st1 Hpre Hm.
  destruct (Hret (Nat.max fuel (bound st)) st Hpre (Nat.le_max_r _ _))
    as (r' & st' & Hm' & HP).
  rewrite (Hmono fuel _ (Nat.le_max_l _ _) _ _ Hm) in Hm'.
  injection Hm' as <- <-. exact HP.
Qed.

Lemma set_CurTok_same st : set_CurTok (CurTok st) st = st.
Proof. destruct st; reflexivity. Qed.

(** The token skipped after a failure that stopped at the end of the
    stream is [tok_eof] again. *)
Lemma getNextToken_at_eof fuel st :
  eof_sticky st -> CurTok st = tok_eof -> (2 <= fuel)%nat ->
  getNextToken fuel st = Some (tok_eof, st).
Proof.
  intros Hs Hc Hf. unfold getNextToken, bind.
  rewrite (gettok_at_EOF fuel st (Hs Hc) Hf). unfold write, ret.
  replace (set_CurTok tok_eof st) with st; [reflexivity|].
  rewrite <- Hc. symmetry. apply set_CurTok_same.
Qed.

Lemma parseFloat_dots n : parseFloat (repeat (chr ".") (S n)) = NaN.
Proof. destruct n; reflexivity. Qed.

Lemma map_repeat_dots n :
  map (fun c => fromCharCode (toCharCode c)) (repeat (chr ".") n) =
  repeat (chr ".") n.
Proof. induction n as [|n IH]; simpl; [reflexivity | rewrite IH; reflexivity]. Qed.

Lemma Forall_repeat_dots n :
  Forall (fun c => digit_or_dot (toCharCode c) = true) (repeat (chr ".") n).
Proof. induction n as [|n IH]; simpl; constructor; [reflexivity | exact IH]. Qed.

Lemma digit_or_dot_not_space_nor_alpha c :
  digit_or_dot c = true -> isspace c = false /\ isalpha c = false.
Proof.
  unfold digit_or_dot. intros H. apply orb_true_iff in H. destruct H as [H|H].
  - unfold isdigit, isspace, isalpha, in_range in *.
    revert H. generalize (fromCharCode c). intros u H.
    apply andb_true_iff in H. destruct H as [H1 H2].
    apply N.leb_le in H1, H2. change (chr "0") with 48%N in H1.
    change (chr "9") with 57%N in H2.
    split.
    + repeat (apply orb_false_iff; split); apply N.eqb_neq;
        try change (chr " ") with 32%N; lia.
    + apply orb_false_iff; split; apply andb_false_iff; left; apply N.leb_gt.
      * change (chr "a") with 97%N. lia.
      * change (chr "A") with 65%N. lia.
  - apply Z.eqb_eq in H. subst c. split; reflexivity.
Qed.

(** A lookahead that starts a number: [gettok] takes the whole run of
    digits and dots into the text, converts it with [parseFloat] and
    returns a number token. *)
Lemma gettok_number (run rest : list jschar) (fuel : nat) (st : state) :
  digit_or_dot (LastChar st) = true ->
  stream st = run ++ rest ->
  Forall (fun c => digit_or_dot (toCharCode c) = true) run ->
  digit_or_dot (lookahead_of rest) = false ->
  (length run + 3 <= fuel)%nat ->
  gettok fuel st =
  Some (tok_number,
        set_NumVal
          (parseFloat (fromCharCode (LastChar st)
                         :: map (fun c => fromCharCode (toCharCode c)) run))
          (set_LastChar (lookahead_of rest) (set_stream (tl rest) st))).
Proof.
  intros Hc Hs Hrun Hrest Hf.
  destruct (digit_or_dot_not_space_nor_alpha _ Hc) as [Hspace Halpha].
  destruct fuel as [|[|f]]; [lia | lia |].
  cbn [gettok]. unfold bind at 1.
  rewrite gettok_skip_whitespace_done by exact Hspace.
  unfold bind at 1, read at 1. rewrite Halpha.
  fold (digit_or_dot (LastChar st)). rewrite Hc. unfold bind at 1.
  rewrite (gettok_number_loop_run run (S f) st [] rest Hs Hrun Hrest) by lia.
  reflexivity.
Qed.

(** * The claims *)

(** C1. Parsing ["1+2*3"] gives [BinaryOp('+', 1, BinaryOp('*', 2, 3))];
    more generally, in ["1 op1 2 op2 3"] with two operators of the table, an
    operator [op2] of strictly higher precedence than [op1] takes the
    right-hand side [2] first. *)
Theorem C1_tighter_operator_takes_rhs
  (unset : jsstring * number * Z) (fuel : nat) :
  (20 <= fuel)%nat ->
  returns (at_top_level ParseExpression fuel) (loaded unset [js "1+2*3"])
    (fun r st' =>
       r = Some (BinaryExprAST (toCharCode (chr "+"))
                   (NumberExprAST (round_decimal 1 0))
                   (BinaryExprAST (toCharCode (chr "*"))
                      (NumberExprAST (round_decimal 2 0))
                      (NumberExprAST (round_decimal 3 0))))
       /\ console st' = []) /\
  (forall (op1 op2 : jschar) (p1 p2 : Z),
     standard_binops !! toCharCode op1 = Some p1 ->
     standard_binops !! toCharCode op2 = Some p2 ->
     p1 < p2 ->
     returns (at_top_level ParseExpression fuel)
       (loaded unset [js "1" ++ [op1] ++ js "2" ++ [op2] ++ js "3"])
       (fun r st' =>
          r = Some (BinaryExprAST (toCharCode op1)
                      (NumberExprAST (round_decimal 1 0))
                      (BinaryExprAST (toCharCode op2)
                         (NumberExprAST (round_decimal 2 0))
                         (NumberExprAST (round_decimal 3 0)))))).
Proof.
  intros Hf. destruct unset as [[id0 num0] tok0]. split.
  - by_running 20%nat Hf (at_top_level_mono _ ParseExpression_mono).
    split; reflexivity.
  - intros op1 op2 p1 p2 H1 H2 Hlt.
    apply standard_binops_lookup in H1, H2.
    destruct H1 as [[E1 ->]|[[E1 ->]|[[E1 ->]|[E1 ->]]]];
    destruct H2 as [[E2 ->]|[[E2 ->]|[[E2 ->]|[E2 ->]]]];
    try lia; apply toCharCode_inj in E1, E2; subst op1 op2;
    by_running 20%nat Hf (at_top_level_mono _ ParseExpression_mono);
    reflexivity.
Qed.

Lemma C1_tighter_operator_takes_rhs_witness :
  (20 <= 20)%nat /\
  returns (at_top_level ParseExpression 20) (loaded ([], NaN, 0) [js "1+2*3"])
    (fun r st' =>
       r = Some (BinaryExprAST (toCharCode (chr "+"))
                   (NumberExprAST (round_decimal 1 0))
                   (BinaryExprAST (toCharCode (chr "*"))
                      (NumberExprAST (round_decimal 2 0))
                      (NumberExprAST (round_decimal 3 0))))
       /\ console st' = []).
Proof.
  split; [lia|].
  apply (C1_tighter_operator_takes_rhs ([], NaN, 0) 20). lia.
Defined.

(** C2. Parsing ["1-2-3"] gives [BinaryOp('-', BinaryOp('-', 1, 2), 3)];
    more generally, in ["1 op1 2 op2 3"] an operator [op2] whose precedence
    is not strictly greater than that of [op1] (equal included) leaves the
    right-hand side [2] to [op1]: the grouping is to the left. *)
Theorem C2_equal_precedence_groups_left
  (unset : jsstring * number * Z) (fuel : nat) :
  (20 <= fuel)%nat ->
  returns (at_top_level ParseExpression fuel) (loaded unset [js "1-2-3"])
    (fun r st' =>
       r = Some (BinaryExprAST (toCharCode (chr "-"))
                   (BinaryExprAST (toCharCode (chr "-"))
                      (NumberExprAST (round_decimal 1 0))
                      (NumberExprAST (round_decimal 2 0)))
                   (NumberExprAST (round_decimal 3 0)))
       /\ console st' = []) /\
  (forall (op1 op2 : jschar) (p1 p2 : Z),
     standard_binops !! toCharCode op1 = Some p1 ->
     standard_binops !! toCharCode op2 = Some p2 ->
     p2 <= p1 ->
     returns (at_top_level ParseExpression fuel)
       (loaded unset [js "1" ++ [op1] ++ js "2" ++ [op2] ++ js "3"])
       (fun r st' =>
          r = Some (BinaryExprAST (toCharCode op2)
                      (BinaryExprAST (toCharCode op1)
                         (NumberExprAST (round_decimal 1 0))
                         (NumberExprAST (round_decimal 2 0)))
                      (NumberExprAST (round_decimal 3 0))))).
Proof.
  intros Hf. destruct unset as [[id0 num0] tok0]. split.
  - by_running 20%nat Hf (at_top_level_mono _ ParseExpression_mono).
    split; reflexivity.
  - intros op1 op2 p1 p2 H1 H2 Hle.
    apply standard_binops_lookup in H1, H2.
    destruct H1 as [[E1 ->]|[[E1 ->]|[[E1 ->]|[E1 ->]]]];
    destruct H2 as [[E2 ->]|[[E2 ->]|[[E2 ->]|[E2 ->]]]];
    try lia; apply toCharCode_inj in E1, E2; subst op1 op2;
    by_running 20%nat Hf (at_top_level_mono _ ParseExpression_mono);
    reflexivity.
Qed.

Lemma C2_equal_precedence_groups_left_witness :
  (20 <= 20)%nat /\
  returns (at_top_level ParseExpression 20) (loaded ([], NaN, 0) [js "1-2-3"])
    (fun r st' =>
       r = Some (BinaryExprAST (toCharCode (chr "-"))
                   (BinaryExprAST (toCharCode (chr "-"))
                      (NumberExprAST (round_decimal 1 0))
                      (NumberExprAST (round_decimal 2 0)))
                   (NumberExprAST (round_decimal 3 0)))
       /\ console st' = []).
Proof.
  split; [lia|].
  apply (C2_equal_precedence_groups_left ([], NaN, 0) 20). lia.
Defined.

(** C3. Once the stream is exhausted and the lookahead is [EOF], [gettok]
    returns [tok_eof] and leaves the whole state (lookahead and stream
    included) unchanged, for any number of calls in a row; [getchar] itself
    keeps returning [EOF]. *)
Theorem C3_eof_is_idempotent (st : state) (fuel n : nat) :
  stream st = [] ->
  LastChar st = EOF ->
  (2 <= fuel)%nat ->
  gettok fuel st = Some (tok_eof, st) /\
  gettok_times n fuel st = Some (repeat tok_eof n, st) /\
  getchar st = Some (EOF, st).
Proof.
  intros Hs Hc Hf.
  pose proof (gettok_at_EOF fuel st Hc Hf) as Hg.
  split; [exact Hg|]. split; [|apply getchar_nil, Hs].
  induction n as [|n IH]; [reflexivity|].
  simpl. unfold bind. rewrite Hg, IH. reflexivity.
Qed.

Lemma C3_eof_is_idempotent_witness :
  gettok_times 3 2 (set_LastChar EOF (loaded ([], NaN, 0) [])) =
  Some ([tok_eof; tok_eof; tok_eof], set_LastChar EOF (loaded ([], NaN, 0) [])).
Proof.
  apply (C3_eof_is_idempotent (set_LastChar EOF (loaded ([], NaN, 0) [])) 2 3);
    [reflexivity | reflexivity | lia].
Defined.

(** C4. The text ["3.14"] is one number token whose value is the binary64
    number nearest to 3.14, and ["3.1.4"] is one number token (the whole run
    of digits and dots, the stream being exhausted after it) whose value is
    that of its longest valid prefix ["3.1"].  In general, on a lookahead
    that is a digit or a dot [gettok] takes the maximal run of digits and
    dots that follows into one text, returns one number token and stores
    what [parseFloat] makes of that text. *)
Theorem C4_number_text_and_valid_prefix
  (unset : jsstring * number * Z) (fuel : nat)
  (st : state) (run rest : list jschar) :
  digit_or_dot (LastChar st) = true ->
  stream st = run ++ rest ->
  Forall (fun c => digit_or_dot (toCharCode c) = true) run ->
  digit_or_dot (lookahead_of rest) = false ->
  (length run + 10 <= fuel)%nat ->
  returns (gettok_times 2 fuel) (loaded unset [js "3.14"])
    (fun toks st' =>
       toks = [tok_number; tok_eof] /\
       NumVal st' = round_decimal 314 2 /\
       NumVal st' = S754_finite false 7070651414971679 (-51) /\
       nearest_to_decimal (NumVal st') 314 2) /\
  returns (gettok_times 2 fuel) (loaded unset [js "3.1.4"])
    (fun toks st' =>
       toks = [tok_number; tok_eof] /\
       NumVal st' = parseFloat (js "3.1.4") /\
       NumVal st' = parseFloat (js "3.1") /\
       NumVal st' = round_decimal 31 1 /\
       NumVal st' = S754_finite false 6980579422424269 (-51) /\
       nearest_to_decimal (NumVal st') 31 1) /\
  gettok fuel st =
  Some (tok_number,
        set_NumVal
          (parseFloat (fromCharCode (LastChar st)
                         :: map (fun c => fromCharCode (toCharCode c)) run))
          (set_LastChar (lookahead_of rest) (set_stream (tl rest) st))).
Proof.
  intros Hc Hs Hrun Hrest Hf.
  assert (10 <= fuel)%nat as Hf' by lia.
  destruct unset as [[id0 num0] tok0]. split; [|split].
  - by_running 10%nat Hf' (gettok_times_mono 2).
    repeat (split; [reflexivity|]). vm_compute. repeat split; discriminate.
  - by_running 10%nat Hf' (gettok_times_mono 2).
    repeat (split; [reflexivity|]). vm_compute. repeat split; discriminate.
  - apply gettok_number; [assumption.. | lia].
Qed.

Lemma C4_number_text_and_valid_prefix_witness :
  gettok 14 (set_LastChar (toCharCode (chr "3")) (loaded ([], NaN, 0) [js ".1.4+"])) =
  Some (tok_number,
        set_NumVal (parseFloat (js "3.1.4"))
          (set_LastChar (toCharCode (chr "+"))
             (set_stream []
                (set_LastChar (toCharCode (chr "3"))
                   (loaded ([], NaN, 0) [js ".1.4+"]))))) /\
  parseFloat (js "3.1.4") = round_decimal 31 1.
Proof.
  split; [|reflexivity].
  apply (C4_number_text_and_valid_prefix ([], NaN, 0) 14
           (set_LastChar (toCharCode (chr "3")) (loaded ([], NaN, 0) [js ".1.4+"]))
           (js ".1.4") (js "+")).
  - reflexivity.
  - reflexivity.
  - repeat constructor.
  - reflexivity.
  - simpl. lia.
Defined.

(** C5. For ["# comment\n42"] the lexer returns one number token, of value
    42, and then [tok_eof].  In general a call of [gettok] on a comment
    discards it up to its line end and goes on as a call on what follows
    (no token is returned for the comment); a comment that runs to the end
    of the stream makes the same call return [tok_eof]. *)
Theorem C5_comment_is_skipped
  (unset : jsstring * number * Z) (fuel : nat)
  (st : state) (body : list jschar) :
  LastChar st = toCharCode (chr "#") ->
  Forall not_line_end body ->
  (length body + 20 <= fuel)%nat ->
  returns (gettok_times 2 fuel)
    (loaded unset [js "# comment" ++ [10%N] ++ js "42"])
    (fun toks st' =>
       toks = [tok_number; tok_eof] /\ NumVal st' = round_decimal 42 0 /\
       nearest_to_decimal (NumVal st') 42 0) /\
  (forall (nl : jschar) (rest : list jschar),
     nl = 10%N \/ nl = 13%N ->
     gettok (S fuel) (set_stream (body ++ nl :: rest) st) =
     gettok fuel (set_LastChar (toCharCode nl) (set_stream rest st))) /\
  gettok fuel (set_stream body st) =
  Some (tok_eof, set_LastChar EOF (set_stream [] st)).
Proof.
  intros Hc Hbody Hf. split; [|split].
  - destruct unset as [[id0 num0] tok0].
    assert (20 <= fuel)%nat as Hf' by lia.
    by_running 20%nat Hf' (gettok_times_mono 2).
    repeat (split; [reflexivity|]). vm_compute. repeat split; discriminate.
  - intros nl rest Hnl.
    destruct fuel as [|f]; [lia|].
    rewrite gettok_on_hash by exact Hc. unfold bind at 1.
    rewrite (gettok_comment_loop_line body (S f) _ nl rest);
      [| reflexivity | exact Hbody | exact Hnl | lia].
    unfold bind, read. simpl.
    assert ((toCharCode nl =? EOF) = false) as ->
      by (destruct Hnl; subst nl; reflexivity).
    reflexivity.
  - destruct fuel as [|[|f]]; [lia | lia |].
    rewrite gettok_on_hash by exact Hc. unfold bind at 1.
    rewrite (gettok_comment_loop_eof body (S f) _);
      [| reflexivity | exact Hbody | lia].
    unfold bind, read. simpl. reflexivity.
Qed.

Lemma C5_comment_is_skipped_witness :
  gettok 22 (set_stream (js " x") (set_LastChar (toCharCode (chr "#"))
                                      (loaded ([], NaN, 0) []))) =
  Some (tok_eof, set_LastChar EOF (set_stream [] (set_LastChar (toCharCode (chr "#"))
                                      (loaded ([], NaN, 0) [])))).
Proof.
  apply (C5_comment_is_skipped ([], NaN, 0) 22
           (set_LastChar (toCharCode (chr "#")) (loaded ([], NaN, 0) []))
           (js " x")).
  - reflexivity.
  - repeat constructor; discriminate.
  - simpl. lia.
Defined.

(** C6. Parsing ["foo(1,2)"] gives [Call("foo", [1, 2])], the arguments in
    the order of the input, and logs nothing; parsing ["foo(1,2"] gives
    [null] and logs exactly one line, the error
    ["Expected ')' or ',' in argument list"].  That line is also all the
    whole program writes for this input. *)
Theorem C6_call_arguments_and_missing_paren
  (unset : jsstring * number * Z) (fuel : nat) :
  (20 <= fuel)%nat ->
  returns (at_top_level ParseExpression fuel) (loaded unset [js "foo(1,2)"])
    (fun r st' =>
       r = Some (CallExprAST (js "foo")
                   [NumberExprAST (round_decimal 1 0);
                    NumberExprAST (round_decimal 2 0)])
       /\ console st' = []) /\
  returns (at_top_level ParseExpression fuel) (loaded unset [js "foo(1,2"])
    (fun r st' =>
       r = None /\
       console st' = ["LogError: Expected ')' or ',' in argument list"%string]) /\
  returns (main fuel) (loaded unset [js "foo(1,2"])
    (fun _ st' =>
       console st' = ["LogError: Expected ')' or ',' in argument list"%string]).
Proof.
  intros Hf. destruct unset as [[id0 num0] tok0]. split; [|split].
  - by_running 20%nat Hf (at_top_level_mono _ ParseExpression_mono).
    split; reflexivity.
  - by_running 20%nat Hf (at_top_level_mono _ ParseExpression_mono).
    split; reflexivity.
  - by_running 20%nat Hf main_mono. reflexivity.
Qed.

Lemma C6_call_arguments_and_missing_paren_witness :
  (20 <= 20)%nat /\
  returns (at_top_level ParseExpression 20) (loaded ([], NaN, 0) [js "foo(1,2"])
    (fun r st' =>
       r = None /\
       console st' = ["LogError: Expected ')' or ',' in argument list"%string]).
Proof.
  split; [lia|].
  apply (C6_call_arguments_and_missing_paren ([], NaN, 0) 20). lia.
Defined.

(** C7. [ParseTopLevelExpr] returns a function exactly when
    [ParseExpression] returns an expression [E], and the function is then
    [Function(Prototype("", []), E)], in the same final state; for ["42"]
    it is [Function(Prototype("", []), NumberLiteral(42))]. *)
Theorem C7_top_level_expression_is_wrapped
  (unset : jsstring * number * Z) (fuel : nat) :
  (forall (st st' : state) (F : FunctionAST),
     ParseTopLevelExpr fuel st = Some (Some F, st') <->
     exists E, ParseExpression fuel st = Some (Some E, st') /\
               F = MkFunctionAST (MkPrototypeAST (js "") []) E) /\
  returns (at_top_level ParseTopLevelExpr (10 + fuel)) (loaded unset [js "42"])
    (fun r st' =>
       r = Some (MkFunctionAST (MkPrototypeAST (js "") [])
                   (NumberExprAST (round_decimal 42 0)))).
Proof.
  split.
  - intros st st' F. unfold ParseTopLevelExpr, bind, ret.
    destruct (ParseExpression fuel st) as [[[E|] st1]|]; split.
    + intros H. injection H as <- <-. exists E. split; reflexivity.
    + intros (E' & H & ->). injection H as <- <-. reflexivity.
    + discriminate.
    + intros (E' & H & _). discriminate.
    + discriminate.
    + intros (E' & H & _). discriminate.
  - destruct unset as [[id0 num0] tok0].
    assert (10 <= 10 + fuel)%nat as Hf by lia.
    by_running 10%nat Hf (at_top_level_mono _ ParseTopLevelExpr_mono).
    reflexivity.
Qed.

(** C8. For every list of arguments [main] returns, with exit status 0 and
    the current token at [tok_eof], however many constructs failed.  After
    a failed construct each handler makes exactly one more call of
    [getNextToken]; when the failure stopped at the end of the stream that
    call changes nothing, the current token is [tok_eof] still.  (The
    condition [eof_sticky] under which this is stated holds when [MainLoop]
    is entered and after every step of the loop.) *)
Theorem C8_driver_terminates_with_status_0
  (unset : jsstring * number * Z) (argv : list jsstring) (fuel : nat) :
  (5 * length (join (js " ") argv) + 16 <= fuel)%nat ->
  returns (main fuel) (loaded unset argv)
    (fun status st' => status = 0 /\ CurTok st' = tok_eof /\ LastChar st' = EOF) /\
  (forall st st1,
     (ParseDefinition fuel st = Some (None, st1) ->
      HandleDefinition fuel st = (getNextToken fuel ;; ret tt) st1) /\
     (ParseExtern fuel st = Some (None, st1) ->
      HandleExtern fuel st = (getNextToken fuel ;; ret tt) st1) /\
     (ParseTopLevelExpr fuel st = Some (None, st1) ->
      HandleTopLevelExpression fuel st = (getNextToken fuel ;; ret tt) st1)) /\
  (forall st st1,
     eof_sticky st -> CurTok st <> tok_eof -> CurTok st1 = tok_eof ->
     (ParseDefinition fuel st = Some (None, st1) ->
      HandleDefinition fuel st = Some (tt, st1)) /\
     (ParseExtern fuel st = Some (None, st1) ->
      HandleExtern fuel st = Some (tt, st1)) /\
     (ParseTopLevelExpr fuel st = Some (None, st1) ->
      HandleTopLevelExpression fuel st = Some (tt, st1))) /\
  returns (main_prologue fuel) (loaded unset argv)
    (fun _ st' => eof_sticky st') /\
  (forall st st',
     eof_sticky st -> CurTok st <> tok_eof ->
     (forall tok, getNextToken fuel st = Some (tok, st') -> eof_sticky st') /\
     (HandleDefinition fuel st = Some (tt, st') -> eof_sticky st') /\
     (HandleExtern fuel st = Some (tt, st') -> eof_sticky st') /\
     (HandleTopLevelExpression fuel st = Some (tt, st') -> eof_sticky st')).
Proof.
  intros Hf. pose proof (tokens_left_loaded unset argv) as Hlen.
  split; [|split; [|split; [|split]]].
  - apply main_returns. lia.
  - intros st st1. repeat split; intros H;
      unfold HandleDefinition, HandleExtern, HandleTopLevelExpression;
      unfold bind at 1; rewrite H; reflexivity.
  - intros st st1 Hs Hcur Hcur1. apply Z.eqb_neq in Hcur.
    assert (eof_sticky st1 ->
            (getNextToken fuel ;; ret tt) st1 = Some (tt, st1)) as Hskip.
    { intros Hs1. unfold bind.
      rewrite (getNextToken_at_eof fuel st1 Hs1 Hcur1) by lia. reflexivity. }
    repeat split; intros H.
    + unfold HandleDefinition. unfold bind at 1. rewrite H. apply Hskip.
      apply (returns_with_any_fuel ParseDefinition
               (fun st => (CurTok st =? tok_eof) = false)
               (fun st => (5 * tokens_left st + 5)%nat)
               (fun st _ st' => handled st st')
               ParseDefinition_mono) in H;
        [apply H, Hs | intros; apply ParseDefinition_returns; assumption | exact Hcur].
    + unfold HandleExtern. unfold bind at 1. rewrite H. apply Hskip.
      apply (returns_with_any_fuel ParseExtern
               (fun st => (CurTok st =? tok_eof) = false)
               (fun st => (5 * tokens_left st + 5)%nat)
               (fun st _ st' => handled st st')
               ParseExtern_mono) in H;
        [apply H, Hs | intros; apply ParseExtern_returns; assumption | exact Hcur].
    + unfold HandleTopLevelExpression. unfold bind at 1. rewrite H. apply Hskip.
      apply (returns_with_any_fuel ParseTopLevelExpr
               (fun _ => True)
               (fun st => (5 * tokens_left st + 5)%nat)
               (@parsed FunctionAST)
               ParseTopLevelExpr_mono) in H;
        [apply H, Hs | intros; apply ParseTopLevelExpr_returns; assumption | exact I].
  - eapply returns_conseq; [apply main_prologue_returns; lia|]. cbv beta.
    intros _ st' [H _]. exact H.
  - intros st st' Hs Hcur. apply Z.eqb_neq in Hcur. repeat split.
    + intros tok H.
      apply (returns_with_any_fuel getNextToken (fun _ => True)
               (fun st => (tokens_left st + 2)%nat)
               (fun st tok st' => eof_sticky st' /\ CurTok st' = tok /\ consumed st st' /\
                  ((CurTok st =? tok_eof) = false ->
                   (tokens_left st' < tokens_left st)%nat))
               getNextToken_mono) in H;
        [exact (proj1 H) | intros; apply getNextToken_returns_sticky; assumption | exact I].
    + intros H.
      apply (returns_with_any_fuel HandleDefinition
               (fun st => (CurTok st =? tok_eof) = false)
               (fun st => (5 * tokens_left st + 5)%nat)
               (fun st _ st' => handled st st')
               HandleDefinition_mono) in H;
        [apply H, Hs | intros; apply HandleDefinition_returns; assumption | exact Hcur].
    + intros H.
      apply (returns_with_any_fuel HandleExtern
               (fun st => (CurTok st =? tok_eof) = false)
               (fun st => (5 * tokens_left st + 5)%nat)
               (fun st _ st' => handled st st')
               HandleExtern_mono) in H;
        [apply H, Hs | intros; apply HandleExtern_returns; assumption | exact Hcur].
    + intros H.
      apply (returns_with_any_fuel HandleTopLevelExpression
               (fun st => (CurTok st =? tok_eof) = false)
               (fun st => (5 * tokens_left st + 5)%nat)
               (fun st _ st' => handled st st')
               HandleTopLevelExpression_mono) in H;
        [apply H, Hs | intros; apply HandleTopLevelExpression_returns; assumption | exact Hcur].
Qed.

Lemma C8_driver_terminates_with_status_0_witness :
  (5 * length (join (js " ") [js "def f(x"; js "foo(1,2"]) + 16 <= 100)%nat /\
  returns (main 100) (loaded ([], NaN, 0) [js "def f(x"; js "foo(1,2"])
    (fun status st' => status = 0 /\ CurTok st' = tok_eof /\ LastChar st' = EOF).
Proof.
  split; [simpl; lia|].
  apply (C8_driver_terminates_with_status_0 ([], NaN, 0)
           [js "def f(x"; js "foo(1,2"] 100).
  simpl. lia.
Defined.

(** C9. [main] seeds the table with ['<'] at 10, ['+'] at 20, ['-'] at 30
    and ['*'] at 40 (and nothing else), so ["1+2-3"] parses as
    [BinaryOp('+', 1, BinaryOp('-', 2, 3))]; were ['-'] set to the
    precedence 20 of ['+'], the same input would group to the left, as
    [BinaryOp('-', BinaryOp('+', 1, 2), 3)]. *)
Theorem C9_minus_binds_tighter_than_plus
  (unset : jsstring * number * Z) (argv : list jsstring) (fuel : nat) :
  (20 <= fuel)%nat ->
  returns main_install_binops (loaded unset argv)
    (fun _ st' =>
       BinopPrecedence st' = standard_binops /\
       BinopPrecedence st' !! toCharCode (chr "<") = Some 10 /\
       BinopPrecedence st' !! toCharCode (chr "+") = Some 20 /\
       BinopPrecedence st' !! toCharCode (chr "-") = Some 30 /\
       BinopPrecedence st' !! toCharCode (chr "*") = Some 40 /\
       forall tok, tok <> toCharCode (chr "<") -> tok <> toCharCode (chr "+") ->
                   tok <> toCharCode (chr "-") -> tok <> toCharCode (chr "*") ->
                   BinopPrecedence st' !! tok = None) /\
  returns (at_top_level ParseExpression fuel) (loaded unset [js "1+2-3"])
    (fun r st' =>
       r = Some (BinaryExprAST (toCharCode (chr "+"))
                   (NumberExprAST (round_decimal 1 0))
                   (BinaryExprAST (toCharCode (chr "-"))
                      (NumberExprAST (round_decimal 2 0))
                      (NumberExprAST (round_decimal 3 0))))) /\
  returns (at_top_level_with (toCharCode (chr "-")) 20 ParseExpression fuel)
    (loaded unset [js "1+2-3"])
    (fun r st' =>
       r = Some (BinaryExprAST (toCharCode (chr "-"))
                   (BinaryExprAST (toCharCode (chr "+"))
                      (NumberExprAST (round_decimal 1 0))
                      (NumberExprAST (round_decimal 2 0)))
                   (NumberExprAST (round_decimal 3 0)))).
Proof.
  intros Hf. split; [|split].
  - eapply returns_conseq; [apply main_install_binops_loaded|]. cbv beta.
    intros _ st' ->. split; [reflexivity|].
    repeat (split; [reflexivity|]).
    intros tok H1 H2 H3 H4. unfold standard_binops.
    rewrite !lookup_insert_ne by congruence. apply lookup_empty.
  - destruct unset as [[id0 num0] tok0].
    by_running 20%nat Hf (at_top_level_mono _ ParseExpression_mono).
    reflexivity.
  - destruct unset as [[id0 num0] tok0].
    by_running 20%nat Hf
      (at_top_level_with_mono (toCharCode (chr "-")) 20 _ ParseExpression_mono).
    reflexivity.
Qed.

Lemma C9_minus_binds_tighter_than_plus_witness :
  (20 <= 20)%nat /\
  returns (at_top_level ParseExpression 20) (loaded ([], NaN, 0) [js "1+2-3"])
    (fun r st' =>
       r = Some (BinaryExprAST (toCharCode (chr "+"))
                   (NumberExprAST (round_decimal 1 0))
                   (BinaryExprAST (toCharCode (chr "-"))
                      (NumberExprAST (round_decimal 2 0))
                      (NumberExprAST (round_decimal 3 0))))).
Proof.
  split; [lia|].
  apply (C9_minus_binds_tighter_than_plus ([], NaN, 0) [] 20). lia.
Defined.

(** C10. When the lookahead is ['.'] and the run of digits and dots that
    follows holds dots only, [gettok] consumes the run, returns a number
    token and stores [NaN]: [parseFloat] finds no valid prefix in a text of
    dots.  The input ["."] is the case of no further dot. *)
Theorem C10_dots_only_number_is_NaN
  (unset : jsstring * number * Z) (st : state) (n : nat)
  (rest : list jschar) (fuel : nat) :
  LastChar st = toCharCode (chr ".") ->
  stream st = repeat (chr ".") n ++ rest ->
  digit_or_dot (lookahead_of rest) = false ->
  (n + 5 <= fuel)%nat ->
  gettok fuel st =
    Some (tok_number,
          set_NumVal NaN (set_LastChar (lookahead_of rest)
                                       (set_stream (tl rest) st))) /\
  parseFloat (repeat (chr ".") (S n)) = NaN /\
  returns (gettok_times 2 fuel) (loaded unset [js "."])
    (fun toks st' => toks = [tok_number; tok_eof] /\ NumVal st' = NaN).
Proof.
  intros Hc Hs Hrest Hf. split; [|split].
  - rewrite (gettok_number (repeat (chr ".") n) rest fuel st);
      [| rewrite Hc; reflexivity | exact Hs | apply Forall_repeat_dots
       | exact Hrest | rewrite repeat_length; lia].
    rewrite Hc, map_repeat_dots.
    change (fromCharCode (toCharCode (chr ".")) :: repeat (chr ".") n)
      with (repeat (chr ".") (S n)).
    rewrite parseFloat_dots. reflexivity.
  - apply parseFloat_dots.
  - destruct unset as [[id0 num0] tok0].
    assert (5 <= fuel)%nat as Hf' by lia.
    by_running 5%nat Hf' (gettok_times_mono 2).
    split; reflexivity.
Qed.

Lemma C10_dots_only_number_is_NaN_witness :
  gettok 7 (set_LastChar (toCharCode (chr ".")) (loaded ([], NaN, 0) [js "..+"])) =
  Some (tok_number,
        set_NumVal NaN
          (set_LastChar (toCharCode (chr "+"))
             (set_stream []
                (set_LastChar (toCharCode (chr ".")) (loaded ([], NaN, 0) [js "..+"]))))).
Proof.
  apply (C10_dots_only_number_is_NaN ([], NaN, 0)
           (set_LastChar (toCharCode (chr ".")) (loaded ([], NaN, 0) [js "..+"]))
           2 (js "+") 7).
  - reflexivity.
  - reflexivity.
  - reflexivity.
  - lia.
Defined.

(** * Partial correctness, frames and invariants *)

Section Partially.
Context {A B : Type}.

Lemma partially_ret (a : A) st (Q : A -> state -> Prop) :
  Q a st -> partially (ret a) st Q.
Proof. intros H. exact H. Qed.

Lemma partially_read (proj : state -> A) st (Q : A -> state -> Prop) :
  Q (proj st) st -> partially (read proj) st Q.
Proof. intros H. exact H. Qed.

Lemma partially_out_of_fuel st (Q : A -> state -> Prop) :
  partially out_of_fuel st Q.
Proof. exact I. Qed.

Lemma partially_bind (m : M A) (k : A -> M B) st (Q : B -> state -> Prop) :
  partially m st (fun a st1 => partially (k a) st1 Q) ->
  partially (bind m k) st Q.
Proof.
  unfold partially, bind. destruct (m st) as [[a st1]|]; [|intros _; exact I].
  intros H. exact H.
Qed.

Lemma partially_conseq (m : M A) st (P Q : A -> state -> Prop) :
  partially m st P -> (forall a st', P a st' -> Q a st') -> partially m st Q.
Proof.
  unfold partially. destruct (m st) as [[a st1]|]; [|intros _ _; exact I].
  intros HP H. apply H, HP.
Qed.

Lemma partially_elim (m : M A) st (Q : A -> state -> Prop) a st' :
  partially m st Q -> m st = Some (a, st') -> Q a st'.
Proof. unfold partially. intros H E. rewrite E in H. exact H. Qed.

End Partially.

Lemma partially_write upd st (Q : unit -> state -> Prop) :
  Q tt (upd st) -> partially (write upd) st Q.
Proof. intros H. exact H. Qed.

Ltac par_step :=
  lazymatch goal with
  | |- partially out_of_fuel _ _ => apply partially_out_of_fuel
  | |- partially (ret _) _ _ => apply partially_ret
  | |- partially (read _) _ _ => apply partially_read
  | |- partially (write _) _ _ => apply partially_write
  | |- partially (bind (read _) _) _ _ => apply partially_bind, partially_read
  | |- partially (bind (write _) _) _ _ => apply partially_bind, partially_write
  | |- partially (bind (ret _) _) _ _ => apply partially_bind, partially_ret
  end.

Ltac par_call H :=
  apply partially_bind; eapply partially_conseq; [ eapply H | cbv beta ].

Lemma lexer_frame_refl st : lexer_frame st st.
Proof.
  split; [reflexivity|]. split; [reflexivity|]. split; [reflexivity|].
  split; [exists []; reflexivity | auto].
Qed.

Lemma lexer_frame_trans st1 st2 st3 :
  lexer_frame st1 st2 -> lexer_frame st2 st3 -> lexer_frame st1 st3.
Proof.
  intros (H1 & H2 & H3 & [r1 H4] & H5) (K1 & K2 & K3 & [r2 K4] & K5).
  split; [congruence|]. split; [congruence|]. split; [congruence|].
  split; [|auto].
  exists (r1 ++ r2). rewrite H4, K4. apply app_assoc.
Qed.

(** Reading the next character into [LastChar] is a step of the lexer,
    after which the lookahead is as it should be. *)
Lemma partially_advance {B} (k : Z -> M B) st Q :
  (forall c st1,
     lexer_frame st (set_LastChar c st1) ->
     lookahead_ok (set_LastChar c st1) ->
     IdentifierStr st1 = IdentifierStr st ->
     partially (k c) (set_LastChar c st1) Q) ->
  partially (c <- getchar ;; write (set_LastChar c) ;; k c) st Q.
Proof.
  intros H. apply partially_bind. unfold partially at 1, getchar.
  destruct (stream st) as [|x rest] eqn:Es.
  - assert (lookahead_ok (set_LastChar EOF st)) as Hok
      by (split; [unfold EOF; simpl; lia | intros _; exact Es]).
    par_step. apply H; [|exact Hok|reflexivity].
    split; [reflexivity|]. split; [reflexivity|]. split; [reflexivity|].
    split; [exists []; reflexivity | intros _; exact Hok].
  - assert (lookahead_ok (set_LastChar (toCharCode x) (set_stream rest st))) as Hok
      by (split; simpl; unfold toCharCode, EOF; lia).
    par_step. apply H; [|exact Hok|reflexivity].
    split; [reflexivity|]. split; [reflexivity|]. split; [reflexivity|].
    split; [exists [x]; simpl; exact Es | intros _; exact Hok].
Qed.

Lemma partially_frame_step {A} (m : M A) st st1 :
  lexer_frame st st1 ->
  partially m st1 (fun _ st' => lexer_frame st1 st') ->
  partially m st1 (fun _ st' => lexer_frame st st').
Proof.
  intros H Hm. eapply partially_conseq; [exact Hm|]. cbv beta.
  intros _ st' H'. exact (lexer_frame_trans _ _ _ H H').
Qed.

Lemma gettok_skip_whitespace_frame fuel : forall st,
  partially (gettok_skip_whitespace fuel) st (fun _ st' => lexer_frame st st').
Proof.
  induction fuel as [|f IH]; intros st; [exact I|].
  simpl. par_step. destruct (isspace (LastChar st)).
  - apply partially_advance. intros c st1 H1 _ Hid.
    apply partially_frame_step; [exact H1 | apply IH].
  - par_step. apply lexer_frame_refl.
Qed.

Lemma gettok_skip_whitespace_stops fuel : forall st,
  partially (gettok_skip_whitespace fuel) st
            (fun _ st' => isspace (LastChar st') = false).
Proof.
  induction fuel as [|f IH]; intros st; [exact I|].
  simpl. par_step. destruct (isspace (LastChar st)) eqn:E.
  - apply partially_bind. unfold partially at 1.
    destruct (getchar st) as [[c st1]|]; [|exact I]. par_step. apply IH.
  - par_step. exact E.
Qed.

Lemma partially_and {A} (m : M A) st (P Q : A -> state -> Prop) :
  partially m st P -> partially m st Q ->
  partially m st (fun a st' => P a st' /\ Q a st').
Proof.
  unfold partially. destruct (m st) as [[a st1]|]; [|intros _ _; exact I].
  intros HP HQ. split; assumption.
Qed.

Lemma gettok_identifier_loop_frame fuel : forall st,
  partially (gettok_identifier_loop fuel) st (fun _ st' =>
    lexer_frame st st' /\
    exists more, IdentifierStr st' = IdentifierStr st ++ more /\
                 Forall (fun u => alnum_char u = true) more).
Proof.
  induction fuel as [|f IH]; intros st; [exact I|].
  simpl. apply partially_advance. intros c st1 H1 _ Hid.
  destruct (isalnum c) eqn:E.
  - do 2 par_step. eapply partially_conseq; [apply IH|]. cbv beta.
    intros _ st' [H2 (more & H3 & H4)]. split.
    + eapply lexer_frame_trans; [exact H1|]. exact H2.
    + exists (fromCharCode c :: more). split.
      * rewrite H3. simpl. rewrite Hid, <- app_assoc. reflexivity.
      * constructor; [exact E | exact H4].
  - par_step. split; [exact H1|]. exists []. split; [|constructor].
    simpl. rewrite Hid, app_nil_r. reflexivity.
Qed.

Lemma gettok_number_loop_frame fuel : forall st NumStr,
  digit_or_dot (LastChar st) = true ->
  partially (gettok_number_loop fuel NumStr) st (fun r st' =>
    lexer_frame st st' /\
    exists text, r = NumStr ++ text /\ text <> [] /\
                 Forall (fun u => text_char u = true) text).
Proof.
  induction fuel as [|f IH]; intros st NumStr Hc; [exact I|].
  simpl. par_step. apply partially_advance. intros c st1 H1 _ Hid.
  fold (digit_or_dot c). destruct (digit_or_dot c) eqn:E.
  - eapply partially_conseq; [apply IH; exact E|]. cbv beta.
    intros r st' [H2 (text & H3 & _ & H4)]. split.
    + eapply lexer_frame_trans; [exact H1 | exact H2].
    + exists (fromCharCode (LastChar st) :: text). split; [|split].
      * rewrite H3, <- app_assoc. reflexivity.
      * discriminate.
      * constructor; [apply digit_or_dot_text_char, Hc | exact H4].
  - par_step. split; [exact H1|].
    exists [fromCharCode (LastChar st)]. split; [reflexivity|]. split; [discriminate|].
    constructor; [apply digit_or_dot_text_char, Hc | constructor].
Qed.

Lemma gettok_comment_loop_frame fuel : forall st,
  partially (gettok_comment_loop fuel) st (fun _ st' =>
    lexer_frame st st' /\ lookahead_ok st').
Proof.
  induction fuel as [|f IH]; intros st; [exact I|].
  simpl. apply partially_advance. intros c st1 H1 Hok Hid.
  destruct (negb (c =? EOF) && negb (c =? 10) && negb (c =? 13))%bool.
  - eapply partially_conseq; [apply IH|]. cbv beta.
    intros _ st' [H2 H3]. split; [|exact H3].
    eapply lexer_frame_trans; [exact H1 | exact H2].
  - par_step. split; [exact H1 | exact Hok].
Qed.

Lemma gettok_tail_frame st :
  partially gettok_tail st (fun tok st' =>
    lexer_frame st st' /\
    ((tok = tok_eof /\ LastChar st' = EOF) \/
     (tok = LastChar st /\ LastChar st <> EOF))).
Proof.
  unfold gettok_tail. par_step. destruct (Z.eqb_spec (LastChar st) EOF) as [E|E].
  - par_step. split; [apply lexer_frame_refl|]. left. split; [reflexivity | exact E].
  - apply partially_advance. intros c st1 H1 _ Hid. par_step.
    split; [exact H1|]. right. split; [reflexivity | exact E].
Qed.

Lemma lexer_frame_ok st st' :
  lexer_frame st st' -> lookahead_ok st -> lookahead_ok st'.
Proof. intros (_ & _ & _ & _ & H). exact H. Qed.

Lemma gettok_frame fuel : forall st,
  partially (gettok fuel) st (fun tok st' =>
    lexer_frame st st' /\ (lookahead_ok st -> token_ok tok st')).
Proof.
  induction fuel as [|f IH]; intros st; [exact I|].
  simpl. apply partially_bind. eapply partially_conseq.
  { apply partially_and;
      [apply gettok_skip_whitespace_frame | apply gettok_skip_whitespace_stops]. }
  cbv beta. intros _ st1 [H1 Hspace].
  par_step.
  destruct (isalpha (LastChar st1)) eqn:Ealpha.
  { par_step. par_call gettok_identifier_loop_frame.
    simpl. intros _ st2 [H2 (more & H3 & H4)]. par_step.
    assert (lexer_frame st st2) as Hfr.
    { eapply lexer_frame_trans; [exact H1|]. exact H2. }
    assert (word (IdentifierStr st2)) as Hword.
    { exists (fromCharCode (LastChar st1)), more. split; [exact H3|].
      split; [exact Ealpha | exact H4]. }
    unfold jsstring_eqb.
    case_bool_decide as Ed.
    { par_step. split; [exact Hfr|]. intros _. right. left.
      split; [reflexivity | exact Ed]. }
    case_bool_decide as Ee.
    { par_step. split; [exact Hfr|]. intros _. right. right. left.
      split; [reflexivity | exact Ee]. }
    par_step. split; [exact Hfr|]. intros _. right. right. right. left.
    split; [reflexivity|]. split; [exact Hword|]. split; [exact Ed | exact Ee]. }
  fold (digit_or_dot (LastChar st1)).
  destruct (digit_or_dot (LastChar st1)) eqn:Enum.
  { par_call gettok_number_loop_frame; [exact Enum|].
    intros NumStr st2 [H2 (text & H3 & H4 & H5)]. do 2 par_step.
    split.
    { eapply lexer_frame_trans; [exact H1|]. exact H2. }
    intros _. right. right. right. right. left. split; [reflexivity|].
    exists text. simpl in H3. subst NumStr. auto. }
  destruct (Z.eqb_spec (LastChar st1) (toCharCode (chr "#"))) as [Ehash|Ehash].
  { par_call gettok_comment_loop_frame. intros _ st2 [H2 Hok2]. par_step.
    assert (lexer_frame st st2) as Hfr
      by (eapply lexer_frame_trans; [exact H1 | exact H2]).
    destruct (Z.eqb_spec (LastChar st2) EOF) as [E2|E2]; simpl.
    - eapply partially_conseq; [apply gettok_tail_frame|]. cbv beta.
      intros tok st3 [H3 Htok].
      split; [eapply lexer_frame_trans; [exact Hfr | exact H3]|].
      intros _.
      destruct Htok as [Htok|[_ Htok]]; [left; exact Htok | contradiction].
    - eapply partially_conseq; [apply IH|]. cbv beta.
      intros tok st3 (H3 & Htok). split; [|intros _; exact (Htok Hok2)].
      eapply lexer_frame_trans; [exact Hfr | exact H3]. }
  eapply partially_conseq; [apply gettok_tail_frame|]. cbv beta.
  intros tok st3 [H3 Htok].
  split; [eapply lexer_frame_trans; [exact H1 | exact H3]|].
  intros Hok.
  destruct Htok as [Htok|[-> Htok]]; [left; exact Htok|].
  right. right. right. right. right.
  destruct (lexer_frame_ok _ _ H1 Hok) as [Hge _]. unfold EOF in Htok.
  split; [lia|]. split; [exact Hspace|]. split; [exact Ealpha|].
  split; [exact Enum | exact Ehash].
Qed.

Lemma reads_refl st : reads st st.
Proof. exists []. reflexivity. Qed.

Lemma reads_trans st1 st2 st3 : reads st1 st2 -> reads st2 st3 -> reads st1 st3.
Proof.
  intros [r1 H1] [r2 H2]. exists (r1 ++ r2). rewrite H1, H2. apply app_assoc.
Qed.

Lemma quiet_refl st : quiet st st.
Proof. split; [reflexivity|]. split; [apply reads_refl | reflexivity]. Qed.

Lemma quiet_trans st1 st2 st3 : quiet st1 st2 -> quiet st2 st3 -> quiet st1 st3.
Proof.
  intros (H1 & H2 & H3) (K1 & K2 & K3).
  split; [congruence|]. split; [eapply reads_trans; eassumption | congruence].
Qed.

Lemma quiet_failed st1 st2 st3 : quiet st1 st2 -> failed st2 st3 -> failed st1 st3.
Proof.
  intros (H1 & H2 & H3) (K1 & K2 & msg & K3 & K4).
  split; [congruence|]. split; [eapply reads_trans; eassumption|].
  exists msg. split; [exact K3 | congruence].
Qed.

Lemma failed_quiet st1 st2 st3 : failed st1 st2 -> quiet st2 st3 -> failed st1 st3.
Proof.
  intros (H1 & H2 & msg & H3 & H4) (K1 & K2 & K3).
  split; [congruence|]. split; [eapply reads_trans; eassumption|].
  exists msg. split; [exact H3 | congruence].
Qed.

Lemma lexer_frame_quiet st st' : lexer_frame st st' -> quiet st st'.
Proof. intros (_ & H1 & H2 & H3 & _). split; [exact H1|]. split; assumption. Qed.

Lemma getNextToken_quiet fuel st :
  partially (getNextToken fuel) st (fun tok st' =>
    CurTok st' = tok /\ quiet st st' /\
    (lookahead_ok st -> lookahead_ok st' /\ token_ok tok st')).
Proof.
  unfold getNextToken. par_call gettok_frame. intros tok st1 [H1 H2].
  do 2 par_step. split; [reflexivity|]. split.
  - apply lexer_frame_quiet in H1. exact H1.
  - intros Hok. split; [exact (lexer_frame_ok _ _ H1 Hok) | exact (H2 Hok)].
Qed.

Lemma LogError_failed msg st :
  In msg syntax_errors ->
  partially (LogError msg) st (fun r st' => r = None /\ failed st st').
Proof.
  intros Hin. unfold LogError, console_error. do 2 par_step.
  split; [reflexivity|]. split; [reflexivity|].
  split; [exists []; reflexivity|].
  exists msg. split; [exact Hin | reflexivity].
Qed.

Lemma LogErrorP_failed msg st :
  In msg syntax_errors ->
  partially (LogErrorP msg) st (fun r st' => r = None /\ failed st st').
Proof.
  intros Hin. unfold LogErrorP. par_call LogError_failed; [exact Hin|].
  intros _ st1 [_ H]. par_step. split; [reflexivity | exact H].
Qed.

Lemma GetTokPrecedence_partially st (Q : Z -> state -> Prop) :
  (forall p,
     p = -1 \/ (BinopPrecedence st !! CurTok st = Some p /\ 0 < p) ->
     Q p st) ->
  partially GetTokPrecedence st Q.
Proof.
  intros H. unfold GetTokPrecedence. do 2 par_step.
  destruct (BinopPrecedence st !! CurTok st) as [p|] eqn:E;
    [|par_step; apply H; left; reflexivity].
  destruct (Z.leb_spec p 0); par_step; apply H; [left; reflexivity|].
  right. split; [reflexivity | lia].
Qed.

Ltac in_errors := unfold syntax_errors; simpl; tauto.

Lemma ParseNumberExpr_logged fuel st :
  partially (ParseNumberExpr fuel) st (logged st).
Proof.
  unfold ParseNumberExpr. par_step. par_call getNextToken_quiet.
  intros tok st1 (_ & H & _). par_step. exact H.
Qed.

Lemma parser_logged fuel :
  (forall st, partially (ParseParenExpr fuel) st (logged st)) /\
  (forall st Args, partially (ParseIdentifierExpr_args fuel Args) st (logged st)) /\
  (forall st, partially (ParseIdentifierExpr fuel) st (logged st)) /\
  (forall st, partially (ParsePrimary fuel) st (logged st)) /\
  (forall st ExprPrec LHS,
     partially (ParseBinOpRHS fuel ExprPrec LHS) st (logged st)) /\
  (forall st, partially (ParseExpression fuel) st (logged st)).
Proof.
  induction fuel as [|f (IHparen & IHargs & IHident & IHprim & IHbin & IHexpr)].
  { repeat split; intros; exact I. }
  repeat split.
  - (* ParseParenExpr *)
    intros st. simpl. par_call getNextToken_quiet. intros tok st1 (_ & H1 & _).
    par_call IHexpr. intros [V|] st2 H2; simpl in H2.
    + par_step. destruct (negb _).
      * eapply partially_conseq; [apply LogError_failed; in_errors|]. cbv beta.
        intros r st3 [-> H3]. simpl.
        eauto using quiet_trans, quiet_failed.
      * par_call getNextToken_quiet. intros tok' st3 (_ & H3 & _). par_step.
        simpl. eauto using quiet_trans.
    + par_step. simpl. eauto using quiet_failed.
  - (* ParseIdentifierExpr_args *)
    intros st Args. simpl. par_call IHexpr. intros [Arg|] st1 H1; simpl in H1;
      [|par_step; exact H1].
    par_step. destruct (CurTok st1 =? _); [par_step; exact H1|].
    destruct (negb _).
    + par_call LogError_failed; [in_errors|]. intros r st2 [_ H2]. par_step.
      simpl. eauto using quiet_failed.
    + par_call getNextToken_quiet. intros tok st2 (_ & H2 & _).
      eapply partially_conseq; [apply IHargs|]. cbv beta.
      intros [r|] st3 H3; simpl in *; eauto using quiet_trans, quiet_failed.
  - (* ParseIdentifierExpr *)
    intros st. simpl. par_step. par_call getNextToken_quiet.
    intros tok st1 (_ & H1 & _). par_step.
    destruct (negb _); [par_step; exact H1|].
    par_call getNextToken_quiet. intros tok' st2 (_ & H2 & _). par_step.
    assert (partially (if negb (CurTok st2 =? toCharCode (chr ")"))
                       then ParseIdentifierExpr_args f []
                       else ret (Some [])) st2 (logged st2)) as Hargs.
    { destruct (negb _); [apply IHargs | par_step; apply quiet_refl]. }
    apply partially_bind. eapply partially_conseq; [exact Hargs|]. cbv beta.
    intros [Args|] st3 H3; simpl in H3.
    + par_call getNextToken_quiet. intros tok'' st4 (_ & H4 & _). par_step.
      simpl. eauto using quiet_trans.
    + par_step. simpl. eauto using quiet_trans, quiet_failed.
  - (* ParsePrimary *)
    intros st. simpl. par_step.
    destruct (CurTok st =? tok_identifier); [apply IHident|].
    destruct (CurTok st =? tok_number); [apply ParseNumberExpr_logged|].
    destruct (CurTok st =? toCharCode (chr "(")); [apply IHparen|].
    eapply partially_conseq; [apply LogError_failed; in_errors|]. cbv beta.
    intros r st1 [-> H1]. exact H1.
  - (* ParseBinOpRHS *)
    intros st ExprPrec LHS. simpl.
    apply partially_bind, GetTokPrecedence_partially. intros TokPrec _.
    destruct (TokPrec <? ExprPrec); [par_step; apply quiet_refl|].
    par_step. par_call getNextToken_quiet. intros tok st1 (_ & H1 & _).
    par_call IHprim. intros [RHS|] st2 H2; simpl in H2;
      [|par_step; simpl; eauto using quiet_failed].
    apply partially_bind, GetTokPrecedence_partially. intros NextPrec _.
    assert (partially (if TokPrec <? NextPrec
                       then ParseBinOpRHS f (TokPrec + 1) RHS
                       else ret (Some RHS)) st2 (logged st2)) as Hrhs.
    { destruct (TokPrec <? NextPrec); [apply IHbin | par_step; apply quiet_refl]. }
    apply partially_bind. eapply partially_conseq; [exact Hrhs|]. cbv beta.
    intros [RHS'|] st3 H3; simpl in H3;
      [|par_step; simpl; eauto using quiet_trans, quiet_failed].
    eapply partially_conseq; [apply IHbin|]. cbv beta.
    intros [r|] st4 H4; simpl in *; eauto 6 using quiet_trans, quiet_failed.
  - (* ParseExpression *)
    intros st. simpl. par_call IHprim. intros [LHS|] st1 H1; simpl in H1;
      [|par_step; exact H1].
    eapply partially_conseq; [apply IHbin|]. cbv beta.
    intros [r|] st2 H2; simpl in *; eauto using quiet_trans, quiet_failed.
Qed.

Lemma ParseExpression_logged fuel st :
  partially (ParseExpression fuel) st (logged st).
Proof. apply (parser_logged fuel). Qed.

Lemma ParsePrototype_args_quiet fuel : forall st ArgsNames,
  partially (ParsePrototype_args fuel ArgsNames) st (fun _ st' => quiet st st').
Proof.
  induction fuel as [|f IH]; intros st ArgsNames; [exact I|].
  simpl. par_call getNextToken_quiet. intros tok st1 (_ & H1 & _).
  destruct (tok =? tok_identifier).
  - par_step. eapply partially_conseq; [apply IH|]. cbv beta.
    intros _ st2 H2. eauto using quiet_trans.
  - par_step. exact H1.
Qed.

Lemma ParsePrototype_logged fuel st :
  partially (ParsePrototype fuel) st (logged st).
Proof.
  unfold ParsePrototype. par_step. destruct (negb _).
  { eapply partially_conseq; [apply LogErrorP_failed; in_errors|]. cbv beta.
    intros r st1 [-> H1]. exact H1. }
  par_step. par_call getNextToken_quiet. intros tok st1 (_ & H1 & _). par_step.
  destruct (negb _).
  { eapply partially_conseq; [apply LogErrorP_failed; in_errors|]. cbv beta.
    intros r st2 [-> H2]. simpl. eauto using quiet_failed. }
  par_call ParsePrototype_args_quiet. intros ArgsNames st2 H2. par_step.
  destruct (negb _).
  { eapply partially_conseq; [apply LogErrorP_failed; in_errors|]. cbv beta.
    intros r st3 [-> H3]. simpl. eauto using quiet_trans, quiet_failed. }
  par_call getNextToken_quiet. intros tok' st3 (_ & H3 & _). par_step.
  simpl. eauto using quiet_trans.
Qed.

Lemma ParseDefinition_logged fuel st :
  partially (ParseDefinition fuel) st (logged st).
Proof.
  unfold ParseDefinition. par_call getNextToken_quiet. intros tok st1 (_ & H1 & _).
  par_call ParsePrototype_logged. intros [Proto|] st2 H2; simpl in H2;
    [|par_step; simpl; eauto using quiet_failed].
  par_call ParseExpression_logged. intros [E|] st3 H3; simpl in H3; par_step; simpl;
    eauto using quiet_trans, quiet_failed.
Qed.

Lemma ParseExtern_logged fuel st :
  partially (ParseExtern fuel) st (logged st).
Proof.
  unfold ParseExtern. par_call getNextToken_quiet. intros tok st1 (_ & H1 & _).
  eapply partially_conseq; [apply ParsePrototype_logged|]. cbv beta.
  intros [r|] st2 H2; simpl in *; eauto using quiet_trans, quiet_failed.
Qed.

Lemma ParseTopLevelExpr_logged fuel st :
  partially (ParseTopLevelExpr fuel) st (logged st).
Proof.
  unfold ParseTopLevelExpr. par_call ParseExpression_logged.
  intros [E|] st1 H1; par_step; exact H1.
Qed.

(** The common shape of the three handlers. *)
Lemma handler_reported {A} (parse : M (option A)) (success : string) (fuel : nat) st :
  partially parse st (logged st) ->
  partially (r <- parse ;;
             match r with
             | Some _ => console_error success
             | None => getNextToken fuel ;; ret tt
             end) st (fun _ st' => reported success st st').
Proof.
  intros Hparse. apply partially_bind. eapply partially_conseq; [exact Hparse|].
  cbv beta. intros [a|] st1 H1; simpl in H1.
  - unfold console_error. par_step. destruct H1 as (H1 & H2 & H3).
    split; [exact H1|]. split; [exact H2|].
    exists success. split; [|left; reflexivity]. simpl. rewrite H3. reflexivity.
  - par_call getNextToken_quiet. intros tok st2 (_ & H2 & _). par_step.
    destruct (failed_quiet _ _ _ H1 H2) as (K1 & K2 & msg & K3 & K4).
    split; [exact K1|]. split; [exact K2|].
    exists ("LogError: " ++ msg)%string. split; [exact K4|]. right. exists msg. auto.
Qed.

Lemma HandleDefinition_reported fuel st :
  partially (HandleDefinition fuel) st
            (fun _ st' => reported "Parsed a function definition." st st').
Proof. apply handler_reported, ParseDefinition_logged. Qed.

Lemma HandleExtern_reported fuel st :
  partially (HandleExtern fuel) st
            (fun _ st' => reported "Parsed an extern" st st').
Proof. apply handler_reported, ParseExtern_logged. Qed.

Lemma HandleTopLevelExpression_reported fuel st :
  partially (HandleTopLevelExpression fuel) st
            (fun _ st' => reported "Parsed a top-level expr" st st').
Proof. apply handler_reported, ParseTopLevelExpr_logged. Qed.

Lemma token_ok_identifier st :
  token_ok tok_identifier st -> identifier (IdentifierStr st).
Proof.
  intros [[H _]|[[H _]|[[H _]|[[_ H]|[[H _]|[H _]]]]]];
    try discriminate H; [exact H | unfold tok_identifier in H; lia].
Qed.

Lemma token_ok_number st :
  token_ok tok_number st -> number_literal (NumVal st).
Proof.
  intros [[H _]|[[H _]|[[H _]|[[H _]|[[_ H]|[H _]]]]]];
    try discriminate H; [exact H | unfold tok_number in H; lia].
Qed.

Lemma getNextToken_inv table fuel st :
  parser_inv table st ->
  partially (getNextToken fuel) st (fun tok st' =>
    parser_inv table st' /\ CurTok st' = tok).
Proof.
  intros (Ht & Hok & _).
  eapply partially_conseq; [apply getNextToken_quiet|]. cbv beta.
  intros tok st' (Hc & (Hq & _) & H). destruct (H Hok) as [Hok' Htok].
  split; [|exact Hc]. split; [congruence|]. split; [exact Hok'|].
  rewrite Hc. exact Htok.
Qed.

Lemma LogError_inv table msg st :
  parser_inv table st ->
  partially (LogError msg) st (fun r st' => r = None /\ parser_inv table st').
Proof.
  intros H. unfold LogError, console_error. do 2 par_step.
  split; [reflexivity | exact H].
Qed.

Lemma LogErrorP_inv table msg st :
  parser_inv table st ->
  partially (LogErrorP msg) st (fun r st' => r = None /\ parser_inv table st').
Proof.
  intros H. unfold LogErrorP. par_call LogError_inv; [exact H|].
  intros _ st1 [_ H1]. par_step. split; [reflexivity | exact H1].
Qed.

Lemma sound_None {A} table (ok : A -> Prop) st :
  parser_inv table st -> sound table ok None st.
Proof. intros H. split; [exact H | discriminate]. Qed.

Lemma sound_Some {A} table (ok : A -> Prop) a st :
  parser_inv table st -> ok a -> sound table ok (Some a) st.
Proof. intros H Ha. split; [exact H|]. intros a' E. injection E as <-. exact Ha. Qed.

Lemma args_ok_app table Args Arg :
  fold_right (fun a acc => ast_ok table a /\ acc) True Args ->
  ast_ok table Arg ->
  fold_right (fun a acc => ast_ok table a /\ acc) True (Args ++ [Arg]).
Proof.
  induction Args as [|a Args IH]; simpl; [tauto|].
  intros [Ha HArgs] HArg. split; [exact Ha | apply IH; assumption].
Qed.

Lemma ParseNumberExpr_sound table fuel st :
  parser_inv table st -> CurTok st = tok_number ->
  partially (ParseNumberExpr fuel) st (sound table (ast_ok table)).
Proof.
  intros Hinv Hcur. unfold ParseNumberExpr. par_step.
  par_call getNextToken_inv; [exact Hinv|]. intros tok st1 [H1 _]. par_step.
  apply sound_Some; [exact H1|]. simpl.
  destruct Hinv as (_ & _ & Htok). rewrite Hcur in Htok.
  apply token_ok_number, Htok.
Qed.

Lemma parser_sound table fuel :
  (forall st, parser_inv table st ->
     partially (ParseParenExpr fuel) st (sound table (ast_ok table))) /\
  (forall st Args, parser_inv table st ->
     fold_right (fun a acc => ast_ok table a /\ acc) True Args ->
     partially (ParseIdentifierExpr_args fuel Args) st
       (sound table (fold_right (fun a acc => ast_ok table a /\ acc) True))) /\
  (forall st, parser_inv table st -> CurTok st = tok_identifier ->
     partially (ParseIdentifierExpr fuel) st (sound table (ast_ok table))) /\
  (forall st, parser_inv table st ->
     partially (ParsePrimary fuel) st (sound table (ast_ok table))) /\
  (forall st ExprPrec LHS, parser_inv table st -> 0 <= ExprPrec ->
     ast_ok table LHS ->
     partially (ParseBinOpRHS fuel ExprPrec LHS) st (sound table (ast_ok table))) /\
  (forall st, parser_inv table st ->
     partially (ParseExpression fuel) st (sound table (ast_ok table))).
Proof.
  induction fuel as [|f (IHparen & IHargs & IHident & IHprim & IHbin & IHexpr)].
  { repeat split; intros; exact I. }
  repeat split.
  - (* ParseParenExpr *)
    intros st Hinv. simpl. par_call getNextToken_inv; [exact Hinv|].
    intros tok st1 [H1 _]. par_call IHexpr; [exact H1|].
    intros [V|] st2 [H2 HV]; [|par_step; apply sound_None, H2].
    par_step. destruct (negb _).
    + eapply partially_conseq; [apply LogError_inv, H2|]. cbv beta.
      intros r st3 [-> H3]. apply sound_None, H3.
    + par_call getNextToken_inv; [exact H2|]. intros tok' st3 [H3 _]. par_step.
      apply sound_Some; [exact H3 | apply HV; reflexivity].
  - (* ParseIdentifierExpr_args *)
    intros st Args Hinv HArgs. simpl. par_call IHexpr; [exact Hinv|].
    intros [Arg|] st1 [H1 HArg]; [|par_step; apply sound_None, H1].
    assert (fold_right (fun a acc => ast_ok table a /\ acc) True (Args ++ [Arg]))
      as HArgs' by (apply args_ok_app; [exact HArgs | apply HArg; reflexivity]).
    par_step. destruct (CurTok st1 =? _); [par_step; apply sound_Some; assumption|].
    destruct (negb _).
    + par_call LogError_inv; [exact H1|]. intros r st2 [_ H2]. par_step.
      apply sound_None, H2.
    + par_call getNextToken_inv; [exact H1|]. intros tok st2 [H2 _].
      apply IHargs; assumption.
  - (* ParseIdentifierExpr *)
    intros st Hinv Hcur. simpl. par_step.
    assert (identifier (IdentifierStr st)) as Hid.
    { destruct Hinv as (_ & _ & Htok). rewrite Hcur in Htok.
      apply token_ok_identifier, Htok. }
    par_call getNextToken_inv; [exact Hinv|]. intros tok st1 [H1 _]. par_step.
    destruct (negb _); [par_step; apply sound_Some; assumption|].
    par_call getNextToken_inv; [exact H1|]. intros tok' st2 [H2 _]. par_step.
    assert (partially (if negb (CurTok st2 =? toCharCode (chr ")"))
                       then ParseIdentifierExpr_args f []
                       else ret (Some [])) st2
              (sound table (fold_right (fun a acc => ast_ok table a /\ acc) True)))
      as Hargs.
    { destruct (negb _); [apply IHargs; [exact H2 | exact I]|].
      par_step. apply sound_Some; [exact H2 | exact I]. }
    apply partially_bind. eapply partially_conseq; [exact Hargs|]. cbv beta.
    intros [Args|] st3 [H3 HArgs]; [|par_step; apply sound_None, H3].
    par_call getNextToken_inv; [exact H3|]. intros tok'' st4 [H4 _]. par_step.
    apply sound_Some; [exact H4|]. split; [exact Hid | apply HArgs; reflexivity].
  - (* ParsePrimary *)
    intros st Hinv. simpl. par_step.
    destruct (Z.eqb_spec (CurTok st) tok_identifier) as [E|_];
      [apply IHident; assumption|].
    destruct (Z.eqb_spec (CurTok st) tok_number) as [E|_];
      [apply ParseNumberExpr_sound; assumption|].
    destruct (CurTok st =? toCharCode (chr "(")); [apply IHparen, Hinv|].
    eapply partially_conseq; [apply LogError_inv, Hinv|]. cbv beta.
    intros r st1 [-> H1]. apply sound_None, H1.
  - (* ParseBinOpRHS *)
    intros st ExprPrec LHS Hinv Hprec HLHS. simpl.
    apply partially_bind, GetTokPrecedence_partially. intros TokPrec HTok.
    destruct (Z.ltb_spec TokPrec ExprPrec) as [_|Hge];
      [par_step; apply sound_Some; assumption|].
    assert (exists p, table !! CurTok st = Some p /\ 0 < p) as Hop.
    { destruct HTok as [->|[HTok Hpos]]; [lia|].
      exists TokPrec. destruct Hinv as (<- & _). auto. }
    par_step. par_call getNextToken_inv; [exact Hinv|]. intros tok st1 [H1 _].
    par_call IHprim; [exact H1|].
    intros [RHS|] st2 [H2 HRHS]; [|par_step; apply sound_None, H2].
    apply partially_bind, GetTokPrecedence_partially. intros NextPrec _.
    assert (partially (if TokPrec <? NextPrec
                       then ParseBinOpRHS f (TokPrec + 1) RHS
                       else ret (Some RHS)) st2 (sound table (ast_ok table)))
      as Hrhs.
    { destruct (TokPrec <? NextPrec);
        [apply IHbin; [exact H2 | lia | apply HRHS; reflexivity]|].
      par_step. apply sound_Some; [exact H2 | apply HRHS; reflexivity]. }
    apply partially_bind. eapply partially_conseq; [exact Hrhs|]. cbv beta.
    intros [RHS'|] st3 [H3 HRHS']; [|par_step; apply sound_None, H3].
    apply IHbin; [exact H3 | exact Hprec|].
    simpl. split; [exact Hop|]. split; [exact HLHS | apply HRHS'; reflexivity].
  - (* ParseExpression *)
    intros st Hinv. simpl. par_call IHprim; [exact Hinv|].
    intros [LHS|] st1 [H1 HLHS]; [|par_step; apply sound_None, H1].
    apply IHbin; [exact H1 | lia | apply HLHS; reflexivity].
Qed.

Lemma ParseExpression_sound table fuel st :
  parser_inv table st ->
  partially (ParseExpression fuel) st (sound table (ast_ok table)).
Proof. apply (parser_sound table fuel). Qed.

Lemma ParsePrototype_args_sound table fuel : forall st ArgsNames,
  parser_inv table st -> Forall identifier ArgsNames ->
  partially (ParsePrototype_args fuel ArgsNames) st (fun r st' =>
    parser_inv table st' /\ Forall identifier r).
Proof.
  induction fuel as [|f IH]; intros st ArgsNames Hinv Hargs; [exact I|].
  simpl. par_call getNextToken_inv; [exact Hinv|]. intros tok st1 [H1 Htok].
  destruct (Z.eqb_spec tok tok_identifier) as [E|_].
  - par_step. apply IH; [exact H1|].
    apply Forall_app. split; [exact Hargs|]. constructor; [|constructor].
    destruct H1 as (_ & _ & H1). rewrite Htok, E in H1.
    apply token_ok_identifier, H1.
  - par_step. split; assumption.
Qed.

Lemma ParsePrototype_sound table fuel st :
  parser_inv table st ->
  partially (ParsePrototype fuel) st (sound table proto_ok).
Proof.
  intros Hinv. unfold ParsePrototype. par_step.
  destruct (Z.eqb_spec (CurTok st) tok_identifier) as [E|_]; simpl.
  2:{ eapply partially_conseq; [apply LogErrorP_inv, Hinv|]. cbv beta.
      intros r st1 [-> H1]. apply sound_None, H1. }
  assert (identifier (IdentifierStr st)) as Hid.
  { destruct Hinv as (_ & _ & Htok). rewrite E in Htok.
    apply token_ok_identifier, Htok. }
  par_step. par_call getNextToken_inv; [exact Hinv|]. intros tok st1 [H1 _].
  par_step. destruct (negb _).
  { eapply partially_conseq; [apply LogErrorP_inv, H1|]. cbv beta.
    intros r st2 [-> H2]. apply sound_None, H2. }
  par_call ParsePrototype_args_sound; [exact H1 | constructor |].
  intros ArgsNames st2 [H2 Hargs]. par_step. destruct (negb _).
  { eapply partially_conseq; [apply LogErrorP_inv, H2|]. cbv beta.
    intros r st3 [-> H3]. apply sound_None, H3. }
  par_call getNextToken_inv; [exact H2|]. intros tok' st3 [H3 _]. par_step.
  apply sound_Some; [exact H3|]. split; assumption.
Qed.

Lemma ParseDefinition_sound table fuel st :
  parser_inv table st ->
  partially (ParseDefinition fuel) st (sound table (function_ok table)).
Proof.
  intros Hinv. unfold ParseDefinition.
  par_call getNextToken_inv; [exact Hinv|]. intros tok st1 [H1 _].
  par_call ParsePrototype_sound; [exact H1|].
  intros [Proto|] st2 [H2 HP]; [|par_step; apply sound_None, H2].
  par_call ParseExpression_sound; [exact H2|].
  intros [E|] st3 [H3 HE]; par_step; [|apply sound_None, H3].
  apply sound_Some; [exact H3|]. split; [apply HP | apply HE]; reflexivity.
Qed.

Lemma ParseExtern_sound table fuel st :
  parser_inv table st ->
  partially (ParseExtern fuel) st (sound table proto_ok).
Proof.
  intros Hinv. unfold ParseExtern.
  par_call getNextToken_inv; [exact Hinv|]. intros tok st1 [H1 _].
  apply ParsePrototype_sound, H1.
Qed.

Lemma ParseTopLevelExpr_sound table fuel st :
  parser_inv table st ->
  partially (ParseTopLevelExpr fuel) st
    (sound table (fun F => exists E, F = MkFunctionAST (MkPrototypeAST (js "") []) E /\
                                     ast_ok table E)).
Proof.
  intros Hinv. unfold ParseTopLevelExpr.
  par_call ParseExpression_sound; [exact Hinv|].
  intros [E|] st1 [H1 HE]; par_step; [|apply sound_None, H1].
  apply sound_Some; [exact H1|]. exists E. split; [reflexivity | apply HE; reflexivity].
Qed.

(** The common shape of the three handlers, again. *)
Lemma handler_inv {A} table (ok : A -> Prop) (parse : M (option A))
  (success : string) (fuel : nat) st :
  partially parse st (sound table ok) ->
  partially (r <- parse ;;
             match r with
             | Some _ => console_error success
             | None => getNextToken fuel ;; ret tt
             end) st (fun _ st' => parser_inv table st').
Proof.
  intros Hparse. apply partially_bind. eapply partially_conseq; [exact Hparse|].
  cbv beta. intros [a|] st1 [H1 _].
  - unfold console_error. par_step. exact H1.
  - par_call getNextToken_inv; [exact H1|]. intros tok st2 [H2 _]. par_step.
    exact H2.
Qed.

Lemma reported_run_log success st st' :
  In success ["Parsed a function definition."; "Parsed an extern";
              "Parsed a top-level expr"]%string ->
  reported success st st' -> run_log st st'.
Proof.
  intros Hin (H1 & H2 & line & H3 & H4). split; [exact H1|]. split; [exact H2|].
  exists [line]. split; [exact H3|]. constructor; [|constructor].
  destruct H4 as [->|H4]; [left; exact Hin | right; exact H4].
Qed.

Lemma run_log_refl st : run_log st st.
Proof.
  split; [reflexivity|]. split; [apply reads_refl|].
  exists []. split; [rewrite app_nil_r; reflexivity | constructor].
Qed.

Lemma run_log_trans st1 st2 st3 : run_log st1 st2 -> run_log st2 st3 -> run_log st1 st3.
Proof.
  intros (H1 & H2 & l1 & H3 & H4) (K1 & K2 & l2 & K3 & K4).
  split; [congruence|]. split; [eapply reads_trans; eassumption|].
  exists (l1 ++ l2). split; [rewrite K3, H3, app_assoc; reflexivity|].
  apply Forall_app. split; assumption.
Qed.

Lemma quiet_run_log st st' : quiet st st' -> run_log st st'.
Proof.
  intros (H1 & H2 & H3). split; [exact H1|]. split; [exact H2|].
  exists []. split; [rewrite app_nil_r; exact H3 | constructor].
Qed.

Lemma MainLoop_run_log fuel : forall st,
  partially (MainLoop fuel) st (fun _ st' =>
    run_log st st' /\ CurTok st' = tok_eof).
Proof.
  induction fuel as [|f IH]; intros st; [exact I|].
  simpl. par_step.
  destruct (Z.eqb_spec (CurTok st) tok_eof) as [E|_].
  { par_step. split; [apply run_log_refl | exact E]. }
  assert (forall st1, run_log st st1 ->
            partially (MainLoop f) st1 (fun _ st' =>
              run_log st st' /\ CurTok st' = tok_eof)) as Hnext.
  { intros st1 H1. eapply partially_conseq; [apply IH|]. cbv beta.
    intros _ st2 [H2 H3]. split; [eapply run_log_trans; eassumption | exact H3]. }
  destruct (CurTok st =? toCharCode (chr ";")).
  { par_call getNextToken_quiet. intros tok st1 (_ & H1 & _).
    apply Hnext, quiet_run_log, H1. }
  destruct (CurTok st =? tok_def).
  { par_call HandleDefinition_reported. intros _ st1 H1.
    eapply Hnext, reported_run_log; [|exact H1]. simpl; tauto. }
  destruct (CurTok st =? tok_extern).
  { par_call HandleExtern_reported. intros _ st1 H1.
    eapply Hnext, reported_run_log; [|exact H1]. simpl; tauto. }
  par_call HandleTopLevelExpression_reported. intros _ st1 H1.
  eapply Hnext, reported_run_log; [|exact H1]. simpl; tauto.
Qed.

Lemma MainLoop_inv table fuel : forall st,
  parser_inv table st ->
  partially (MainLoop fuel) st (fun _ st' => parser_inv table st').
Proof.
  induction fuel as [|f IH]; intros st Hinv; [exact I|].
  simpl. par_step.
  destruct (CurTok st =? tok_eof); [par_step; exact Hinv|].
  destruct (CurTok st =? toCharCode (chr ";")).
  { par_call getNextToken_inv; [exact Hinv|]. intros tok st1 [H1 _].
    apply IH, H1. }
  destruct (CurTok st =? tok_def).
  { apply partially_bind. eapply partially_conseq.
    { apply (handler_inv table (function_ok table)), ParseDefinition_sound, Hinv. }
    cbv beta. intros _ st1 H1. apply IH, H1. }
  destruct (CurTok st =? tok_extern).
  { apply partially_bind. eapply partially_conseq.
    { apply (handler_inv table proto_ok), ParseExtern_sound, Hinv. }
    cbv beta. intros _ st1 H1. apply IH, H1. }
  apply partially_bind. eapply partially_conseq.
  { eapply handler_inv, ParseTopLevelExpr_sound, Hinv. }
  cbv beta. intros _ st1 H1. apply IH, H1.
Qed.

Lemma lookahead_ok_loaded unset argv : lookahead_ok (loaded unset argv).
Proof.
  destruct unset as [[id0 num0] tok0]. split; simpl; [|discriminate].
  unfold toCharCode. lia.
Qed.

Lemma main_partially fuel unset argv :
  partially (main fuel) (loaded unset argv) (fun status st' =>
    status = 0 /\ parser_inv standard_binops st' /\ CurTok st' = tok_eof /\
    exists lines, console st' = lines /\ Forall diagnostic lines).
Proof.
  unfold main, main_prologue. apply partially_bind, partially_bind.
  unfold partially at 1. rewrite main_install_binops_eq.
  set (st0 := set_BinopPrecedence _ (loaded unset argv)).
  assert (BinopPrecedence st0 = standard_binops) as Ht
    by (destruct unset as [[id0 num0] tok0]; reflexivity).
  assert (lookahead_ok st0) as Hok by exact (lookahead_ok_loaded unset argv).
  assert (console st0 = []) as Hcon
    by (destruct unset as [[id0 num0] tok0]; reflexivity).
  par_call getNextToken_quiet. intros tok st1 (Hc & (H1 & _ & H2) & H3).
  destruct (H3 Hok) as [Hok1 Htok]. par_step.
  assert (parser_inv standard_binops st1) as Hinv.
  { split; [congruence|]. split; [exact Hok1|]. rewrite Hc. exact Htok. }
  apply partially_bind. eapply partially_conseq.
  { apply partially_and; [apply MainLoop_run_log | apply MainLoop_inv, Hinv]. }
  cbv beta. intros _ st2 [[(_ & _ & lines & K1 & K2) K3] K4]. par_step.
  split; [reflexivity|]. split; [exact K4|]. split; [exact K3|].
  exists lines. split; [|exact K2]. rewrite K1, H2, Hcon. reflexivity.
Qed.

Lemma returns_partially {A} (m : M A) st (P Q : A -> state -> Prop) :
  returns m st P -> partially m st Q ->
  returns m st (fun a st' => P a st' /\ Q a st').
Proof.
  intros (a & st' & E & HP) HQ. exists a, st'. split; [exact E|].
  split; [exact HP | exact (partially_elim _ _ _ _ _ HQ E)].
Qed.

Lemma isalpha_not_space c : isalpha c = true -> isspace c = false.
Proof.
  unfold isalpha, isspace, in_range. generalize (fromCharCode c). intros u H.
  change (chr "a") with 97%N in H. change (chr "z") with 122%N in H.
  change (chr "A") with 65%N in H. change (chr "Z") with 90%N in H.
  change (chr " ") with 32%N.
  assert (65 <= u)%N as Hu.
  { apply orb_true_iff in H. destruct H as [H|H];
      apply andb_true_iff in H; destruct H as [H _]; apply N.leb_le in H; lia. }
  repeat (apply orb_false_iff; split); apply N.eqb_neq; lia.
Qed.

Lemma isalpha_isalnum c : isalnum c = (isalpha c || isdigit c)%bool.
Proof. reflexivity. Qed.

Lemma isalpha_not_digit c : isalpha c = true -> isdigit c = false.
Proof.
  unfold isalpha, isdigit, in_range. generalize (fromCharCode c). intros u H.
  change (chr "a") with 97%N in H. change (chr "z") with 122%N in H.
  change (chr "A") with 65%N in H. change (chr "Z") with 90%N in H.
  change (chr "0") with 48%N. change (chr "9") with 57%N.
  assert (65 <= u)%N as Hu.
  { apply orb_true_iff in H. destruct H as [H|H];
      apply andb_true_iff in H; destruct H as [H _]; apply N.leb_le in H; lia. }
  apply andb_false_iff. right. apply N.leb_gt. lia.
Qed.

Lemma isdigit_not_space c : isdigit c = true -> isspace c = false.
Proof.
  intros H. apply (digit_or_dot_not_space_nor_alpha c).
  unfold digit_or_dot. rewrite H. reflexivity.
Qed.

Lemma getchar_times_spec n : forall st,
  getchar_times n st =
  Some (map toCharCode (take n (stream st)) ++ repeat EOF (n - length (stream st)),
        set_stream (drop n (stream st)) st).
Proof.
  induction n as [|n IH]; intros st.
  - simpl. unfold ret. destruct st; reflexivity.
  - simpl. unfold bind. destruct (stream st) as [|x rest] eqn:Es.
    + rewrite (getchar_nil st Es), IH, Es. simpl.
      replace (n - 0)%nat with n by lia. rewrite drop_nil, take_nil. simpl.
      reflexivity.
    + rewrite (getchar_cons x rest st Es), IH. simpl. unfold ret. reflexivity.
Qed.

Lemma gettok_skip_whitespace_run (ws : list jschar) :
  forall fuel st rest,
    isspace (LastChar st) = true ->
    stream st = ws ++ rest ->
    Forall (fun c => isspace (toCharCode c) = true) ws ->
    isspace (lookahead_of rest) = false ->
    (length ws + 2 <= fuel)%nat ->
    gettok_skip_whitespace fuel st =
    Some (tt, set_LastChar (lookahead_of rest) (set_stream (tl rest) st)).
Proof.
  induction ws as [|c ws IH]; intros fuel st rest Hc Hs Hws Hrest Hf;
    (destruct fuel as [|f]; [simpl in Hf; lia|]); apply returns_eq; simpl;
    simpl in Hs.
  - ret_step. rewrite Hc. eapply advance_to; [exact Hs|].
    apply returns_eq. destruct f as [|f]; [simpl in Hf; lia|].
    apply gettok_skip_whitespace_done. exact Hrest.
  - ret_step. rewrite Hc. eapply advance_to; [exact Hs|].
    inversion Hws as [|? ? Hc' Hws']; subst.
    apply returns_eq. simpl.
    rewrite (IH f _ rest); [reflexivity | exact Hc' | reflexivity | exact Hws'
                           | exact Hrest | simpl in Hf; lia].
Qed.

Lemma gettok_identifier_loop_run (run : list jschar) :
  forall fuel st rest,
    stream st = run ++ rest ->
    Forall (fun c => isalnum (toCharCode c) = true) run ->
    isalnum (lookahead_of rest) = false ->
    (length run + 1 <= fuel)%nat ->
    gettok_identifier_loop fuel st =
    Some (tt, set_IdentifierStr
                (IdentifierStr st ++ map (fun c => fromCharCode (toCharCode c)) run)
                (set_LastChar (lookahead_of rest) (set_stream (tl rest) st))).
Proof.
  induction run as [|c run IH]; intros fuel st rest Hs Hrun Hrest Hf;
    (destruct fuel as [|f]; [simpl in Hf; lia|]); apply returns_eq; simpl;
    simpl in Hs.
  - eapply advance_to; [exact Hs|]. rewrite Hrest. ret_step.
    split; [reflexivity|]. rewrite app_nil_r. destruct st; reflexivity.
  - eapply advance_to; [exact Hs|].
    inversion Hrun as [|? ? Hc Hrun']; subst.
    change (lookahead_of (c :: run ++ rest)) with (toCharCode c). rewrite Hc.
    do 2 ret_step. apply returns_eq.
    rewrite (IH f _ rest); [| reflexivity | assumption.. | simpl in Hf; lia].
    simpl. rewrite <- app_assoc. reflexivity.
Qed.

Lemma bind_eq {A B} (m : M A) (k : A -> M B) st a st1 :
  m st = Some (a, st1) -> bind m k st = k a st1.
Proof. intros H. unfold bind. rewrite H. reflexivity. Qed.

Lemma gettok_word
  (st : state) (run rest : list jschar) (fuel : nat) :
  isalpha (LastChar st) = true ->
  stream st = run ++ rest ->
  Forall (fun c => isalnum (toCharCode c) = true) run ->
  isalnum (lookahead_of rest) = false ->
  (length run + 3 <= fuel)%nat ->
  gettok fuel st =
  Some (word_token (fromCharCode (LastChar st)
                      :: map (fun c => fromCharCode (toCharCode c)) run),
        set_IdentifierStr
          (fromCharCode (LastChar st)
             :: map (fun c => fromCharCode (toCharCode c)) run)
          (set_LastChar (lookahead_of rest) (set_stream (tl rest) st))).
Proof.
  intros Hc Hs Hrun Hrest Hf.
  destruct fuel as [|[|f]]; [lia | simpl in Hf; lia |].
  cbn [gettok].
  rewrite (bind_eq _ _ st tt st
             (gettok_skip_whitespace_done f st (isalpha_not_space _ Hc))).
  rewrite (bind_eq (read LastChar) _ st (LastChar st) st eq_refl).
  rewrite Hc.
  rewrite (bind_eq (write _) _ st tt _ eq_refl).
  rewrite (bind_eq _ _ _ tt _
             (gettok_identifier_loop_run run (S f)
                (set_IdentifierStr [fromCharCode (LastChar st)] st) rest
                Hs Hrun Hrest ltac:(lia))).
  rewrite (bind_eq (read IdentifierStr) _ _ _ _ eq_refl).
  unfold word_token. simpl.
  repeat match goal with |- context [jsstring_eqb ?a ?b] =>
    destruct (jsstring_eqb a b) end; reflexivity.
Qed.

Lemma example_state_inv : parser_inv standard_binops example_state.
Proof.
  split; [reflexivity|]. split.
  - split; [unfold example_state, toCharCode; simpl; lia | discriminate].
  - right. right. right. left. split; [reflexivity|].
    split; [|split; discriminate].
    exists (chr "x"), []. split; [reflexivity|]. split; [reflexivity | constructor].
Qed.

Lemma gettok_punctuation (st : state) (fuel : nat) :
  punctuation (LastChar st) ->
  (2 <= fuel)%nat ->
  gettok fuel st =
  Some (LastChar st,
        set_LastChar (lookahead_of (stream st)) (set_stream (tl (stream st)) st)).
Proof.
  intros (Hspace & Halpha & Hnum & Hhash & Heof) Hf.
  destruct fuel as [|[|f]]; [lia | lia |].
  cbn [gettok].
  rewrite (bind_eq _ _ st tt st (gettok_skip_whitespace_done f st Hspace)).
  rewrite (bind_eq (read LastChar) _ st (LastChar st) st eq_refl).
  rewrite Halpha. fold (digit_or_dot (LastChar st)). rewrite Hnum.
  apply Z.eqb_neq in Hhash, Heof. rewrite Hhash.
  apply returns_eq. unfold gettok_tail. ret_step. rewrite Heof.
  eapply advance_to; [reflexivity|]. ret_step. split; reflexivity.
Qed.

Lemma standard_binops_operator (op : jschar) (p : Z) :
  standard_binops !! toCharCode op = Some p ->
  (op = chr "<" /\ p = 10) \/ (op = chr "+" /\ p = 20) \/
  (op = chr "-" /\ p = 30) \/ (op = chr "*" /\ p = 40).
Proof.
  intros H. apply standard_binops_lookup in H.
  destruct H as [[E ->]|[[E ->]|[[E ->]|[E ->]]]];
    apply toCharCode_inj in E; subst op; tauto.
Qed.

(** One operator and its operand: from [chain_state op (S k)] the two
    calls of [getNextToken] that [ParseBinOpRHS] and [ParseNumberExpr] make
    lead to [chain_state op k]. *)
Lemma chain_getNextToken_operand op p k id con fuel :
  standard_binops !! toCharCode op = Some p ->
  (3 <= fuel)%nat ->
  getNextToken fuel (chain_state op (S k) id con) =
  Some (tok_number,
        {| stream := tl (chain_text op k);
           LastChar := lookahead_of (chain_text op k);
           IdentifierStr := id; NumVal := round_decimal 1 0;
           CurTok := tok_number;
           BinopPrecedence := standard_binops; console := con |}).
Proof.
  intros Hop Hf. unfold getNextToken.
  rewrite (bind_eq _ _ _ _ _
             (gettok_number [] (chain_text op k) fuel (chain_state op (S k) id con)
                eq_refl eq_refl ltac:(constructor)
                ltac:(apply standard_binops_operator in Hop;
                      destruct Hop as [[-> _]|[[-> _]|[[-> _]|[-> _]]]];
                      destruct k; reflexivity)
                ltac:(simpl; lia))).
  reflexivity.
Qed.

Lemma chain_getNextToken_operator op p k id con fuel :
  standard_binops !! toCharCode op = Some p ->
  (2 <= fuel)%nat ->
  getNextToken fuel
    {| stream := tl (chain_text op k);
       LastChar := lookahead_of (chain_text op k);
       IdentifierStr := id; NumVal := round_decimal 1 0;
       CurTok := tok_number;
       BinopPrecedence := standard_binops; console := con |} =
  Some (CurTok (chain_state op k id con), chain_state op k id con).
Proof.
  intros Hop Hf. unfold getNextToken. destruct k as [|k].
  - match goal with |- bind _ _ ?s = _ =>
      rewrite (bind_eq _ _ s _ _ (gettok_at_EOF fuel s eq_refl Hf))
    end.
    reflexivity.
  - assert (punctuation (toCharCode op)) as Hpunct.
    { apply standard_binops_operator in Hop.
      destruct Hop as [[-> _]|[[-> _]|[[-> _]|[-> _]]]];
        repeat split; discriminate. }
    match goal with |- bind _ _ ?s = _ =>
      rewrite (bind_eq _ _ s _ _ (gettok_punctuation s fuel Hpunct Hf))
    end.
    reflexivity.
Qed.

Lemma chain_GetTokPrecedence op p k id con :
  standard_binops !! toCharCode op = Some p ->
  GetTokPrecedence (chain_state op k id con) =
  Some (match k with O => -1 | S _ => p end, chain_state op k id con).
Proof.
  intros Hop. unfold GetTokPrecedence, bind, read. destruct k as [|k]; simpl.
  - reflexivity.
  - rewrite Hop. apply standard_binops_operator in Hop.
    destruct Hop as [[_ ->]|[[_ ->]|[[_ ->]|[_ ->]]]]; reflexivity.
Qed.

Lemma chain_ParsePrimary op p k id con fuel :
  standard_binops !! toCharCode op = Some p ->
  (3 <= fuel)%nat ->
  ParsePrimary fuel
    {| stream := tl (chain_text op k);
       LastChar := lookahead_of (chain_text op k);
       IdentifierStr := id; NumVal := round_decimal 1 0;
       CurTok := tok_number;
       BinopPrecedence := standard_binops; console := con |} =
  Some (Some (NumberExprAST (round_decimal 1 0)), chain_state op k id con).
Proof.
  intros Hop Hf. destruct fuel as [|f]; [lia|]. cbn [ParsePrimary].
  rewrite (bind_eq (read CurTok) _ _ _ _ eq_refl).
  cbv beta. cbn [CurTok].
  change (tok_number =? tok_identifier) with false.
  change (tok_number =? tok_number) with true. cbv iota.
  unfold ParseNumberExpr.
  rewrite (bind_eq (read NumVal) _ _ _ _ eq_refl).
  cbv beta zeta. cbn [NumVal].
  rewrite (bind_eq _ _ _ _ _
             (chain_getNextToken_operator op p k id con f Hop ltac:(lia))).
  reflexivity.
Qed.

Lemma chain_ParseBinOpRHS op p id con (k : nat) :
  forall (fuel : nat) (ExprPrec : Z) (LHS : ExprAST),
    standard_binops !! toCharCode op = Some p ->
    0 <= ExprPrec <= p ->
    (k + 5 <= fuel)%nat ->
    ParseBinOpRHS fuel ExprPrec LHS (chain_state op k id con) =
    Some (Some (chain_ast (toCharCode op) k LHS), chain_state op 0 id con).
Proof.
  induction k as [|k IH]; intros fuel ExprPrec LHS Hop Hprec Hf;
    (destruct fuel as [|f]; [lia|]); cbn [ParseBinOpRHS].
  - rewrite (bind_eq _ _ _ _ _ (chain_GetTokPrecedence op p 0 id con Hop)).
    destruct (Z.ltb_spec (-1) ExprPrec); [reflexivity | lia].
  - rewrite (bind_eq _ _ _ _ _ (chain_GetTokPrecedence op p (S k) id con Hop)).
    destruct (Z.ltb_spec p ExprPrec); [lia|].
    rewrite (bind_eq (read CurTok) _ _ _ _ eq_refl). cbv beta.
    rewrite (bind_eq _ _ _ _ _
               (chain_getNextToken_operand op p k id con f Hop ltac:(lia))).
    rewrite (bind_eq _ _ _ _ _
               (chain_ParsePrimary op p k id con f Hop ltac:(lia))).
    rewrite (bind_eq _ _ _ _ _ (chain_GetTokPrecedence op p k id con Hop)).
    assert ((p <? match k with O => -1 | S _ => p end) = false) as ->.
    { destruct k; apply Z.ltb_ge; lia. }
    rewrite (bind_eq (ret _) _ _ _ _ eq_refl).
    apply (IH f ExprPrec); [exact Hop | exact Hprec | lia].
Qed.

Lemma gettok_after_whitespace
  (st : state) (ws rest : list jschar) (fuel : nat) :
  isspace (LastChar st) = true ->
  stream st = ws ++ rest ->
  Forall (fun c => isspace (toCharCode c) = true) ws ->
  isspace (lookahead_of rest) = false ->
  (length ws + 3 <= fuel)%nat ->
  gettok fuel st =
  gettok fuel (set_LastChar (lookahead_of rest) (set_stream (tl rest) st)).
Proof.
  intros Hc Hs Hws Hrest Hf. destruct fuel as [|[|f]]; [lia | simpl in Hf; lia |].
  cbn [gettok].
  rewrite (bind_eq _ _ st tt _
             (gettok_skip_whitespace_run ws (S f) st rest Hc Hs Hws Hrest
                ltac:(lia))).
  rewrite (bind_eq _ _ _ tt _
             (gettok_skip_whitespace_done f
                (set_LastChar (lookahead_of rest) (set_stream (tl rest) st))
                Hrest)).
  reflexivity.
Qed.

Lemma blank_advance {B} (k : Z -> M B) st Q :
  blank_state st ->
  (forall c st1,
     blank_state (set_LastChar c st1) ->
     console st1 = console st ->
     partially (k c) (set_LastChar c st1) Q) ->
  partially (c <- getchar ;; write (set_LastChar c) ;; k c) st Q.
Proof.
  intros [Hs _] H. apply partially_bind. unfold partially at 1, getchar.
  destruct (stream st) as [|x rest] eqn:Es.
  - par_step. apply H; [|reflexivity]. split; [simpl; rewrite Es; constructor|].
    right. right. reflexivity.
  - par_step. apply H; [|reflexivity]. inversion Hs as [|? ? Hx Hrest]; subst.
    split; [exact Hrest|]. destruct Hx as [Hx| ->]; [left; exact Hx|].
    right. left. reflexivity.
Qed.

Lemma blank_skip_whitespace fuel : forall st,
  blank_state st ->
  partially (gettok_skip_whitespace fuel) st (fun _ st' =>
    blank_state st' /\ isspace (LastChar st') = false /\
    console st' = console st).
Proof.
  induction fuel as [|f IH]; intros st Hb; [exact I|].
  simpl. par_step. destruct (isspace (LastChar st)) eqn:E.
  - apply blank_advance; [exact Hb|]. intros c st1 Hb1 Hc.
    eapply partially_conseq; [apply IH, Hb1|]. cbv beta.
    intros _ st' (H1 & H2 & H3). split; [exact H1|]. split; [exact H2|].
    rewrite H3. exact Hc.
  - par_step. split; [exact Hb|]. split; [exact E | reflexivity].
Qed.

Lemma blank_gettok fuel st :
  blank_state st ->
  partially (gettok fuel) st (fun tok st' =>
    blank_state st' /\
    (tok = toCharCode (chr ";") \/ tok = tok_eof) /\
    console st' = console st).
Proof.
  intros Hb. destruct fuel as [|f]; [exact I|]. cbn [gettok].
  par_call blank_skip_whitespace; [exact Hb|].
  intros _ st1 (Hb1 & Hspace & Hc1). par_step.
  destruct Hb1 as [Hs1 [Hl|[Hl|Hl]]]; [congruence | |]; rewrite Hl.
  - change (isalpha (toCharCode (chr ";"))) with false.
    change (isdigit (toCharCode (chr ";")) ||
            (toCharCode (chr ";") =? toCharCode (chr ".")))%bool with false.
    change (toCharCode (chr ";") =? toCharCode (chr "#")) with false.
    cbv iota. unfold gettok_tail. par_step. rewrite Hl.
    change (toCharCode (chr ";") =? EOF) with false. cbv iota.
    apply blank_advance; [split; [exact Hs1 | right; left; exact Hl]|].
    intros c st2 Hb2 Hc2. par_step. split; [exact Hb2|].
    split; [left; reflexivity|]. simpl. congruence.
  - change (isalpha EOF) with false.
    change (isdigit EOF || (EOF =? toCharCode (chr ".")))%bool with false.
    change (EOF =? toCharCode (chr "#")) with false.
    cbv iota. unfold gettok_tail. par_step. rewrite Hl.
    change (EOF =? EOF) with true. cbv iota. par_step.
    split; [split; [exact Hs1 | right; right; exact Hl]|].
    split; [right; reflexivity | exact Hc1].
Qed.

Lemma blank_getNextToken fuel st :
  blank_state st ->
  partially (getNextToken fuel) st (fun _ st' =>
    blank_state st' /\
    (CurTok st' = toCharCode (chr ";") \/ CurTok st' = tok_eof) /\
    console st' = console st).
Proof.
  intros Hb. unfold getNextToken. par_call blank_gettok; [exact Hb|].
  intros tok st1 (H1 & H2 & H3). do 2 par_step.
  split; [exact H1|]. split; [exact H2 | exact H3].
Qed.

Lemma blank_MainLoop fuel : forall st,
  blank_state st ->
  CurTok st = toCharCode (chr ";") \/ CurTok st = tok_eof ->
  partially (MainLoop fuel) st (fun _ st' => console st' = console st).
Proof.
  induction fuel as [|f IH]; intros st Hb Hcur; [exact I|].
  simpl. par_step. destruct Hcur as [Hcur|Hcur]; rewrite Hcur.
  - change (toCharCode (chr ";") =? tok_eof) with false.
    change (toCharCode (chr ";") =? toCharCode (chr ";")) with true. cbv iota.
    par_call blank_getNextToken; [exact Hb|]. intros _ st1 (H1 & H2 & H3).
    eapply partially_conseq; [apply IH; assumption|]. cbv beta.
    intros _ st2 H4. congruence.
  - change (tok_eof =? tok_eof) with true. cbv iota. par_step. reflexivity.
Qed.

Lemma getNextToken_punctuation c rem tok id nv con fuel :
  punctuation (toCharCode c) ->
  (2 <= fuel)%nat ->
  getNextToken fuel (parser_state (c :: rem) tok id nv con) =
  Some (toCharCode c, parser_state rem (toCharCode c) id nv con).
Proof.
  intros Hp Hf. unfold getNextToken.
  rewrite (bind_eq _ _ _ _ _
             (gettok_punctuation (parser_state (c :: rem) tok id nv con) fuel Hp Hf)).
  reflexivity.
Qed.

Lemma getNextToken_one rem tok id nv con fuel :
  digit_or_dot (lookahead_of rem) = false ->
  (3 <= fuel)%nat ->
  getNextToken fuel (parser_state (chr "1" :: rem) tok id nv con) =
  Some (tok_number, parser_state rem tok_number id (round_decimal 1 0) con).
Proof.
  intros Hrem Hf. unfold getNextToken.
  rewrite (bind_eq _ _ _ _ _
             (gettok_number [] rem fuel
                (parser_state (chr "1" :: rem) tok id nv con)
                eq_refl eq_refl ltac:(constructor) Hrem ltac:(simpl; lia))).
  reflexivity.
Qed.

Lemma getNextToken_end tok id nv con fuel :
  (2 <= fuel)%nat ->
  getNextToken fuel (parser_state [] tok id nv con) =
  Some (tok_eof, parser_state [] tok_eof id nv con).
Proof.
  intros Hf. unfold getNextToken.
  rewrite (bind_eq _ _ _ _ _
             (gettok_at_EOF fuel (parser_state [] tok id nv con) eq_refl Hf)).
  reflexivity.
Qed.

Lemma getNextToken_closing m tok id nv con fuel :
  (2 <= fuel)%nat ->
  getNextToken fuel (parser_state (repeat (chr ")") m) tok id nv con) =
  Some (closing_token m,
        parser_state (tl (repeat (chr ")") m)) (closing_token m) id nv con).
Proof.
  intros Hf. destruct m as [|m]; simpl.
  - apply getNextToken_end, Hf.
  - apply getNextToken_punctuation; [repeat split; discriminate | exact Hf].
Qed.

Lemma closing_token_no_operator m rem id nv con :
  GetTokPrecedence (parser_state rem (closing_token m) id nv con) =
  Some (-1, parser_state rem (closing_token m) id nv con).
Proof. destruct m; reflexivity. Qed.

Lemma nested_first_token n m tok id nv con fuel :
  (3 <= fuel)%nat ->
  getNextToken fuel
    (parser_state (repeat (chr "(") n ++ js "1" ++ repeat (chr ")") (n + m))
                  tok id nv con) =
  Some (CurTok (nested_state n m id nv con), nested_state n m id nv con).
Proof.
  intros Hf. destruct n as [|n]; simpl.
  - apply getNextToken_one; [destruct m; reflexivity | exact Hf].
  - apply getNextToken_punctuation; [repeat split; discriminate | lia].
Qed.

(** Parentheses add no node: the operand comes back as it is. *)
Lemma nested_ParsePrimary (n : nat) :
  forall (m : nat) (id : jsstring) (nv : number) (con : list string)
         (fuel : nat),
    (3 * n + 3 <= fuel)%nat ->
    ParsePrimary fuel (nested_state n m id nv con) =
    Some (Some (NumberExprAST (round_decimal 1 0)),
          parser_state (tl (repeat (chr ")") m)) (closing_token m) id
                       (round_decimal 1 0) con).
Proof.
  induction n as [|n IH]; intros m id nv con fuel Hf;
    (destruct fuel as [|f]; [lia|]); cbn [ParsePrimary];
    rewrite (bind_eq (read CurTok) _ _ _ _ eq_refl); cbv beta;
    cbn [CurTok parser_state nested_state].
  - change (tok_number =? tok_identifier) with false.
    change (tok_number =? tok_number) with true. cbv iota.
    unfold ParseNumberExpr.
    rewrite (bind_eq (read NumVal) _ _ _ _ eq_refl). cbv beta zeta.
    rewrite (bind_eq _ _ _ _ _
               (getNextToken_closing m tok_number id (round_decimal 1 0) con f
                  ltac:(lia))).
    reflexivity.
  - change (toCharCode (chr "(") =? tok_identifier) with false.
    change (toCharCode (chr "(") =? tok_number) with false.
    change (toCharCode (chr "(") =? toCharCode (chr "(")) with true. cbv iota.
    destruct f as [|f]; [lia|]. cbn [ParseParenExpr].
    replace (S n + m)%nat with (n + S m)%nat by lia.
    rewrite (bind_eq _ _ _ _ _
               (nested_first_token n (S m) (toCharCode (chr "(")) id nv con f
                  ltac:(lia))).
    assert (HE : ParseExpression f (nested_state n (S m) id nv con) =
                 Some (Some (NumberExprAST (round_decimal 1 0)),
                       parser_state (repeat (chr ")") m) (toCharCode (chr ")"))
                                    id (round_decimal 1 0) con)).
    { destruct f as [|f]; [lia|]. cbn [ParseExpression].
      rewrite (bind_eq _ _ _ _ _ (IH (S m) id nv con f ltac:(lia))).
      destruct f as [|f]; [lia|]. cbn [ParseBinOpRHS].
      rewrite (bind_eq _ _ _ _ _
                 (closing_token_no_operator (S m) (tl (repeat (chr ")") (S m)))
                    id (round_decimal 1 0) con)).
      reflexivity. }
    rewrite (bind_eq _ _ _ _ _ HE).
    rewrite (bind_eq (read CurTok) _ _ _ _ eq_refl). cbv beta.
    cbn [CurTok parser_state closing_token].
    change (negb (toCharCode (chr ")") =? toCharCode (chr ")"))) with false.
    cbv iota.
    rewrite (bind_eq _ _ _ _ _
               (getNextToken_closing m (toCharCode (chr ")")) id
                  (round_decimal 1 0) con f ltac:(lia))).
    reflexivity.
Qed.

Lemma nested_at_top_level (id0 : jsstring) (num0 : number) (tok0 : Z)
  (n fuel : nat) :
  (3 * n + 4 <= fuel)%nat ->
  at_top_level ParseExpression fuel (loaded (id0, num0, tok0) [nested_text n]) =
  Some (Some (NumberExprAST (round_decimal 1 0)),
        parser_state [] tok_eof id0 (round_decimal 1 0) []).
Proof.
  intros Hf.
  assert (main_prologue fuel (loaded (id0, num0, tok0) [nested_text n]) =
          Some (tt, nested_state n 0 id0 num0 [])) as Hpro.
  { set (s0 := set_BinopPrecedence
                  (<[toCharCode (chr "*") := 40]>
                     (<[toCharCode (chr "-") := 30]>
                        (<[toCharCode (chr "+") := 20]>
                           (<[toCharCode (chr "<") := 10]> ∅))))
                  (loaded (id0, num0, tok0) [nested_text n])).
    assert (getNextToken fuel s0 =
            getNextToken fuel (parser_state (nested_text n) tok0 id0 num0 []))
      as Hskip.
    { unfold getNextToken, bind.
      rewrite (gettok_after_whitespace s0 [] (nested_text n) fuel
                 eq_refl eq_refl ltac:(constructor)
                 ltac:(destruct n; reflexivity) ltac:(simpl; lia)).
      reflexivity. }
    pose proof (nested_first_token n 0 tok0 id0 num0 [] fuel ltac:(lia)) as E.
    rewrite Nat.add_0_r in E. fold (nested_text n) in E.
    unfold main_prologue.
    rewrite (bind_eq _ _ _ tt _ (main_install_binops_eq _)). fold s0.
    rewrite (bind_eq _ _ _ _ _ (eq_trans Hskip E)). reflexivity. }
  unfold at_top_level. rewrite (bind_eq _ _ _ _ _ Hpro).
  destruct fuel as [|f]; [lia|]. cbn [ParseExpression].
  rewrite (bind_eq _ _ _ _ _ (nested_ParsePrimary n 0 id0 num0 [] f ltac:(lia))).
  destruct f as [|f]; [lia|]. reflexivity.
Qed.

Lemma alnum_char_code (u : jschar) :
  alnum_char u = true ->
  isalnum (toCharCode u) = true /\ fromCharCode (toCharCode u) = u.
Proof.
  intros H.
  assert (fromCharCode (toCharCode u) = u) as E.
  { unfold fromCharCode, toCharCode.
    assert (u <= 122)%N as Hu.
    { unfold alnum_char, in_range, chr in H. simpl in H.
      repeat match type of H with
             | (_ || _)%bool = true => apply orb_true_iff in H; destruct H as [H|H]
             | (_ && _)%bool = true => apply andb_true_iff in H; destruct H as [_ H]
             end; apply N.leb_le in H; lia. }
    rewrite Z.mod_small by lia. apply N2Z.id. }
  split; [|exact E]. unfold isalnum. cbv zeta. rewrite E. exact H.
Qed.

Lemma alpha_char_code (c : jschar) :
  alpha_char c = true ->
  isalpha (toCharCode c) = true /\ fromCharCode (toCharCode c) = c.
Proof.
  intros H.
  assert (alnum_char c = true) as Hn.
  { unfold alnum_char. unfold alpha_char in H. rewrite H. reflexivity. }
  destruct (alnum_char_code c Hn) as [_ E]. split; [|exact E].
  unfold isalpha. cbv zeta. rewrite E. exact H.
Qed.

Lemma identifier_token (w : jsstring) :
  identifier w -> word_token w = tok_identifier.
Proof.
  intros (_ & Hd & He). unfold word_token, jsstring_eqb.
  rewrite !bool_decide_eq_false_2 by assumption. reflexivity.
Qed.

(** A word in front of the text left is lexed as a whole, across the white
    space before it. *)
Lemma getNextToken_word ws w rest tok id nv con fuel :
  Forall (fun c => isspace (toCharCode c) = true) ws ->
  word w ->
  isalnum (lookahead_of rest) = false ->
  (length ws + length w + 3 <= fuel)%nat ->
  getNextToken fuel (parser_state (ws ++ w ++ rest) tok id nv con) =
  Some (word_token w, parser_state rest (word_token w) w nv con).
Proof.
  intros Hws (c & run & -> & Hc & Hrun) Hrest Hf.
  destruct (alpha_char_code c Hc) as [Hc1 Hc2].
  assert (Forall (fun u => isalnum (toCharCode u) = true) run) as Hrun1.
  { eapply Forall_impl; [exact Hrun|]. intros u Hu. apply alnum_char_code, Hu. }
  assert (map (fun u => fromCharCode (toCharCode u)) run = run) as Hrun2.
  { clear Hf Hrun1. induction Hrun as [|u run Hu _ IH]; [reflexivity|].
    simpl. rewrite IH. f_equal. apply alnum_char_code, Hu. }
  assert (gettok fuel (parser_state ((c :: run) ++ rest) tok id nv con) =
          Some (word_token (c :: run),
                set_IdentifierStr (c :: run)
                  (set_LastChar (lookahead_of rest)
                     (set_stream (tl rest)
                        (parser_state ((c :: run) ++ rest) tok id nv con)))))
    as Hword.
  { rewrite (gettok_word (parser_state ((c :: run) ++ rest) tok id nv con)
               run rest fuel Hc1 eq_refl Hrun1 Hrest
               ltac:(simpl in Hf; rewrite ?length_app in Hf; simpl in Hf; lia)).
    cbn [LastChar parser_state app lookahead_of]. rewrite Hc2, Hrun2.
    reflexivity. }
  unfold getNextToken. destruct ws as [|s ws].
  - cbn [app]. rewrite (bind_eq _ _ _ _ _ Hword). reflexivity.
  - inversion Hws as [|? ? Hs Hws']; subst.
    pose proof (gettok_after_whitespace
                  (parser_state ((s :: ws) ++ (c :: run) ++ rest) tok id nv con)
                  ws ((c :: run) ++ rest) fuel Hs eq_refl Hws'
                  (isalpha_not_space _ Hc1) ltac:(simpl in Hf; lia)) as Hskip.
    change (set_LastChar (lookahead_of ((c :: run) ++ rest))
              (set_stream (tl ((c :: run) ++ rest))
                 (parser_state ((s :: ws) ++ (c :: run) ++ rest) tok id nv con)))
      with (parser_state ((c :: run) ++ rest) tok id nv con) in Hskip.
    rewrite (bind_eq _ _ _ _ _ (eq_trans Hskip Hword)). reflexivity.
Qed.

Lemma more_params_lookahead (args : list jsstring) :
  isalnum (lookahead_of (more_params args ++ js ")")) = false.
Proof. destruct args; reflexivity. Qed.

Lemma join_more_params (a : jsstring) (args : list jsstring) :
  join (js " ") (a :: args) = a ++ more_params args.
Proof.
  revert a. induction args as [|b args IH]; intros a.
  - simpl. rewrite app_nil_r. reflexivity.
  - change (join (js " ") (a :: b :: args))
      with (a ++ js " " ++ join (js " ") (b :: args)).
    rewrite IH. reflexivity.
Qed.

(** The loop of [ParsePrototype] collects the names up to the closing
    parenthesis, in their order. *)
Lemma ParsePrototype_args_run (args : list jsstring) :
  forall (acc : list jsstring) (tok : Z) (id : jsstring) (nv : number)
         (con : list string) (fuel : nat),
    Forall identifier args ->
    (length (more_params args) + 4 <= fuel)%nat ->
    exists id',
      ParsePrototype_args fuel acc
        (parser_state (more_params args ++ js ")") tok id nv con) =
      Some (acc ++ args, parser_state [] (toCharCode (chr ")")) id' nv con).
Proof.
  induction args as [|a args IH]; intros acc tok id nv con fuel Hargs Hf;
    (destruct fuel as [|f]; [lia|]); cbn [ParsePrototype_args].
  - exists id. cbn [more_params map concat app].
    rewrite (bind_eq _ _ _ _ _
               (getNextToken_punctuation (chr ")") [] tok id nv con f
                  ltac:(repeat split; discriminate) ltac:(simpl in Hf; lia))).
    rewrite app_nil_r. reflexivity.
  - inversion Hargs as [|? ? Ha Hargs']; subst.
    assert (length (more_params (a :: args)) =
            S (length a + length (more_params args))) as Hlen.
    { unfold more_params. simpl. rewrite length_app. reflexivity. }
    rewrite Hlen in Hf.
    change (more_params (a :: args) ++ js ")")
      with ((chr " " :: a ++ more_params args) ++ js ")").
    replace ((chr " " :: a ++ more_params args) ++ js ")")
      with ([chr " "] ++ a ++ (more_params args ++ js ")"))
      by (simpl; rewrite <- app_assoc; reflexivity).
    rewrite (bind_eq _ _ _ _ _
               (getNextToken_word [chr " "] a (more_params args ++ js ")")
                  tok id nv con f ltac:(repeat constructor) (proj1 Ha)
                  (more_params_lookahead args) ltac:(simpl; lia))).
    rewrite (identifier_token a Ha).
    change (tok_identifier =? tok_identifier) with true. cbv iota.
    rewrite (bind_eq (read IdentifierStr) _ _ _ _ eq_refl).
    cbn [IdentifierStr parser_state].
    destruct (IH (acc ++ [a]) tok_identifier a nv con f Hargs' ltac:(lia))
      as [id' E].
    exists id'. rewrite E, <- app_assoc. reflexivity.
Qed.

Lemma ParsePrototype_args_first (args : list jsstring) (tok : Z) (id : jsstring)
  (nv : number) (con : list string) (fuel : nat) :
  Forall identifier args ->
  (length (join (js " ") args) + 5 <= fuel)%nat ->
  exists id',
    ParsePrototype_args fuel []
      (parser_state (join (js " ") args ++ js ")") tok id nv con) =
    Some (args, parser_state [] (toCharCode (chr ")")) id' nv con).
Proof.
  intros Hargs Hf. destruct args as [|a args].
  - apply (ParsePrototype_args_run [] [] tok id nv con fuel Hargs).
    simpl in *. lia.
  - inversion Hargs as [|? ? Ha Hargs']; subst.
    rewrite join_more_params in *. rewrite length_app in Hf.
    destruct fuel as [|f]; [lia|]. cbn [ParsePrototype_args].
    rewrite <- app_assoc.
    rewrite (bind_eq _ _ _ _ _
               (getNextToken_word [] a (more_params args ++ js ")")
                  tok id nv con f ltac:(constructor) (proj1 Ha)
                  (more_params_lookahead args) ltac:(simpl; lia))).
    rewrite (identifier_token a Ha).
    change (tok_identifier =? tok_identifier) with true. cbv iota.
    rewrite (bind_eq (read IdentifierStr) _ _ _ _ eq_refl).
    cbn [IdentifierStr parser_state].
    apply (ParsePrototype_args_run args [a] tok_identifier a nv con f Hargs').
    lia.
Qed.

Lemma ParsePrototype_run (name : jsstring) (args : list jsstring)
  (nv : number) (con : list string) (fuel : nat) :
  Forall identifier args ->
  (length (join (js " ") args) + 5 <= fuel)%nat ->
  exists id',
    ParsePrototype fuel
      (parser_state (js "(" ++ join (js " ") args ++ js ")")
                    tok_identifier name nv con) =
    Some (Some (MkPrototypeAST name args),
          parser_state [] tok_eof id' nv con).
Proof.
  intros Hargs Hf.
  destruct (ParsePrototype_args_first args (toCharCode (chr "(")) name nv con
              fuel Hargs Hf) as [id' E].
  exists id'. unfold ParsePrototype.
  rewrite (bind_eq (read CurTok) _ _ _ _ eq_refl). cbv beta.
  cbn [CurTok parser_state].
  change (negb (tok_identifier =? tok_identifier)) with false. cbv iota.
  rewrite (bind_eq (read IdentifierStr) _ _ _ _ eq_refl). cbv beta.
  cbn [IdentifierStr parser_state].
  rewrite (bind_eq _ _ _ _ _
             (getNextToken_punctuation (chr "(") (join (js " ") args ++ js ")")
                tok_identifier name nv con fuel
                ltac:(repeat split; discriminate) ltac:(lia))).
  rewrite (bind_eq (read CurTok) _ _ _ _ eq_refl). cbv beta.
  cbn [CurTok parser_state].
  change (negb (toCharCode (chr "(") =? toCharCode (chr "("))) with false.
  cbv iota.
  rewrite (bind_eq _ _ _ _ _ E).
  rewrite (bind_eq (read CurTok) _ _ _ _ eq_refl). cbv beta.
  cbn [CurTok parser_state].
  change (negb (toCharCode (chr ")") =? toCharCode (chr ")"))) with false.
  cbv iota.
  rewrite (bind_eq _ _ _ _ _
             (getNextToken_end (toCharCode (chr ")")) id' nv con fuel
                ltac:(lia))).
  reflexivity.
Qed.

Lemma extern_at_top_level (id0 : jsstring) (num0 : number) (tok0 : Z)
  (name : jsstring) (args : list jsstring) (fuel : nat) :
  identifier name ->
  Forall identifier args ->
  (length (prototype_text name args) + 9 <= fuel)%nat ->
  exists id',
    at_top_level ParseExtern fuel
      (loaded (id0, num0, tok0) [js "extern"; prototype_text name args]) =
    Some (Some (MkPrototypeAST name args),
          parser_state [] tok_eof id' num0 []).
Proof.
  intros Hname Hargs Hf.
  unfold prototype_text in Hf. rewrite !length_app in Hf. simpl in Hf.
  change (join [chr " "] args) with (join (js " ") args) in Hf.
  destruct (ParsePrototype_run name args num0 [] fuel Hargs ltac:(lia))
    as [id' E].
  exists id'.
  assert (main_prologue fuel
            (loaded (id0, num0, tok0) [js "extern"; prototype_text name args]) =
          Some (tt, parser_state (js " " ++ prototype_text name args)
                      tok_extern (js "extern") num0 [])) as Hpro.
  { set (s0 := set_BinopPrecedence
                  (<[toCharCode (chr "*") := 40]>
                     (<[toCharCode (chr "-") := 30]>
                        (<[toCharCode (chr "+") := 20]>
                           (<[toCharCode (chr "<") := 10]> ∅))))
                  (loaded (id0, num0, tok0)
                     [js "extern"; prototype_text name args])).
    assert (getNextToken fuel s0 =
            getNextToken fuel
              (parser_state ([] ++ js "extern" ++ js " " ++ prototype_text name args)
                 tok0 id0 num0 [])) as Hskip.
    { unfold getNextToken, bind.
      rewrite (gettok_after_whitespace s0 []
                 (js "extern" ++ js " " ++ prototype_text name args) fuel
                 eq_refl eq_refl ltac:(constructor) eq_refl ltac:(simpl; lia)).
      reflexivity. }
    pose proof (getNextToken_word [] (js "extern")
                  (js " " ++ prototype_text name args) tok0 id0 num0 [] fuel
                  ltac:(constructor)
                  ltac:(exists (chr "e"), (js "xtern"); repeat constructor)
                  eq_refl ltac:(simpl; lia)) as Elex.
    unfold main_prologue.
    rewrite (bind_eq _ _ _ tt _ (main_install_binops_eq _)). fold s0.
    rewrite (bind_eq _ _ _ _ _ (eq_trans Hskip Elex)). reflexivity. }
  unfold at_top_level. rewrite (bind_eq _ _ _ _ _ Hpro).
  unfold ParseExtern.
  rewrite (bind_eq _ _ _ _ _
             (getNextToken_word [chr " "] name
                (js "(" ++ join (js " ") args ++ js ")")
                tok_extern (js "extern") num0 [] fuel
                ltac:(repeat constructor) (proj1 Hname) eq_refl
                ltac:(simpl; lia))).
  rewrite (identifier_token name Hname). exact E.
Qed.

(** * Further properties of the lexer, the parser and the driver *)

(** X1. The character classes: alphanumeric is alphabetic or digit;
    alphabetic, digit and space exclude each other; and [EOF] is in none of
    them. *)
Theorem X1_character_classes (c : Z) :
  isalnum c = (isalpha c || isdigit c)%bool /\
  (isalpha c && isdigit c)%bool = false /\
  (isalpha c && isspace c)%bool = false /\
  (isdigit c && isspace c)%bool = false /\
  isalnum EOF = false /\ isspace EOF = false.
Proof.
  split; [reflexivity|]. split; [|split; [|split]].
  - destruct (isalpha c) eqn:E; [|reflexivity]. apply isalpha_not_digit, E.
  - destruct (isalpha c) eqn:E; [|reflexivity]. apply isalpha_not_space, E.
  - destruct (isdigit c) eqn:E; [|reflexivity]. apply isdigit_not_space, E.
  - split; reflexivity.
Qed.

(** X2. [getchar] hands out the characters of the stream in order, each
    once, and then [EOF] for every further call. *)
Theorem X2_getchar_in_order_then_EOF (n : nat) (st : state) :
  getchar_times n st =
  Some (map toCharCode (take n (stream st)) ++ repeat EOF (n - length (stream st)),
        set_stream (drop n (stream st)) st).
Proof. apply getchar_times_spec. Qed.

(** X3. White space before a token is skipped: a call of [gettok] on a
    lookahead and a run of white space is the call on what follows the
    run. *)
Theorem X3_gettok_skips_whitespace
  (st : state) (ws rest : list jschar) (fuel : nat) :
  isspace (LastChar st) = true ->
  stream st = ws ++ rest ->
  Forall (fun c => isspace (toCharCode c) = true) ws ->
  isspace (lookahead_of rest) = false ->
  (length ws + 3 <= fuel)%nat ->
  gettok fuel st =
  gettok fuel (set_LastChar (lookahead_of rest) (set_stream (tl rest) st)).
Proof. apply gettok_after_whitespace. Qed.

Lemma X3_gettok_skips_whitespace_witness :
  gettok 5 (loaded ([], NaN, 0) [js "  7"]) =
  gettok 5 (set_LastChar (toCharCode (chr "7"))
              (set_stream [] (loaded ([], NaN, 0) [js "  7"]))).
Proof.
  apply (X3_gettok_skips_whitespace (loaded ([], NaN, 0) [js "  7"])
           (js "  ") (js "7") 5).
  - reflexivity.
  - reflexivity.
  - repeat constructor.
  - reflexivity.
  - simpl. lia.
Defined.

(** X4. On a letter [gettok] takes the whole run of letters and digits
    that follows into [IdentifierStr] and returns [tok_def] when the text is
    ["def"], [tok_extern] when it is ["extern"], and [tok_identifier]
    otherwise. *)
Theorem X4_gettok_words_and_keywords
  (st : state) (run rest : list jschar) (fuel : nat) :
  isalpha (LastChar st) = true ->
  stream st = run ++ rest ->
  Forall (fun c => isalnum (toCharCode c) = true) run ->
  isalnum (lookahead_of rest) = false ->
  (length run + 3 <= fuel)%nat ->
  gettok fuel st =
  Some (word_token (fromCharCode (LastChar st)
                      :: map (fun c => fromCharCode (toCharCode c)) run),
        set_IdentifierStr
          (fromCharCode (LastChar st)
             :: map (fun c => fromCharCode (toCharCode c)) run)
          (set_LastChar (lookahead_of rest) (set_stream (tl rest) st))).
Proof. apply gettok_word. Qed.

Lemma X4_gettok_words_and_keywords_witness :
  gettok 8 (set_LastChar (toCharCode (chr "d")) (loaded ([], NaN, 0) [js "ef1("])) =
  Some (tok_identifier,
        set_IdentifierStr (js "def1")
          (set_LastChar (toCharCode (chr "("))
             (set_stream []
                (set_LastChar (toCharCode (chr "d"))
                   (loaded ([], NaN, 0) [js "ef1("]))))).
Proof.
  apply (X4_gettok_words_and_keywords
           (set_LastChar (toCharCode (chr "d")) (loaded ([], NaN, 0) [js "ef1("]))
           (js "ef1") (js "(") 8).
  - reflexivity.
  - reflexivity.
  - repeat constructor.
  - reflexivity.
  - simpl. lia.
Defined.

(** X5. Every token [gettok] returns is [tok_eof] (with the lookahead at
    [EOF]), a keyword (with its text in [IdentifierStr]), [tok_identifier]
    (with a word that is no keyword in [IdentifierStr]), [tok_number] (with
    [parseFloat] of a text of digits and dots in [NumVal]), or the code of a
    character that is no space, letter, digit, dot or ['#']. *)
Theorem X5_gettok_token_kinds (st : state) (fuel : nat) :
  lookahead_ok st ->
  (chars_left st + 2 <= fuel)%nat ->
  returns (gettok fuel) st (fun tok st' => token_ok tok st' /\ lookahead_ok st').
Proof.
  intros Hok Hf.
  eapply returns_conseq.
  { apply returns_partially; [apply gettok_returns, Hf | apply gettok_frame]. }
  cbv beta. intros tok st' [_ [H1 H2]].
  split; [exact (H2 Hok) | exact (lexer_frame_ok _ _ H1 Hok)].
Qed.

Lemma X5_gettok_token_kinds_witness :
  returns (gettok 4) example_state
          (fun tok st' => token_ok tok st' /\ lookahead_ok st').
Proof.
  apply (X5_gettok_token_kinds example_state 4).
  - split; [unfold example_state, toCharCode; simpl; lia | discriminate].
  - unfold chars_left. simpl. lia.
Defined.

(** X6. [gettok] returns for every state, given fuel for the characters
    left.  It only reads a prefix of the stream; [CurTok], the precedence
    table and the console are as before; a token other than [tok_eof] has
    cost at least one character; and [tok_eof] is returned only when the
    whole stream has been read. *)
Theorem X6_gettok_reads_forward (st : state) (fuel : nat) :
  (chars_left st + 2 <= fuel)%nat ->
  returns (gettok fuel) st (fun tok st' =>
    CurTok st' = CurTok st /\
    BinopPrecedence st' = BinopPrecedence st /\
    console st' = console st /\
    (exists read, stream st = read ++ stream st') /\
    (tok <> tok_eof -> (chars_left st' < chars_left st)%nat) /\
    (lookahead_ok st -> tok = tok_eof -> stream st' = [])).
Proof.
  intros Hf.
  eapply returns_conseq.
  { apply returns_partially; [apply gettok_returns, Hf | apply gettok_frame]. }
  cbv beta. intros tok st' [(_ & Hlt & Heof) [(H1 & H2 & H3 & H4 & H5) _]].
  repeat (split; [assumption|]).
  intros Hok Htok. apply (H5 Hok), Heof, Htok.
Qed.

Lemma X6_gettok_reads_forward_witness :
  returns (gettok 5) (loaded ([], NaN, 0) [js "a"]) (fun tok st' =>
    CurTok st' = 0 /\
    BinopPrecedence st' = ∅ /\
    console st' = [] /\
    (exists read, js "a" = read ++ stream st') /\
    (tok <> tok_eof -> (chars_left st' < 2)%nat) /\
    (lookahead_ok (loaded ([], NaN, 0) [js "a"]) -> tok = tok_eof -> stream st' = [])).
Proof.
  apply (X6_gettok_reads_forward (loaded ([], NaN, 0) [js "a"]) 5).
  unfold chars_left. simpl. lia.
Defined.

(** X7. The expression parser returns for every state, given fuel for the
    tokens left; it reads a prefix of the stream and leaves the precedence
    table alone.  With a result it has written nothing to the console and
    consumed at least one token; with [null] it has written exactly one
    line, a syntax error. *)
Theorem X7_expression_result_or_one_error
  (st : state) (ExprPrec : Z) (LHS : ExprAST) (fuel : nat) :
  (5 * tokens_left st + 5 <= fuel)%nat ->
  returns (ParseExpression fuel) st (fun r st' =>
    logged st r st' /\ parsed st r st') /\
  returns (ParsePrimary fuel) st (fun r st' =>
    logged st r st' /\ parsed st r st') /\
  returns (ParseBinOpRHS fuel ExprPrec LHS) st (fun r st' =>
    logged st r st' /\ consumed st st').
Proof.
  intros Hf.
  destruct (parser_returns fuel) as (_ & _ & _ & Hprim & Hbin & Hexpr).
  destruct (parser_logged fuel) as (_ & _ & _ & Lprim & Lbin & Lexpr).
  split; [|split].
  - eapply returns_conseq;
      [apply returns_partially; [apply Hexpr, Hf | apply Lexpr]|].
    cbv beta. intros r st' [H1 H2]. split; assumption.
  - eapply returns_conseq;
      [apply returns_partially; [apply Hprim; lia | apply Lprim]|].
    cbv beta. intros r st' [H1 H2]. split; assumption.
  - eapply returns_conseq;
      [apply returns_partially; [apply Hbin, Hf | apply Lbin]|].
    cbv beta. intros r st' [H1 H2]. split; assumption.
Qed.

Lemma X7_expression_result_or_one_error_witness :
  returns (ParseExpression 30) example_state (fun r st' =>
    logged example_state r st' /\ parsed example_state r st').
Proof.
  refine (proj1 (X7_expression_result_or_one_error example_state 0
                   (NumberExprAST NaN) 30 _)).
  unfold tokens_left, chars_left. simpl. lia.
Defined.

(** X8. [ParsePrototype], [ParseDefinition] and [ParseExtern] return for
    every state; with a result they have written nothing to the console,
    with [null] exactly one line, a syntax error. *)
Theorem X8_prototype_result_or_one_error (st : state) (fuel : nat) :
  (5 * tokens_left st + 5 <= fuel)%nat ->
  CurTok st <> tok_eof ->
  returns (ParsePrototype fuel) st (fun r st' =>
    logged st r st' /\ parsed st r st') /\
  returns (ParseDefinition fuel) st (fun r st' =>
    logged st r st' /\ handled st st') /\
  returns (ParseExtern fuel) st (fun r st' =>
    logged st r st' /\ handled st st').
Proof.
  intros Hf Hcur. apply Z.eqb_neq in Hcur. split; [|split].
  - eapply returns_conseq;
      [apply returns_partially;
         [apply ParsePrototype_returns; lia | apply ParsePrototype_logged]|].
    cbv beta. intros r st' [H1 H2]. split; assumption.
  - eapply returns_conseq;
      [apply returns_partially;
         [apply ParseDefinition_returns; assumption | apply ParseDefinition_logged]|].
    cbv beta. intros r st' [H1 H2]. split; assumption.
  - eapply returns_conseq;
      [apply returns_partially;
         [apply ParseExtern_returns; assumption | apply ParseExtern_logged]|].
    cbv beta. intros r st' [H1 H2]. split; assumption.
Qed.

Lemma X8_prototype_result_or_one_error_witness :
  returns (ParsePrototype 30) example_state (fun r st' =>
    logged example_state r st' /\ parsed example_state r st').
Proof.
  refine (proj1 (X8_prototype_result_or_one_error example_state 30 _ _)).
  - unfold tokens_left, chars_left. simpl. lia.
  - discriminate.
Defined.

(** X9. Each of the three handlers, started on a token other than
    [tok_eof], returns, has consumed at least one token and has written
    exactly one line to the console: its success report, or a syntax
    error. *)
Theorem X9_handlers_write_one_line (st : state) (fuel : nat) :
  (5 * tokens_left st + 5 <= fuel)%nat ->
  CurTok st <> tok_eof ->
  returns (HandleDefinition fuel) st (fun _ st' =>
    reported "Parsed a function definition." st st' /\ handled st st') /\
  returns (HandleExtern fuel) st (fun _ st' =>
    reported "Parsed an extern" st st' /\ handled st st') /\
  returns (HandleTopLevelExpression fuel) st (fun _ st' =>
    reported "Parsed a top-level expr" st st' /\ handled st st').
Proof.
  intros Hf Hcur. apply Z.eqb_neq in Hcur. split; [|split].
  - eapply returns_conseq;
      [apply returns_partially;
         [apply HandleDefinition_returns; assumption
         | apply HandleDefinition_reported]|].
    cbv beta. intros r st' [H1 H2]. split; assumption.
  - eapply returns_conseq;
      [apply returns_partially;
         [apply HandleExtern_returns; assumption | apply HandleExtern_reported]|].
    cbv beta. intros r st' [H1 H2]. split; assumption.
  - eapply returns_conseq;
      [apply returns_partially;
         [apply HandleTopLevelExpression_returns; assumption
         | apply HandleTopLevelExpression_reported]|].
    cbv beta. intros r st' [H1 H2]. split; assumption.
Qed.

Lemma X9_handlers_write_one_line_witness :
  returns (HandleTopLevelExpression 30) example_state (fun _ st' =>
    reported "Parsed a top-level expr" example_state st' /\
    handled example_state st').
Proof.
  refine (proj2 (proj2 (X9_handlers_write_one_line example_state 30 _ _))).
  - unfold tokens_left, chars_left. simpl. lia.
  - discriminate.
Defined.

(** X10. In a state between two steps of the parser, an expression that
    [ParseExpression] returns is well formed: its numbers and names are
    those the lexer handed over (a name is a word and no keyword), and every
    operator of a [BinaryExprAST] has a positive precedence in the table.
    The same holds of [ParseBinOpRHS] for a well-formed left-hand side and a
    minimal precedence that is not negative.  The final state is again one
    between two steps. *)
Theorem X10_expressions_are_well_formed
  (table : gmap Z Z) (st : state) (ExprPrec : Z) (LHS : ExprAST) (fuel : nat) :
  parser_inv table st ->
  0 <= ExprPrec ->
  ast_ok table LHS ->
  (5 * tokens_left st + 5 <= fuel)%nat ->
  returns (ParseExpression fuel) st (sound table (ast_ok table)) /\
  returns (ParseBinOpRHS fuel ExprPrec LHS) st (sound table (ast_ok table)).
Proof.
  intros Hinv Hprec HLHS Hf.
  destruct (parser_returns fuel) as (_ & _ & _ & _ & Hbin & Hexpr).
  destruct (parser_sound table fuel) as (_ & _ & _ & _ & Sbin & Sexpr).
  split.
  - eapply returns_conseq;
      [apply returns_partially; [apply Hexpr, Hf | apply Sexpr, Hinv]|].
    cbv beta. intros r st' [_ H]. exact H.
  - eapply returns_conseq;
      [apply returns_partially;
         [apply Hbin, Hf | apply Sbin; assumption]|].
    cbv beta. intros r st' [_ H]. exact H.
Qed.

Lemma X10_expressions_are_well_formed_witness :
  returns (ParseExpression 30) example_state
          (sound standard_binops (ast_ok standard_binops)).
Proof.
  refine (proj1 (X10_expressions_are_well_formed standard_binops example_state 0
                   (VariableExprAST (js "x")) 30 _ _ _ _)).
  - split; [reflexivity|]. split.
    + split; [unfold example_state, toCharCode; simpl; lia | discriminate].
    + right. right. right. left. split; [reflexivity|].
      split; [|split; discriminate].
      exists (chr "x"), []. split; [reflexivity|].
      split; [reflexivity | constructor].
  - lia.
  - split; [|split; discriminate].
    exists (chr "x"), []. split; [reflexivity|].
    split; [reflexivity | constructor].
  - unfold tokens_left, chars_left. simpl. lia.
Defined.

(** X11. In a state between two steps of the parser, a prototype that
    [ParsePrototype] or [ParseExtern] returns has a word that is no keyword
    as name and as each parameter, and a function that [ParseDefinition]
    returns has such a prototype and a well-formed body. *)
Theorem X11_prototypes_are_well_formed
  (table : gmap Z Z) (st : state) (fuel : nat) :
  parser_inv table st ->
  CurTok st <> tok_eof ->
  (5 * tokens_left st + 5 <= fuel)%nat ->
  returns (ParsePrototype fuel) st (sound table proto_ok) /\
  returns (ParseExtern fuel) st (sound table proto_ok) /\
  returns (ParseDefinition fuel) st (sound table (function_ok table)).
Proof.
  intros Hinv Hcur Hf. apply Z.eqb_neq in Hcur. split; [|split].
  - eapply returns_conseq;
      [apply returns_partially;
         [apply ParsePrototype_returns; lia | apply ParsePrototype_sound, Hinv]|].
    cbv beta. intros r st' [_ H]. exact H.
  - eapply returns_conseq;
      [apply returns_partially;
         [apply ParseExtern_returns; assumption | apply ParseExtern_sound, Hinv]|].
    cbv beta. intros r st' [_ H]. exact H.
  - eapply returns_conseq;
      [apply returns_partially;
         [apply ParseDefinition_returns; assumption
         | apply ParseDefinition_sound, Hinv]|].
    cbv beta. intros r st' [_ H]. exact H.
Qed.

Lemma X11_prototypes_are_well_formed_witness :
  returns (ParsePrototype 30) example_state (sound standard_binops proto_ok).
Proof.
  refine (proj1 (X11_prototypes_are_well_formed standard_binops example_state 30
                   _ _ _)).
  - split; [reflexivity|]. split.
    + split; [unfold example_state, toCharCode; simpl; lia | discriminate].
    + right. right. right. left. split; [reflexivity|].
      split; [|split; discriminate].
      exists (chr "x"), []. split; [reflexivity|].
      split; [reflexivity | constructor].
  - discriminate.
  - unfold tokens_left, chars_left. simpl. lia.
Defined.

(** X12. [main] returns 0 on every command line, and by then the whole
    input has been read (the stream is empty and the lookahead is [EOF]),
    the precedence table is the one [main] installed, and every line of the
    console is a success report or a syntax error. *)
Theorem X12_main_reads_all_input
  (unset : jsstring * number * Z) (argv : list jsstring) (fuel : nat) :
  (5 * length (join (js " ") argv) + 16 <= fuel)%nat ->
  returns (main fuel) (loaded unset argv) (fun status st' =>
    status = 0 /\ stream st' = [] /\ LastChar st' = EOF /\
    BinopPrecedence st' = standard_binops /\
    Forall diagnostic (console st')).
Proof.
  intros Hf. pose proof (tokens_left_loaded unset argv) as Hlen.
  eapply returns_conseq.
  { apply returns_partially; [apply main_returns; lia | apply main_partially]. }
  cbv beta.
  intros status st' [(_ & _ & Hlast) (Hs & (Ht & [_ Hok] & _) & _ & lines & Hc & Hl)].
  split; [exact Hs|]. split; [exact (Hok Hlast)|]. split; [exact Hlast|].
  split; [exact Ht|]. rewrite Hc. exact Hl.
Qed.

Lemma X12_main_reads_all_input_witness :
  returns (main 100) (loaded ([], NaN, 0) [js "def f(x"; js "foo(1,2"])
    (fun status st' =>
       status = 0 /\ stream st' = [] /\ LastChar st' = EOF /\
       BinopPrecedence st' = standard_binops /\
       Forall diagnostic (console st')).
Proof.
  apply (X12_main_reads_all_input ([], NaN, 0) [js "def f(x"; js "foo(1,2"] 100).
  simpl. lia.
Defined.

(** X13. A lookahead that is no space, letter, digit, dot, ['#'] or [EOF]
    is returned as the token, and the next character becomes the
    lookahead. *)
Theorem X13_gettok_single_character (st : state) (fuel : nat) :
  punctuation (LastChar st) ->
  (2 <= fuel)%nat ->
  gettok fuel st =
  Some (LastChar st,
        set_LastChar (lookahead_of (stream st)) (set_stream (tl (stream st)) st)).
Proof. apply gettok_punctuation. Qed.

Lemma X13_gettok_single_character_witness :
  gettok 2 example_state =
  Some (toCharCode (chr "+"),
        set_LastChar (toCharCode (chr "y")) (set_stream [] example_state)).
Proof.
  refine (X13_gettok_single_character example_state 2 _ _).
  - repeat split; discriminate.
  - lia.
Defined.

(** X14. A chain [1 op 1 op ... op 1] of any length with one operator of
    the table parses to the tree grouped to the left, and the whole input is
    consumed without a diagnostic. *)
Theorem X14_operator_chains_group_left
  (unset : jsstring * number * Z) (op : jschar) (p : Z) (n fuel : nat) :
  standard_binops !! toCharCode op = Some p ->
  (n + 8 <= fuel)%nat ->
  returns (at_top_level ParseExpression fuel)
    (loaded unset [js "1" ++ chain_text op n])
    (fun r st' =>
       r = Some (chain_ast (toCharCode op) n (NumberExprAST (round_decimal 1 0)))
       /\ stream st' = [] /\ CurTok st' = tok_eof /\ console st' = []).
Proof.
  intros Hop Hf. destruct unset as [[id0 num0] tok0].
  assert (0 < p) as Hp.
  { apply standard_binops_operator in Hop.
    destruct Hop as [[_ ->]|[[_ ->]|[[_ ->]|[_ ->]]]]; lia. }
  assert (at_top_level ParseExpression fuel
            (loaded (id0, num0, tok0) [js "1" ++ chain_text op n]) =
          Some (Some (chain_ast (toCharCode op) n
                        (NumberExprAST (round_decimal 1 0))),
                chain_state op 0 id0 [])) as E.
  { set (s0 := set_BinopPrecedence
                  (<[toCharCode (chr "*") := 40]>
                     (<[toCharCode (chr "-") := 30]>
                        (<[toCharCode (chr "+") := 20]>
                           (<[toCharCode (chr "<") := 10]> ∅))))
                  (loaded (id0, num0, tok0) [js "1" ++ chain_text op n])).
    assert (gettok fuel s0 =
            Some (tok_number,
                  set_NumVal (parseFloat (js "1"))
                    (set_LastChar (lookahead_of (chain_text op n))
                       (set_stream (tl (chain_text op n)) s0)))) as Hlex.
    { rewrite (gettok_after_whitespace s0 [] (chr "1" :: chain_text op n) fuel
                 eq_refl eq_refl ltac:(constructor) eq_refl ltac:(simpl; lia)).
      apply (gettok_number [] (chain_text op n) fuel
               (set_LastChar (lookahead_of (chr "1" :: chain_text op n))
                  (set_stream (tl (chr "1" :: chain_text op n)) s0))
               eq_refl eq_refl ltac:(constructor)).
      - apply standard_binops_operator in Hop.
        destruct Hop as [[-> _]|[[-> _]|[[-> _]|[-> _]]]]; destruct n; reflexivity.
      - simpl. lia. }
    assert (main_prologue fuel
              (loaded (id0, num0, tok0) [js "1" ++ chain_text op n]) =
            Some (tt,
                  {| stream := tl (chain_text op n);
                     LastChar := lookahead_of (chain_text op n);
                     IdentifierStr := id0; NumVal := round_decimal 1 0;
                     CurTok := tok_number;
                     BinopPrecedence := standard_binops; console := [] |}))
      as Hpro.
    { unfold main_prologue.
      rewrite (bind_eq _ _ _ tt _ (main_install_binops_eq _)). fold s0.
      unfold getNextToken.
      rewrite (bind_eq _ _ _ _ _ (bind_eq _ _ _ _ _ Hlex)). reflexivity. }
    unfold at_top_level. rewrite (bind_eq _ _ _ _ _ Hpro).
    destruct fuel as [|f]; [lia|]. cbn [ParseExpression].
    rewrite (bind_eq _ _ _ _ _
               (chain_ParsePrimary op p n id0 [] f Hop ltac:(lia))).
    apply chain_ParseBinOpRHS with (p := p); [exact Hop | lia | lia]. }
  exists (Some (chain_ast (toCharCode op) n (NumberExprAST (round_decimal 1 0)))),
         (chain_state op 0 id0 []).
  split; [exact E|]. repeat split.
Qed.

Lemma X14_operator_chains_group_left_witness :
  returns (at_top_level ParseExpression 11)
    (loaded ([], NaN, 0) [js "1" ++ chain_text (chr "-") 3])
    (fun r st' =>
       r = Some (chain_ast (toCharCode (chr "-")) 3
                   (NumberExprAST (round_decimal 1 0)))
       /\ stream st' = [] /\ CurTok st' = tok_eof /\ console st' = []).
Proof.
  refine (X14_operator_chains_group_left ([], NaN, 0) (chr "-") 30 3 11 _ _).
  - reflexivity.
  - lia.
Defined.

(** X15. A program that holds white space and semicolons only (the empty
    program included) produces no output: [main] returns 0 and the console
    is empty. *)
Theorem X15_separators_only_program_is_silent
  (unset : jsstring * number * Z) (argv : list jsstring) (fuel : nat) :
  Forall blank (join (js " ") argv) ->
  (5 * length (join (js " ") argv) + 16 <= fuel)%nat ->
  returns (main fuel) (loaded unset argv) (fun status st' =>
    status = 0 /\ console st' = []).
Proof.
  intros Hblank Hf. pose proof (tokens_left_loaded unset argv) as Hlen.
  eapply returns_conseq.
  { apply returns_partially with (Q := fun _ st' => console st' = []);
      [apply main_returns; lia|].
    unfold main, main_prologue. apply partially_bind, partially_bind.
    unfold partially at 1. rewrite main_install_binops_eq.
    set (st0 := set_BinopPrecedence _ (loaded unset argv)).
    assert (blank_state st0) as Hb.
    { destruct unset as [[id0 num0] tok0]. split; [exact Hblank|].
      left. reflexivity. }
    assert (console st0 = []) as Hcon
      by (destruct unset as [[id0 num0] tok0]; reflexivity).
    par_call blank_getNextToken; [exact Hb|]. intros _ st1 (H1 & H2 & H3).
    par_step. par_call blank_MainLoop; [exact H1 | exact H2 |].
    intros _ st2 H4. par_step. congruence. }
  cbv beta. intros status st' [(Hs & _) Hc]. split; assumption.
Qed.

Lemma X15_separators_only_program_is_silent_witness :
  returns (main 50) (loaded ([], NaN, 0) [js ";"; js " ;;"]) (fun status st' =>
    status = 0 /\ console st' = []).
Proof.
  refine (X15_separators_only_program_is_silent ([], NaN, 0)
            [js ";"; js " ;;"] 50 _ _).
  - repeat (apply Forall_cons; split;
            [first [left; reflexivity | right; reflexivity]|]).
    apply Forall_nil. exact I.
  - simpl. lia.
Defined.

(** X16. On a token that starts no expression (any token but an
    identifier, a number or ['('], [tok_eof] included) [ParsePrimary] and
    [ParseExpression] return [null] without consuming anything, the one
    error line being logged; the handler of top-level expressions then
    skips that token. *)
Theorem X16_unknown_token_is_logged_then_skipped (st : state) (fuel : nat) :
  CurTok st <> tok_identifier ->
  CurTok st <> tok_number ->
  CurTok st <> toCharCode (chr "(") ->
  (2 <= fuel)%nat ->
  ParsePrimary fuel st = Some (None, unknown_token_logged st) /\
  ParseExpression fuel st = Some (None, unknown_token_logged st) /\
  HandleTopLevelExpression fuel st =
  (getNextToken fuel ;; ret tt) (unknown_token_logged st).
Proof.
  intros H1 H2 H3 Hf. apply Z.eqb_neq in H1, H2, H3.
  assert (forall f, ParsePrimary (S f) st = Some (None, unknown_token_logged st))
    as Hprim.
  { intros f. cbn [ParsePrimary].
    rewrite (bind_eq (read CurTok) _ st _ st eq_refl). cbv beta.
    rewrite H1, H2, H3. reflexivity. }
  destruct fuel as [|[|f]]; [lia | lia |].
  split; [apply Hprim|].
  assert (ParseExpression (S (S f)) st = Some (None, unknown_token_logged st))
    as Hexpr.
  { cbn [ParseExpression]. rewrite (bind_eq _ _ _ _ _ (Hprim f)). reflexivity. }
  split; [exact Hexpr|].
  unfold HandleTopLevelExpression, ParseTopLevelExpr.
  rewrite (bind_eq _ _ _ _ _ (bind_eq _ _ _ _ _ Hexpr)). reflexivity.
Qed.

Lemma X16_unknown_token_is_logged_then_skipped_witness :
  ParseExpression 2 (set_CurTok tok_eof example_state) =
  Some (None, unknown_token_logged (set_CurTok tok_eof example_state)).
Proof.
  refine (proj1 (proj2 (X16_unknown_token_is_logged_then_skipped
                          (set_CurTok tok_eof example_state) 2 _ _ _ _)));
    [discriminate | discriminate | discriminate | lia].
Defined.

(** X17. Parentheses add no node to the tree: the operand [1] inside any
    number of balanced parentheses parses to the number itself, the whole
    input is consumed and nothing is written to the console. *)
Theorem X17_parentheses_add_no_node
  (unset : jsstring * number * Z) (n fuel : nat) :
  (3 * n + 4 <= fuel)%nat ->
  returns (at_top_level ParseExpression fuel) (loaded unset [nested_text n])
    (fun r st' =>
       r = Some (NumberExprAST (round_decimal 1 0)) /\
       stream st' = [] /\ CurTok st' = tok_eof /\ console st' = []).
Proof.
  intros Hf. destruct unset as [[id0 num0] tok0].
  exists (Some (NumberExprAST (round_decimal 1 0))),
         (parser_state [] tok_eof id0 (round_decimal 1 0) []).
  split; [apply nested_at_top_level; lia|]. repeat split.
Qed.

Lemma X17_parentheses_add_no_node_witness :
  returns (at_top_level ParseExpression 13) (loaded ([], NaN, 0) [nested_text 3])
    (fun r st' =>
       r = Some (NumberExprAST (round_decimal 1 0)) /\
       stream st' = [] /\ CurTok st' = tok_eof /\ console st' = []).
Proof.
  refine (X17_parentheses_add_no_node ([], NaN, 0) 3 13 _). lia.
Defined.

(** X18. [extern name(a1 a2 ... ak)], the parameters separated by spaces,
    parses to the prototype of [name] with the parameters in their order;
    the whole input is consumed and nothing is written to the console.  A
    name may occur twice among the parameters. *)
Theorem X18_extern_prototype_parameters
  (unset : jsstring * number * Z) (name : jsstring) (args : list jsstring)
  (fuel : nat) :
  identifier name ->
  Forall identifier args ->
  (length (prototype_text name args) + 9 <= fuel)%nat ->
  returns (at_top_level ParseExtern fuel)
    (loaded unset [js "extern"; prototype_text name args])
    (fun r st' =>
       r = Some (MkPrototypeAST name args) /\
       stream st' = [] /\ CurTok st' = tok_eof /\ console st' = []).
Proof.
  intros Hname Hargs Hf. destruct unset as [[id0 num0] tok0].
  destruct (extern_at_top_level id0 num0 tok0 name args fuel Hname Hargs Hf)
    as [id' E].
  exists (Some (MkPrototypeAST name args)),
         (parser_state [] tok_eof id' num0 []).
  split; [exact E|]. repeat split.
Qed.

Lemma X18_extern_prototype_parameters_witness :
  returns (at_top_level ParseExtern 17)
    (loaded ([], NaN, 0)
       [js "extern"; prototype_text (js "f") [js "a"; js "b"; js "a"]])
    (fun r st' =>
       r = Some (MkPrototypeAST (js "f") [js "a"; js "b"; js "a"]) /\
       stream st' = [] /\ CurTok st' = tok_eof /\ console st' = []).
Proof.
  assert (forall c, alpha_char c = true -> identifier [c]) as Hid.
  { intros c Hc. split; [|split; discriminate].
    exists c, []. split; [reflexivity|]. split; [exact Hc | constructor]. }
  refine (X18_extern_prototype_parameters ([], NaN, 0) (js "f")
            [js "a"; js "b"; js "a"] 17 _ _ _).
  - apply (Hid (chr "f")). reflexivity.
  - apply Forall_cons; split; [apply (Hid (chr "a")); reflexivity|].
    apply Forall_cons; split; [apply (Hid (chr "b")); reflexivity|].
    apply Forall_cons; split; [apply (Hid (chr "a")); reflexivity|].
    apply Forall_nil. exact I.
  - vm_compute. lia.
Defined.
